(** * Option-pricing-lab: Black-Scholes kernel, implied-volatility solver and
      chain processor

    A shallow embedding of
      - [src/option_pricer/utils/pricers/black_scholes.py],
      - [src/option_pricer/utils/pricers/implied_volatility.py] (the hybrid,
        print-tracing solver),
      - [src/option_pricer/pricers/implied_volatility.py] (the simpler solver),
      - [src/option_pricer/utils/data_processors/option_chain_processor.py],
    and, in the later parts of the file, of the contracts and chains of
    [src/option_pricer/models/option.py], the liquidity filter and the retry
    loop of [src/option_pricer/utils/data/data_loader.py], and the rows that
    [app.py] hands to the chain processor.

    Conventions of the embedding.
      - A Python [float] is read as a real number: [+], [-], [*], [/], [exp],
        [log], [sqrt], [abs] and [max] are the operations of [R]; rounding,
        overflow and NaN are outside the model.  [float("inf")] only ever
        reaches [norm.cdf] and [norm.pdf], so it is kept as a separate value
        of the type [xfloat].
      - What is left out with the rounding: in double precision [norm.cdf] is
        exactly 1.0 from about 8.3 on and [norm.pdf] underflows to 0.0,
        [math.exp] raises [OverflowError] above about 709.78, [math.log]
        raises on 0.0, a division of 0.0 by 0.0 gives NaN, and the midpoint
        of a bracket stops moving after some fifty halvings.  The facts that
        need exact arithmetic (the price strictly increasing in the
        volatility and strictly inside its bounds, a density that is never
        zero) are lemmas on the real-valued kernel; the theorems on the
        solver use them only where the program leaves a margin, the tolerance
        1e-6 of the root-finder or the 1e-12 of its bounds check.
      - [scipy.stats.norm.pdf] is the standard normal density and
        [scipy.stats.norm.cdf] its distribution function, written as one half
        plus the integral of the density from the origin.
      - [None] is [option]'s [None]; a raised exception is the [Raise] case of
        [result]; [print] appends an [event] to a console log.
      - A dynamically typed value (a field of a quote [dict]) is a [pyval].
      - A method that updates its object returns the updated object; a call
        of the outside world ([datetime.strptime], the function that
        [_retry_loop] retries) is a parameter that gives the outcome of each
        call. *)

From Stdlib Require Import Reals Lra Lia List Ascii String ZArith Bool.
Import ListNotations.
Open Scope R_scope.

(** ** Python values, exceptions and console output *)

Inductive pyval : Type :=
| PyNone
| PyFloat (x : R)
| PyStr (s : string).

Inductive pyexn : Type :=
| KeyError (key : string)
| TypeError
| AttributeError.

Inductive result (A : Type) : Type :=
| Ok (a : A)
| Raise (e : pyexn).
Arguments Ok {A} a.
Arguments Raise {A} e.

(** One constructor per [print] statement of the hybrid solver; the numbers
    are the values that the statement formats. *)
Inductive event : Type :=
| NewtonStart (S : R) (K : pyval) (tau market : R) (option_type : pyval)
| NewtonIter (i : nat) (sigma model market diff vega : R)
| NewtonSuccess (sigma : R)
| NewtonVegaStop
| NewtonSigmaReset
| NewtonFailed
| BisectionStart (S : R) (K : pyval) (tau market : R) (option_type : pyval)
| BisectionIter (i : nat) (mid price low high : R)
| BisectionSuccess (mid : R)
| BisectionEnd (sigma : R).

Definition is_bisection_event (e : event) : bool :=
  match e with
  | BisectionStart _ _ _ _ _ | BisectionIter _ _ _ _ _
  | BisectionSuccess _ | BisectionEnd _ => true
  | _ => false
  end.

(** A computation that prints and may raise. *)
Definition io (A : Type) : Type := (list event * result A)%type.

Definition ret {A} (a : A) : io A := ([], Ok a).
Definition raise {A} (e : pyexn) : io A := ([], Raise e).
Definition print (e : event) : io unit := ([e], Ok tt).
Definition bind {A B} (m : io A) (f : A -> io B) : io B :=
  match snd m with
  | Ok a => (fst m ++ fst (f a), snd (f a))
  | Raise e => (fst m, Raise e)
  end.
Definition lift {A} (r : result A) : io A := ([], r).

(** [try: m  except Exception: h] *)
Definition try_except {A} (m : io A) (h : A) : io A :=
  match snd m with
  | Ok a => m
  | Raise _ => (fst m, Ok h)
  end.

Declare Scope io_scope.
Delimit Scope io_scope with io.
Notation "x <- m ;; k" := (bind m (fun x => k))
  (at level 61, m at next level, right associativity) : io_scope.
Notation "m ;;; k" := (bind m (fun _ => k))
  (at level 61, right associativity) : io_scope.

(** ** Integrals of continuous functions *)

Section Integral.

Variable f : R -> R.
Hypothesis Hf : continuity f.

Lemma cont_integrable (a b : R) : Riemann_integrable f a b.
  Proof.
    destruct (Rle_dec a b) as [Hab | Hab].
    - apply continuity_implies_RiemannInt; [exact Hab | intros; apply Hf].
    - apply RiemannInt_P1, continuity_implies_RiemannInt; [lra | intros; apply Hf].
  Qed.

  (** The integral of [f] from [a] to [x], for either order of the bounds. *)
Definition cint (a x : R) : R := RiemannInt (cont_integrable a x).

End Integral.

(** ** The standard normal law ([scipy.stats.norm]) *)

Definition norm_pdf (x : R) : R := exp (- (x * x) / 2) / sqrt (2 * PI).

Lemma norm_pdf_continuity : continuity norm_pdf.
Proof.
  unfold norm_pdf. intro x.
  apply derivable_continuous_pt.
  unfold Rdiv. apply derivable_pt_mult.
  - apply (derivable_pt_comp (fun x => - (x * x) * / 2) exp).
    + apply derivable_pt_mult.
      * apply derivable_pt_opp. apply derivable_pt_mult; apply derivable_pt_id.
      * apply derivable_pt_const.
    + apply derivable_pt_exp.
  - apply derivable_pt_const.
Qed.

Definition norm_cdf (x : R) : R := 1 / 2 + cint norm_pdf norm_pdf_continuity 0 x.

(** A float that may be infinite: the argument type of [norm.cdf] and
    [norm.pdf] in the kernel. *)
Inductive xfloat : Type :=
| Fin (x : R)
| PosInf
| NegInf.

Definition xneg (d : xfloat) : xfloat :=
  match d with
  | Fin x => Fin (- x)
  | PosInf => NegInf
  | NegInf => PosInf
  end.

Definition cdf (d : xfloat) : R :=
  match d with
  | Fin x => norm_cdf x
  | PosInf => 1
  | NegInf => 0
  end.

Definition pdf (d : xfloat) : R :=
  match d with
  | Fin x => norm_pdf x
  | PosInf | NegInf => 0
  end.

(** ** [utils/pricers/black_scholes.py] *)

(** [option_type == "C"] *)
Definition eq_C (option_type : pyval) : bool :=
  match option_type with
  | PyStr s => String.eqb s "C"
  | _ => false
  end.

Definition _d1_d2 (S K r q sigma tau : R) : xfloat * xfloat :=
  if Rle_dec tau 0 then (PosInf, PosInf)
  else if Rle_dec sigma 0 then (PosInf, PosInf)
  else if Rle_dec S 0 then (PosInf, PosInf)
  else if Rle_dec K 0 then (PosInf, PosInf)
  else
    let sqrt_t := sqrt tau in
    let d1 := (ln (S / K) + (r - q + 0.5 * sigma ^ 2) * tau) / (sigma * sqrt_t) in
    let d2 := d1 - sigma * sqrt_t in
    (Fin d1, Fin d2).

Definition black_scholes_price (S K r q sigma tau : R) (option_type : pyval) : R :=
  if Rle_dec tau 0 then
    if eq_C option_type then Rmax (S - K) 0 else Rmax (K - S) 0
  else if Rle_dec sigma 0 then
    let df_r := exp (- r * tau) in
    let df_q := exp (- q * tau) in
    if eq_C option_type then Rmax (S * df_q - K * df_r) 0
    else Rmax (K * df_r - S * df_q) 0
  else
    let '(d1, d2) := _d1_d2 S K r q sigma tau in
    let df_r := exp (- r * tau) in
    let df_q := exp (- q * tau) in
    if eq_C option_type then S * df_q * cdf d1 - K * df_r * cdf d2
    else K * df_r * cdf (xneg d2) - S * df_q * cdf (xneg d1).

Definition bsm_vega (S K r q sigma tau : R) : R :=
  if Rle_dec tau 0 then 0
  else if Rle_dec sigma 0 then 0
  else
    let '(d1, _) := _d1_d2 S K r q sigma tau in
    S * exp (- q * tau) * sqrt tau * pdf d1.

Definition bsm_delta (S K r q sigma tau : R) (option_type : pyval) : R :=
  if Rle_dec tau 0 then
    if eq_C option_type then (if Rgt_dec S K then 1 else 0)
    else (if Rlt_dec S K then -1 else 0)
  else
    let '(d1, _) := _d1_d2 S K r q sigma tau in
    if eq_C option_type then exp (- q * tau) * cdf d1
    else exp (- q * tau) * (cdf d1 - 1).

Definition bsm_gamma (S K r q sigma tau : R) : R :=
  if Rle_dec tau 0 then 0
  else if Rle_dec sigma 0 then 0
  else
    let '(d1, _) := _d1_d2 S K r q sigma tau in
    exp (- q * tau) * pdf d1 / (S * sigma * sqrt tau).

Definition bsm_theta (S K r q sigma tau : R) (option_type : pyval) : R :=
  if Rle_dec tau 0 then 0
  else
    let '(d1, d2) := _d1_d2 S K r q sigma tau in
    let df_r := exp (- r * tau) in
    let df_q := exp (- q * tau) in
    let term1 := - (S * df_q * pdf d1 * sigma) / (2 * sqrt tau) in
    if eq_C option_type then
      let term2 := q * S * df_q * cdf d1 in
      let term3 := - r * K * df_r * cdf d2 in
      term1 + term2 + term3
    else
      let term2 := - q * S * df_q * cdf (xneg d1) in
      let term3 := r * K * df_r * cdf (xneg d2) in
      term1 + term2 + term3.

Definition bsm_rho (S K r q sigma tau : R) (option_type : pyval) : R :=
  if Rle_dec tau 0 then 0
  else
    let '(_, d2) := _d1_d2 S K r q sigma tau in
    let df_r := exp (- r * tau) in
    if eq_C option_type then K * tau * df_r * cdf d2
    else - K * tau * df_r * cdf (xneg d2).

(** ** [utils/pricers/implied_volatility.py]: the hybrid solver *)

Open Scope io_scope.

(** [option_type.upper().startswith("C")]; a value that is not a [str] has no
    method [upper]. *)
Definition upper_startswith_C (option_type : pyval) : result bool :=
  match option_type with
  | PyStr (String c _) => Ok (Ascii.eqb c "C"%char || Ascii.eqb c "c"%char)
  | PyStr EmptyString => Ok false
  | _ => Raise AttributeError
  end.

Definition _price_bounds (S K r q tau : R) (option_type : pyval) : result (R * R) :=
  let df_r := exp (- r * tau) in
  let df_q := exp (- q * tau) in
  match upper_startswith_C option_type with
  | Ok true => Ok (Rmax 0 (S * df_q - K * df_r), S * df_q)
  | Ok false => Ok (Rmax 0 (K * df_r - S * df_q), K * df_r)
  | Raise e => Raise e
  end.

Section Solver.

Variables (market_price S K r q tau : R) (option_type : pyval) (tol : R).

  (** The body of [for i in range(max_iter)] of [implied_vol_newton], with
      [n] iterations left, followed by the code after the loop. *)
Fixpoint newton_loop (n i : nat) (sigma : R) : io (option R) :=
    match n with
    | O => print NewtonFailed ;;; ret None
    | Datatypes.S n' =>
      let model_price := black_scholes_price S K r q sigma tau option_type in
      let diff := model_price - market_price in
      let v := bsm_vega S K r q sigma tau in
      print (NewtonIter i sigma model_price market_price diff v) ;;;
      if Rlt_dec (Rabs diff) tol then
        print (NewtonSuccess sigma) ;;; ret (Some sigma)
      else if Rlt_dec v 1e-8 then
        print NewtonVegaStop ;;; ret None
      else
        let sigma' := sigma - diff / v in
        if Rle_dec sigma' 0 then
          print NewtonSigmaReset ;;; newton_loop n' (Datatypes.S i) 1e-6
        else newton_loop n' (Datatypes.S i) sigma'
    end.

Definition implied_vol_newton (initial_vol : R) (max_iter : Z) : io (option R) :=
    print (NewtonStart S (PyFloat K) tau market_price option_type) ;;;
    newton_loop (Z.to_nat max_iter) O initial_vol.

Fixpoint bisection_loop (n i : nat) (low high : R) : io R :=
    match n with
    | O =>
      let final_sigma := (low + high) / 2 in
      print (BisectionEnd final_sigma) ;;; ret final_sigma
    | Datatypes.S n' =>
      let mid := (low + high) / 2 in
      let price := black_scholes_price S K r q mid tau option_type in
      print (BisectionIter i mid price low high) ;;;
      if Rlt_dec (Rabs (price - market_price)) tol then
        print (BisectionSuccess mid) ;;; ret mid
      else if Rgt_dec price market_price then
        bisection_loop n' (Datatypes.S i) low mid
      else bisection_loop n' (Datatypes.S i) mid high
    end.

Definition implied_vol_bisection (low high : R) (max_iter : Z) : io R :=
    print (BisectionStart S (PyFloat K) tau market_price option_type) ;;;
    bisection_loop (Z.to_nat max_iter) O low high.

End Solver.

Definition implied_volatility (price S K : option R) (r q : R) (tau : option R)
    (option_type : pyval) (initial_vol tol : R) (max_iter_newton : Z)
    (low high : R) (max_iter_bisection : Z) : io (option R) :=
  match price, S, K, tau with
  | Some price', Some S', Some K', Some tau' =>
    if Rle_dec tau' 0 then ret None
    else
      iv_nr <- implied_vol_newton price' S' K' r q tau' option_type tol
                 initial_vol max_iter_newton ;;
      match iv_nr with
      | Some iv => ret (Some iv)
      | None =>
        bounds <- lift (_price_bounds S' K' r q tau' option_type) ;;
        let '(lb, ub) := bounds in
        if Rlt_dec price' (lb - 1e-12) then ret None
        else if Rgt_dec price' (ub + 1e-12) then ret None
        else
          iv <- implied_vol_bisection price' S' K' r q tau' option_type tol
                  low high max_iter_bisection ;;
          ret (Some iv)
      end
  | _, _, _, _ => ret None
  end.

(** [implied_volatility] with the defaults of its signature:
    [initial_vol=0.2, tol=1e-6, max_iter_newton=30, low=1e-6, high=5.0,
    max_iter_bisection=200]. *)
Definition implied_volatility_default (price S K : option R) (r q : R)
    (tau : option R) (option_type : pyval) : io (option R) :=
  implied_volatility price S K r q tau option_type 0.2 1e-6 30 1e-6 5 200.

(** ** [pricers/implied_volatility.py]: the simpler solver

    It imports [black_scholes_price] and [bsm_vega] from a module
    [pricers.black_scholes] that is not part of the sources; both are
    parameters here. *)

Module Simple.
Section Simple.

Variable black_scholes_price : R -> R -> R -> R -> R -> R -> pyval -> R.
Variable bsm_vega : R -> R -> R -> R -> R -> R -> R.
Variables (market_price S K r q tau : R) (option_type : pyval) (tol : R).

Fixpoint newton_loop (n : nat) (sigma : R) : option R :=
    match n with
    | O => None
    | Datatypes.S n' =>
      let model_price := black_scholes_price S K r q sigma tau option_type in
      let diff := model_price - market_price in
      if Rlt_dec (Rabs diff) tol then Some sigma
      else
        let v := bsm_vega S K r q sigma tau in
        if Rlt_dec v 1e-8 then None
        else
          let sigma' := sigma - diff / v in
          if Rle_dec sigma' 0 then newton_loop n' 1e-6
          else newton_loop n' sigma'
    end.

Definition implied_vol_newton (initial_vol : R) (max_iter : Z) : option R :=
    newton_loop (Z.to_nat max_iter) initial_vol.

Fixpoint bisection_loop (n : nat) (low high : R) : R :=
    match n with
    | O => (low + high) / 2
    | Datatypes.S n' =>
      let mid := (low + high) / 2 in
      let price := black_scholes_price S K r q mid tau option_type in
      if Rlt_dec (Rabs (price - market_price)) tol then mid
      else if Rgt_dec price market_price then bisection_loop n' low mid
      else bisection_loop n' mid high
    end.

Definition implied_vol_bisection (low high : R) (max_iter : Z) : R :=
    bisection_loop (Z.to_nat max_iter) low high.

End Simple.
End Simple.

(** ** [utils/data_processors/option_chain_processor.py] *)

(** A quote is a [dict] from field names to values. *)
Definition dict : Type := list (string * pyval).

(** [row[key]] *)
Fixpoint getitem (row : dict) (key : string) : result pyval :=
  match row with
  | [] => Raise (KeyError key)
  | (k, v) :: rest => if String.eqb k key then Ok v else getitem rest key
  end.

(** Truth value of an object in a condition. *)
Definition truthy (v : pyval) : bool :=
  match v with
  | PyNone => false
  | PyFloat x => if Req_dec_T x 0 then false else true
  | PyStr s => negb (String.eqb s "")
  end.

(** [a and b] *)
Definition py_and (a b : pyval) : pyval := if truthy a then b else a.

(** [a + b] *)
Definition py_add (a b : pyval) : result pyval :=
  match a, b with
  | PyFloat x, PyFloat y => Ok (PyFloat (x + y))
  | PyStr s, PyStr t => Ok (PyStr (s ++ t))
  | _, _ => Raise TypeError
  end.

(** [a / 2] *)
Definition py_half (a : pyval) : result R :=
  match a with
  | PyFloat x => Ok (x / 2)
  | _ => Raise TypeError
  end.

(** A float argument of a kernel function: the arithmetic of the kernel
    raises [TypeError] on [None] and on a [str]. *)
Definition as_float (v : pyval) : result R :=
  match v with
  | PyFloat x => Ok x
  | _ => Raise TypeError
  end.

Record OptionPoint : Type := mkOptionPoint {
  symbol : pyval;
  expiry : pyval;
  strike : pyval;
  type : pyval;
  bid : pyval;
  ask : pyval;
  mid : option R;
  implied_vol : option R;
  delta : option R;
  gamma : option R;
  theta : option R;
  rho : option R
}.

Record OptionChainProcessor : Type := mkProcessor {
  r : R;
  q : R
}.

(** [OptionChainProcessor()] with the defaults of [__init__]. *)
Definition default_processor : OptionChainProcessor := mkProcessor 0.05 0.00.

(** [implied_volatility(price=mid, S=spot, K=row["strike"], ...)] as
    [process_chain] calls it: [price], [S] and [tau] are floats and [K] is
    whatever the quote holds.  With [K] a [str], the first pricing of the
    Newton phase raises [TypeError], after the phase has printed its header
    line. *)
Definition implied_volatility_call (price S : R) (K : pyval) (r q tau : R)
    (option_type : pyval) : io (option R) :=
  match K with
  | PyNone =>
    implied_volatility_default (Some price) (Some S) None r q (Some tau) option_type
  | PyFloat k =>
    implied_volatility_default (Some price) (Some S) (Some k) r q (Some tau) option_type
  | PyStr s =>
    if Rle_dec tau 0 then ret None
    else print (NewtonStart S (PyStr s) tau price option_type) ;;; raise TypeError
  end.

Section ChainProcessor.

  (** The root-finder that [process_chain] imports. *)
Variable solver : R -> R -> pyval -> R -> R -> R -> pyval -> io (option R).

Variable self : OptionChainProcessor.
Variables (spot tau : R).

  (** [mid = (bid + ask) / 2 if (bid and ask) else None] *)
Definition row_mid (bid ask : pyval) : io (option R) :=
  if truthy (py_and bid ask) then
    s <- lift (py_add bid ask) ;;
    m <- lift (py_half s) ;;
    ret (Some m)
  else ret None.

(** Step 1 of the loop body: [iv = None], then the guarded call of the
    root-finder inside [try ... except Exception: iv = None]. *)
Definition row_iv (row : dict) (mid : option R) : io (option R) :=
  match mid with
  | Some m =>
    if Req_dec_T m 0 then ret None
    else if Rgt_dec m 0 then
      try_except
        (K <- lift (getitem row "strike") ;;
         ty <- lift (getitem row "type") ;;
         solver m spot K (r self) (q self) tau ty)
        None
    else ret None
  | None => ret None
  end.

(** Step 2 of the loop body: the Greeks, under [if iv:].  The four calls
    read the same two fields; with a strike that is not a float the block
    raises [TypeError] (at the latest in [bsm_theta]) and prints nothing. *)
Definition row_greeks (row : dict) (iv : option R)
    : io (option R * option R * option R * option R) :=
  match iv with
  | Some v =>
    if Req_dec_T v 0 then ret (None, None, None, None)
    else
      K <- lift (getitem row "strike") ;;
      ty <- lift (getitem row "type") ;;
      k <- lift (as_float K) ;;
      ret (Some (bsm_delta spot k (r self) (q self) v tau ty),
           Some (bsm_gamma spot k (r self) (q self) v tau),
           Some (bsm_theta spot k (r self) (q self) v tau ty),
           Some (bsm_rho spot k (r self) (q self) v tau ty))
  | None => ret (None, None, None, None)
  end.

(** The body of [for row in raw_chain]. *)
Definition process_row (row : dict) : io OptionPoint :=
  bid <- lift (getitem row "bid") ;;
  ask <- lift (getitem row "ask") ;;
  mid <- row_mid bid ask ;;
  iv <- row_iv row mid ;;
  greeks <- row_greeks row iv ;;
  let '(delta, gamma, theta, rho) := greeks in
  symbol <- lift (getitem row "symbol") ;;
  expiry <- lift (getitem row "expiry") ;;
  strike <- lift (getitem row "strike") ;;
  type <- lift (getitem row "type") ;;
  ret (mkOptionPoint symbol expiry strike type bid ask mid iv
         delta gamma theta rho).

Fixpoint process_chain_with (raw_chain : list dict) : io (list OptionPoint) :=
    match raw_chain with
    | [] => ret []
    | row :: rest =>
      p <- process_row row ;;
      processed <- process_chain_with rest ;;
      ret (p :: processed)
    end.

End ChainProcessor.

Definition process_chain (self : OptionChainProcessor) (raw_chain : list dict)
    (spot tau : R) : io (list OptionPoint) :=
  process_chain_with implied_volatility_call self spot tau raw_chain.

Close Scope io_scope.

(** * Properties *)

(** ** Console and exception plumbing *)

Lemma bind_print {A} (e : event) (k : io A) :
  bind (print e) (fun _ => k) = (e :: fst k, snd k).
Proof. reflexivity. Qed.

Lemma bind_ret {A B} (a : A) (f : A -> io B) : bind (ret a) f = f a.
Proof. unfold bind, ret; simpl. destruct (f a); reflexivity. Qed.

Lemma bind_lift_ok {A B} (a : A) (f : A -> io B) : bind (lift (Ok a)) f = f a.
Proof. exact (bind_ret a f). Qed.

Lemma bind_lift_raise {A B} (e : pyexn) (f : A -> io B) :
  bind (lift (Raise e)) f = ([], Raise e).
Proof. reflexivity. Qed.

Lemma snd_bind_ok {A B} (m : io A) (f : A -> io B) (a : A) :
  snd m = Ok a -> snd (bind m f) = snd (f a).
Proof. unfold bind; intros ->; reflexivity. Qed.

Lemma fst_bind_ok {A B} (m : io A) (f : A -> io B) (a : A) :
  snd m = Ok a -> fst (bind m f) = fst m ++ fst (f a).
Proof. unfold bind; intros ->; reflexivity. Qed.

Lemma snd_bind_raise {A B} (m : io A) (f : A -> io B) (e : pyexn) :
  snd m = Raise e -> snd (bind m f) = Raise e.
Proof. unfold bind; intros ->; reflexivity. Qed.

(** The two option kinds of the kernel. *)
Inductive kind : Type := Call | Put.

Definition kind_str (k : kind) : pyval :=
  match k with
  | Call => PyStr "C"
  | Put => PyStr "P"
  end.

(** ** Boundary at expiry *)

(** C7: for every S, K, r, q, sigma and every tau <= 0, [black_scholes_price]
    returns the intrinsic value, max(S-K,0) for a call and max(K-S,0) for a
    put, whatever sigma is. *)
Theorem black_scholes_price_expired (S K r q sigma tau : R) :
  tau <= 0 ->
  black_scholes_price S K r q sigma tau (kind_str Call) = Rmax (S - K) 0 /\
  black_scholes_price S K r q sigma tau (kind_str Put) = Rmax (K - S) 0.
Proof.
  intros Htau. unfold black_scholes_price.
  destruct (Rle_dec tau 0) as [_ | Hn]; [| contradiction].
  split; reflexivity.
Qed.

Lemma black_scholes_price_expired_witness :
  0 <= 0 /\
  black_scholes_price 105 100 0.05 0 0.2 0 (kind_str Call) = Rmax (105 - 100) 0 /\
  black_scholes_price 105 100 0.05 0 0.2 0 (kind_str Put) = Rmax (100 - 105) 0.
Proof.
  split; [lra | apply (black_scholes_price_expired 105 100 0.05 0 0.2 0); lra].
Defined.

(** ** The two solver modules *)

Lemma newton_loop_simple (market_price S K r q tau : R) (option_type : pyval)
    (tol : R) (n i : nat) (sigma : R) :
  snd (newton_loop market_price S K r q tau option_type tol n i sigma) =
  Ok (Simple.newton_loop black_scholes_price bsm_vega
        market_price S K r q tau option_type tol n sigma).
Proof.
  revert i sigma. induction n as [| n IH]; intros i sigma; simpl.
  - reflexivity.
  - destruct (Rlt_dec _ tol); [reflexivity |].
    destruct (Rlt_dec _ 1e-8); [reflexivity |].
    destruct (Rle_dec _ 0); simpl; apply IH.
Qed.

Lemma bisection_loop_simple (market_price S K r q tau : R) (option_type : pyval)
    (tol : R) (n i : nat) (low high : R) :
  snd (bisection_loop market_price S K r q tau option_type tol n i low high) =
  Ok (Simple.bisection_loop black_scholes_price
        market_price S K r q tau option_type tol n low high).
Proof.
  revert i low high. induction n as [| n IH]; intros i low high; simpl.
  - reflexivity.
  - destruct (Rlt_dec _ tol); [reflexivity |].
    destruct (Rgt_dec _ market_price); apply IH.
Qed.

Lemma simple_and_hybrid_agree_aux (market_price S K r q tau : R)
    (option_type : pyval) (initial_vol tol low high : R)
    (max_iter_newton max_iter_bisection : Z) :
  snd (implied_vol_newton market_price S K r q tau option_type tol
         initial_vol max_iter_newton) =
  Ok (Simple.implied_vol_newton black_scholes_price bsm_vega
        market_price S K r q tau option_type tol initial_vol max_iter_newton) /\
  snd (implied_vol_bisection market_price S K r q tau option_type tol
         low high max_iter_bisection) =
  Ok (Simple.implied_vol_bisection black_scholes_price
        market_price S K r q tau option_type tol low high max_iter_bisection).
Proof.
  split.
  - unfold implied_vol_newton, Simple.implied_vol_newton.
    rewrite bind_print; simpl. apply newton_loop_simple.
  - unfold implied_vol_bisection, Simple.implied_vol_bisection.
    rewrite bind_print; simpl. apply bisection_loop_simple.
Qed.

(** C10: for identical arguments, [implied_vol_newton] and
    [implied_vol_bisection] of the simpler module return exactly what the
    print-tracing ones of the hybrid module return (a value or None); the
    hybrid ones never raise and only add console output. *)
Theorem simple_and_hybrid_solvers_agree (market_price S K r q tau : R)
    (option_type : pyval) (initial_vol tol low high : R) (max_iter : Z) :
  snd (implied_vol_newton market_price S K r q tau option_type tol
         initial_vol max_iter) =
  Ok (Simple.implied_vol_newton black_scholes_price bsm_vega
        market_price S K r q tau option_type tol initial_vol max_iter) /\
  snd (implied_vol_bisection market_price S K r q tau option_type tol
         low high max_iter) =
  Ok (Simple.implied_vol_bisection black_scholes_price
        market_price S K r q tau option_type tol low high max_iter).
Proof.
  apply simple_and_hybrid_agree_aux.
Qed.

(** ** Integrals of continuous functions: the fundamental theorem *)

Section IntegralFacts.

Variable f : R -> R.
Hypothesis Hf : continuity f.

Lemma cint_eq (a b : R) (pr : Riemann_integrable f a b) : RiemannInt pr = cint f Hf a b.
  Proof. apply RiemannInt_P5. Qed.

Lemma cint_chasles (a b c : R) : cint f Hf a b + cint f Hf b c = cint f Hf a c.
  Proof. unfold cint. apply RiemannInt_P26. Qed.

Lemma cint_refl (a : R) : cint f Hf a a = 0.
  Proof. apply RiemannInt_P9. Qed.

Lemma cint_swap (a b : R) : cint f Hf a b = - cint f Hf b a.
  Proof. apply RiemannInt_P8. Qed.

Lemma primitive_cint (a b : R) (h : a <= b)
      (pr : forall x, a <= x -> x <= b -> Riemann_integrable f a x) (y : R) :
    a <= y <= b -> primitive h pr y = cint f Hf a y.
  Proof.
    intros [H1 H2]. unfold primitive.
    destruct (Rle_dec a y) as [r1 | n1]; [| contradiction].
    destruct (Rle_dec y b) as [r2 | n2]; [| contradiction].
    apply cint_eq.
  Qed.

Lemma cint_derivable (a x : R) : derivable_pt_lim (cint f Hf a) x (f x).
  Proof.
    set (a' := Rmin a x - 1). set (b' := Rmax a x + 1).
    assert (Hb : a' <= x - 1 /\ x + 1 <= b').
    { unfold a', b'. pose proof (Rmin_r a x). pose proof (Rmax_r a x). lra. }
    assert (h : a' <= b') by lra.
    assert (C0 : forall y, a' <= y <= b' -> continuity_pt f y) by (intros; apply Hf).
    assert (HP := RiemannInt_P28 h C0 (x := x)).
    assert (Hx : a' <= x <= b') by lra. specialize (HP Hx).
    intros eps Heps. destruct (HP eps Heps) as [d Hd].
    assert (Hm : 0 < Rmin d 1) by (apply Rmin_pos; [apply cond_pos | lra]).
    exists (mkposreal _ Hm). simpl. intros h0 Hne Hlt.
    assert (Hh1 : Rabs h0 < d) by (eapply Rlt_le_trans; [exact Hlt | apply Rmin_l]).
    assert (Hh2 : Rabs h0 < 1) by (eapply Rlt_le_trans; [exact Hlt | apply Rmin_r]).
    specialize (Hd h0 Hne Hh1).
    apply Rabs_def2 in Hh2.
    rewrite !primitive_cint in Hd by lra.
    replace (cint f Hf a (x + h0) - cint f Hf a x) with (cint f Hf a' (x + h0) - cint f Hf a' x); [exact Hd |].
    rewrite <- (cint_chasles a' a (x + h0)), <- (cint_chasles a' a x). ring.
  Qed.

Lemma cint_nonneg (a b : R) : a <= b -> (forall x, 0 <= f x) -> 0 <= cint f Hf a b.
  Proof.
    intros Hab Hpos.
    assert (H := RiemannInt_P19 (RiemannInt_P14 a b 0) (cont_integrable f Hf a b) Hab).
    rewrite RiemannInt_P15 in H.
    assert (H' : 0 * (b - a) <= RiemannInt (cont_integrable f Hf a b)).
    { apply H. intros; unfold fct_cte; apply Hpos. }
    unfold cint. lra.
  Qed.

Lemma cint_le_const (a b M : R) :
    a <= b -> (forall x, f x <= M) -> cint f Hf a b <= M * (b - a).
  Proof.
    intros Hab HM.
    assert (H := RiemannInt_P19 (cont_integrable f Hf a b) (RiemannInt_P14 a b M) Hab).
    rewrite RiemannInt_P15 in H. apply H. intros; unfold fct_cte; apply HM.
  Qed.

End IntegralFacts.

(** Two functions with the same derivative everywhere differ by a constant. *)
Lemma derivative_zero_constant (g : R -> R) :
  (forall x, derivable_pt_lim g x 0) -> forall a b, g a = g b.
Proof.
  intros Hg.
  assert (Hlt : forall a b, a < b -> g a = g b).
  { intros a b Hab.
    destruct (MVT_cor2 g (fun _ => 0) a b Hab (fun c _ => Hg c)) as [c [Hc _]].
    lra. }
  intros a b. destruct (Rtotal_order a b) as [H | [H | H]].
  - apply Hlt, H.
  - now subst.
  - symmetry. apply Hlt, H.
Qed.

(** A function with a positive derivative is increasing. *)
Lemma derivative_pos_increasing (g g' : R -> R) (a b : R) :
  a < b ->
  (forall c, a <= c <= b -> derivable_pt_lim g c (g' c)) ->
  (forall c, a <= c <= b -> 0 < g' c) ->
  g a < g b.
Proof.
  intros Hab Hd Hpos.
  destruct (MVT_cor2 g g' a b Hab Hd) as [c [Hc Hin]].
  assert (0 < g' c * (b - a)) by (apply Rmult_lt_0_compat; [apply Hpos |]; lra).
  lra.
Qed.

(** ** The standard normal law *)

Lemma sqrt_2PI_pos : 0 < sqrt (2 * PI).
Proof. apply sqrt_lt_R0. pose proof PI_RGT_0. lra. Qed.

Lemma norm_pdf_pos (x : R) : 0 < norm_pdf x.
Proof.
  unfold norm_pdf. apply Rdiv_lt_0_compat; [apply exp_pos | apply sqrt_2PI_pos].
Qed.

Lemma norm_pdf_even (x : R) : norm_pdf (- x) = norm_pdf x.
Proof. unfold norm_pdf. replace (- x * - x) with (x * x) by ring. reflexivity. Qed.

Lemma norm_cdf_derivable (x : R) : derivable_pt_lim norm_cdf x (norm_pdf x).
Proof.
  unfold norm_cdf.
  replace (norm_pdf x) with (0 + norm_pdf x) by ring.
  apply (derivable_pt_lim_plus (fun _ => 1 / 2) (cint norm_pdf norm_pdf_continuity 0)).
  - apply derivable_pt_lim_const.
  - apply cint_derivable.
Qed.

Lemma norm_cdf_0 : norm_cdf 0 = 1 / 2.
Proof. unfold norm_cdf. rewrite cint_refl. lra. Qed.

(** Symmetry of the normal law: [cdf(-x) = 1 - cdf(x)]. *)
Lemma norm_cdf_opp (x : R) : norm_cdf (- x) = 1 - norm_cdf x.
Proof.
  pose (g := fun y => norm_cdf y + norm_cdf (- y)).
  assert (Hg : forall y, derivable_pt_lim g y 0).
  { intro y. unfold g.
    replace 0 with (norm_pdf y + norm_pdf (- y) * (-1))
      by (rewrite norm_pdf_even; ring).
    apply (derivable_pt_lim_plus norm_cdf (fun y => norm_cdf (- y))).
    - apply norm_cdf_derivable.
    - apply (derivable_pt_lim_comp (fun y => - y) norm_cdf).
      + apply (derivable_pt_lim_opp id), derivable_pt_lim_id.
      + apply norm_cdf_derivable. }
  assert (H := derivative_zero_constant g Hg x 0). unfold g in H.
  rewrite Ropp_0, norm_cdf_0 in H. lra.
Qed.

Lemma norm_cdf_increasing (x y : R) : x < y -> norm_cdf x < norm_cdf y.
Proof.
  intros Hxy. apply (derivative_pos_increasing norm_cdf norm_pdf x y Hxy).
  - intros; apply norm_cdf_derivable.
  - intros; apply norm_pdf_pos.
Qed.

Lemma cdf_xneg (d : xfloat) : cdf (xneg d) = 1 - cdf d.
Proof. destruct d; simpl; [apply norm_cdf_opp | lra | lra]. Qed.

(** ** The kernel in its general branch *)

Lemma derivable_pt_lim_ext (f g : R -> R) (x l l' : R) :
  (forall y, f y = g y) -> l = l' ->
  derivable_pt_lim f x l -> derivable_pt_lim g x l'.
Proof.
  intros Hfg <- Hf eps Heps. destruct (Hf eps Heps) as [d Hd].
  exists d. intros h Hh1 Hh2. rewrite <- !Hfg. now apply Hd.
Qed.

(** [d1] as [_d1_d2] computes it when none of its guards fires. *)
Definition d1_of (S K r q tau sigma : R) : R :=
  (ln (S / K) + (r - q + 0.5 * sigma ^ 2) * tau) / (sigma * sqrt tau).

Definition d2_of (S K r q tau sigma : R) : R :=
  d1_of S K r q tau sigma - sigma * sqrt tau.

(** The Black-Scholes call formula. *)
Definition call_of (S K r q tau sigma : R) : R :=
  S * exp (- q * tau) * norm_cdf (d1_of S K r q tau sigma)
  - K * exp (- r * tau) * norm_cdf (d2_of S K r q tau sigma).

Section General.

Variables (S K r q tau : R).
Hypotheses (HS : 0 < S) (HK : 0 < K) (Htau : 0 < tau).

Lemma d1_d2_general (sigma : R) :
  0 < sigma ->
  _d1_d2 S K r q sigma tau =
  (Fin (d1_of S K r q tau sigma), Fin (d2_of S K r q tau sigma)).
Proof.
  intros Hs. unfold _d1_d2.
  destruct (Rle_dec tau 0); [lra |].
  destruct (Rle_dec sigma 0); [lra |].
  destruct (Rle_dec S 0); [lra |].
  destruct (Rle_dec K 0); [lra |].
  reflexivity.
Qed.

Lemma price_call_general (sigma : R) :
  0 < sigma ->
  black_scholes_price S K r q sigma tau (kind_str Call) = call_of S K r q tau sigma.
Proof.
  intros Hs. unfold black_scholes_price.
  destruct (Rle_dec tau 0); [lra |].
  destruct (Rle_dec sigma 0); [lra |].
  rewrite d1_d2_general by assumption. reflexivity.
Qed.

Lemma price_put_general (sigma : R) :
  0 < sigma ->
  black_scholes_price S K r q sigma tau (kind_str Put) =
  call_of S K r q tau sigma - S * exp (- q * tau) + K * exp (- r * tau).
Proof.
  intros Hs. unfold black_scholes_price.
  destruct (Rle_dec tau 0); [lra |].
  destruct (Rle_dec sigma 0); [lra |].
  rewrite d1_d2_general by assumption. simpl.
  rewrite !norm_cdf_opp. unfold call_of. ring.
Qed.

Lemma vega_general (sigma : R) :
  0 < sigma ->
  bsm_vega S K r q sigma tau =
  S * exp (- q * tau) * sqrt tau * norm_pdf (d1_of S K r q tau sigma).
Proof.
  intros Hs. unfold bsm_vega.
  destruct (Rle_dec tau 0); [lra |].
  destruct (Rle_dec sigma 0); [lra |].
  rewrite d1_d2_general by assumption. reflexivity.
Qed.

Lemma sqrt_tau_pos : 0 < sqrt tau.
Proof. apply sqrt_lt_R0, Htau. Qed.

(** The identity behind vega: [S e^(-q tau) pdf(d1) = K e^(-r tau) pdf(d2)]. *)
Lemma pdf_d1_d2 (sigma : R) :
  0 < sigma ->
  S * exp (- q * tau) * norm_pdf (d1_of S K r q tau sigma) =
  K * exp (- r * tau) * norm_pdf (d2_of S K r q tau sigma).
Proof.
  intros Hs. pose proof sqrt_tau_pos as Hst.
  assert (Hsq : sqrt tau * sqrt tau = tau) by (apply sqrt_sqrt; lra).
  set (d1 := d1_of S K r q tau sigma).
  assert (Hd1 : d1 * (sigma * sqrt tau) = ln (S / K) + (r - q + 0.5 * sigma ^ 2) * tau).
  { unfold d1, d1_of. field. split; lra. }
  unfold d2_of. fold d1. unfold norm_pdf.
  assert (Hexp : - ((d1 - sigma * sqrt tau) * (d1 - sigma * sqrt tau)) / 2 =
                 - (d1 * d1) / 2 + (ln (S / K) + (r - q) * tau)).
  { replace (- ((d1 - sigma * sqrt tau) * (d1 - sigma * sqrt tau)) / 2)
      with (- (d1 * d1) / 2 + d1 * (sigma * sqrt tau)
            - sigma * sigma * (sqrt tau * sqrt tau) / 2) by field.
    rewrite Hd1, Hsq. replace 0.5 with (/ 2) by lra. field. }
  rewrite Hexp, !exp_plus, exp_ln by (apply Rdiv_lt_0_compat; lra).
  replace ((r - q) * tau) with (r * tau + - q * tau) by ring.
  rewrite exp_plus.
  replace (- r * tau) with (- (r * tau)) by ring.
  rewrite (exp_Ropp (r * tau)).
  pose proof (exp_pos (r * tau)). pose proof sqrt_2PI_pos.
  field. repeat split; lra.
Qed.

Lemma d1_of_derivable (sigma : R) :
  0 < sigma -> derivable_pt (d1_of S K r q tau) sigma.
Proof.
  intros Hs. pose proof sqrt_tau_pos as Hst.
  unfold d1_of.
  apply (derivable_pt_div
           (fun s => ln (S / K) + (r - q + 0.5 * s ^ 2) * tau)
           (fun s => s * sqrt tau)).
  - apply derivable_pt_plus; [apply derivable_pt_const |].
    apply derivable_pt_mult; [| apply derivable_pt_const].
    apply derivable_pt_plus; [apply derivable_pt_const |].
    apply derivable_pt_mult; [apply derivable_pt_const |].
    apply derivable_pt_pow.
  - apply derivable_pt_mult; [apply derivable_pt_id | apply derivable_pt_const].
  - apply Rgt_not_eq. apply Rmult_lt_0_compat; lra.
Qed.

(** Vega is the derivative of the call price in sigma. *)
Lemma call_of_derivable (sigma : R) :
  0 < sigma ->
  derivable_pt_lim (call_of S K r q tau) sigma
    (S * exp (- q * tau) * sqrt tau * norm_pdf (d1_of S K r q tau sigma)).
Proof.
  intros Hs.
  destruct (d1_of_derivable sigma Hs) as [l Hl].
  assert (Hd2 : derivable_pt_lim (d2_of S K r q tau) sigma (l - 1 * sqrt tau)).
  { unfold d2_of.
    apply (derivable_pt_lim_minus (d1_of S K r q tau) (fun s => s * sqrt tau)).
    - exact Hl.
    - replace (1 * sqrt tau) with (1 * sqrt tau + id sigma * 0) by ring.
      apply (derivable_pt_lim_mult id (fun _ => sqrt tau)).
      + apply derivable_pt_lim_id.
      + apply derivable_pt_lim_const. }
  assert (H1 : derivable_pt_lim (fun s => norm_cdf (d1_of S K r q tau s)) sigma
                 (norm_pdf (d1_of S K r q tau sigma) * l)).
  { apply (derivable_pt_lim_comp (d1_of S K r q tau) norm_cdf);
      [exact Hl | apply norm_cdf_derivable]. }
  assert (H2 : derivable_pt_lim (fun s => norm_cdf (d2_of S K r q tau s)) sigma
                 (norm_pdf (d2_of S K r q tau sigma) * (l - 1 * sqrt tau))).
  { apply (derivable_pt_lim_comp (d2_of S K r q tau) norm_cdf);
      [exact Hd2 | apply norm_cdf_derivable]. }
  apply (derivable_pt_lim_scal _ (S * exp (- q * tau))) in H1.
  apply (derivable_pt_lim_scal _ (K * exp (- r * tau))) in H2.
  pose proof (derivable_pt_lim_minus _ _ _ _ _ H1 H2) as H.
  eapply derivable_pt_lim_ext; [| | exact H].
  - intro y. reflexivity.
  - pose proof (pdf_d1_d2 sigma Hs) as Hid.
    transitivity
      (S * exp (- q * tau) * norm_pdf (d1_of S K r q tau sigma) * l
       - K * exp (- r * tau) * norm_pdf (d2_of S K r q tau sigma) * (l - sqrt tau));
      [ring |].
    rewrite <- Hid. ring.
Qed.

Lemma call_of_increasing (sigma1 sigma2 : R) :
  0 < sigma1 -> sigma1 < sigma2 ->
  call_of S K r q tau sigma1 < call_of S K r q tau sigma2.
Proof.
  intros H1 H12.
  apply (derivative_pos_increasing (call_of S K r q tau)
           (fun s => S * exp (- q * tau) * sqrt tau * norm_pdf (d1_of S K r q tau s))).
  - exact H12.
  - intros c Hc. apply call_of_derivable. lra.
  - intros c Hc. pose proof sqrt_tau_pos. pose proof (exp_pos (- q * tau)).
    pose proof (norm_pdf_pos (d1_of S K r q tau c)).
    apply Rmult_lt_0_compat; [| assumption].
    apply Rmult_lt_0_compat; [| assumption].
    apply Rmult_lt_0_compat; assumption.
Qed.

End General.

(** ** Put-call parity *)

(** C4: for identical S>0, K>0, r, q, sigma>=0 and tau>0, the call price minus
    the put price returned by [black_scholes_price] is
    S e^(-q tau) - K e^(-r tau), in the degenerate sigma=0 branch as well. *)
Theorem put_call_parity (S K r q sigma tau : R) :
  0 < S -> 0 < K -> 0 <= sigma -> 0 < tau ->
  black_scholes_price S K r q sigma tau (kind_str Call)
  - black_scholes_price S K r q sigma tau (kind_str Put)
  = S * exp (- q * tau) - K * exp (- r * tau).
Proof.
  intros HS HK Hs Htau.
  destruct (Rle_lt_or_eq_dec 0 sigma Hs) as [Hpos | Hzero].
  - rewrite price_call_general, price_put_general by assumption. ring.
  - subst sigma. unfold black_scholes_price.
    destruct (Rle_dec tau 0); [lra |].
    destruct (Rle_dec 0 0); [| lra]. simpl.
    unfold Rmax.
    destruct (Rle_dec (S * exp (- q * tau) - K * exp (- r * tau)) 0);
      destruct (Rle_dec (K * exp (- r * tau) - S * exp (- q * tau)) 0); lra.
Qed.

Lemma put_call_parity_witness :
  0 < 100 /\ 0 <= 0.2 /\ 0 < 1 /\
  black_scholes_price 100 100 0.05 0 0.2 1 (kind_str Call)
  - black_scholes_price 100 100 0.05 0 0.2 1 (kind_str Put)
  = 100 * exp (- 0 * 1) - 100 * exp (- (0.05) * 1).
Proof.
  split; [lra |]. split; [lra |]. split; [lra |].
  apply (put_call_parity 100 100 0.05 0 0.2 1); lra.
Defined.

(** ** The root-finder *)

Section SolverFacts.

Variable bs : R -> R -> R -> R -> R -> R -> pyval -> R.
Variable vega : R -> R -> R -> R -> R -> R -> R.
Variables (market_price S K r q tau : R) (option_type : pyval) (tol : R).

(** A value returned by the Newton phase is a converged iterate. *)
Lemma simple_newton_converged (n : nat) (sigma v : R) :
  Simple.newton_loop bs vega market_price S K r q tau option_type tol n sigma = Some v ->
  Rabs (bs S K r q v tau option_type - market_price) < tol.
Proof.
  revert sigma. induction n as [| n IH]; intros sigma; simpl; [discriminate |].
  destruct (Rlt_dec _ tol) as [Hc | Hc].
  - intros [= <-]. exact Hc.
  - destruct (Rlt_dec _ 1e-8); [discriminate |].
    destruct (Rle_dec _ 0); apply IH.
Qed.

(** The Newton iterates stay positive: a non-positive update is reset. *)
Lemma simple_newton_positive (n : nat) (sigma v : R) :
  0 < sigma ->
  Simple.newton_loop bs vega market_price S K r q tau option_type tol n sigma = Some v ->
  0 < v.
Proof.
  revert sigma. induction n as [| n IH]; intros sigma Hs; simpl; [discriminate |].
  destruct (Rlt_dec _ tol).
  - intros [= <-]. exact Hs.
  - destruct (Rlt_dec _ 1e-8); [discriminate |].
    destruct (Rle_dec _ 0); apply IH; lra.
Qed.

(** When no positive volatility re-prices within [tol], the Newton phase
    returns [None]: its iterates are positive. *)
Lemma simple_newton_loop_never (n : nat) (sigma : R) :
  (forall s, 0 < s -> tol <= Rabs (bs S K r q s tau option_type - market_price)) ->
  0 < sigma ->
  Simple.newton_loop bs vega market_price S K r q tau option_type tol n sigma = None.
Proof.
  intros Hfar. revert sigma.
  induction n as [| n IH]; intros sigma Hs; simpl; [reflexivity |].
  destruct (Rlt_dec _ tol) as [Hc | _]; [pose proof (Hfar sigma Hs); lra |].
  destruct (Rlt_dec _ 1e-8); [reflexivity |].
  destruct (Rle_dec _ 0); apply IH; lra.
Qed.

(** The midpoint returned by the bisection lies in the bracket. *)
Lemma simple_bisection_bracket (n : nat) (low high : R) :
  low <= high ->
  low <= Simple.bisection_loop bs market_price S K r q tau option_type tol n low high
       <= high.
Proof.
  revert low high. induction n as [| n IH]; intros low high Hlh; simpl; [lra |].
  destruct (Rlt_dec _ tol); [lra |].
  destruct (Rgt_dec _ market_price).
  - assert (H := IH low ((low + high) / 2)). lra.
  - assert (H := IH ((low + high) / 2) high). lra.
Qed.

End SolverFacts.

Definition no_bisection (log : list event) : Prop :=
  forallb (fun e => negb (is_bisection_event e)) log = true.

Lemma newton_loop_log (market_price S K r q tau : R) (option_type : pyval)
    (tol : R) (n i : nat) (sigma : R) :
  no_bisection (fst (newton_loop market_price S K r q tau option_type tol n i sigma)).
Proof.
  unfold no_bisection.
  revert i sigma. induction n as [| n IH]; intros i sigma; simpl; [reflexivity |].
  destruct (Rlt_dec _ tol); [reflexivity |].
  destruct (Rlt_dec _ 1e-8); [reflexivity |].
  destruct (Rle_dec _ 0); simpl; apply IH.
Qed.

Lemma implied_vol_newton_log (market_price S K r q tau : R) (option_type : pyval)
    (tol initial_vol : R) (max_iter : Z) :
  no_bisection
    (fst (implied_vol_newton market_price S K r q tau option_type tol
            initial_vol max_iter)).
Proof.
  unfold implied_vol_newton. rewrite bind_print. apply newton_loop_log.
Qed.

(** The line that the Newton phase prints before it returns a volatility
    names that volatility. *)
Lemma newton_loop_success_log (market_price S K r q tau : R) (option_type : pyval)
    (tol : R) (n i : nat) (sigma v : R) :
  snd (newton_loop market_price S K r q tau option_type tol n i sigma) = Ok (Some v) ->
  In (NewtonSuccess v)
     (fst (newton_loop market_price S K r q tau option_type tol n i sigma)).
Proof.
  revert i sigma. induction n as [| n IH]; intros i sigma; simpl; [discriminate |].
  destruct (Rlt_dec _ tol).
  - intros [= <-]. right. left. reflexivity.
  - destruct (Rlt_dec _ 1e-8); [discriminate |].
    destruct (Rle_dec _ 0); simpl; intros H; right; [right |]; apply IH; exact H.
Qed.

(** How the bisection phase ends: with a midpoint that re-prices within [tol],
    named on its success line, or with the midpoint that is left when the
    iterations are used up, named on its last line. *)
Lemma bisection_loop_outcome (market_price S K r q tau : R) (option_type : pyval)
    (tol : R) (n i : nat) (low high : R) :
  exists v,
    snd (bisection_loop market_price S K r q tau option_type tol n i low high) = Ok v /\
    (Rabs (black_scholes_price S K r q v tau option_type - market_price) < tol /\
     In (BisectionSuccess v)
        (fst (bisection_loop market_price S K r q tau option_type tol n i low high))
     \/
     In (BisectionEnd v)
        (fst (bisection_loop market_price S K r q tau option_type tol n i low high))).
Proof.
  revert i low high. induction n as [| n IH]; intros i low high; simpl.
  - eexists. split; [reflexivity |]. right. left. reflexivity.
  - destruct (Rlt_dec _ tol) as [Hc | Hc].
    + eexists. split; [reflexivity |]. left. split; [exact Hc |].
      right. left. reflexivity.
    + destruct (Rgt_dec _ market_price);
        [destruct (IH (Datatypes.S i) low ((low + high) / 2)) as (v & Hv & H)
        |destruct (IH (Datatypes.S i) ((low + high) / 2) high) as (v & Hv & H)];
        exists v; (split; [exact Hv |]);
        (destruct H as [[H1 H2] | H];
         [left; split; [exact H1 | right; exact H2] | right; right; exact H]).
Qed.

Lemma implied_vol_bisection_outcome (market_price S K r q tau : R)
    (option_type : pyval) (tol low high : R) (max_iter : Z) :
  exists v,
    snd (implied_vol_bisection market_price S K r q tau option_type tol
           low high max_iter) = Ok v /\
    (Rabs (black_scholes_price S K r q v tau option_type - market_price) < tol /\
     In (BisectionSuccess v)
        (fst (implied_vol_bisection market_price S K r q tau option_type tol
                low high max_iter))
     \/
     In (BisectionEnd v)
        (fst (implied_vol_bisection market_price S K r q tau option_type tol
                low high max_iter))).
Proof.
  unfold implied_vol_bisection. rewrite bind_print.
  destruct (bisection_loop_outcome market_price S K r q tau option_type tol
              (Z.to_nat max_iter) O low high) as (v & Hv & H).
  exists v. split; [exact Hv |].
  destruct H as [[H1 H2] | H];
    [left; split; [exact H1 | right; exact H2] | right; right; exact H].
Qed.

(** What [implied_volatility] returns, phase by phase. *)
Lemma implied_volatility_result (price S K r q tau : R) (option_type : pyval)
    (initial_vol tol : R) (max_iter_newton : Z) (low high : R)
    (max_iter_bisection : Z) :
  0 < tau ->
  snd (implied_volatility (Some price) (Some S) (Some K) r q (Some tau)
         option_type initial_vol tol max_iter_newton low high max_iter_bisection) =
  match Simple.implied_vol_newton black_scholes_price bsm_vega
          price S K r q tau option_type tol initial_vol max_iter_newton with
  | Some iv => Ok (Some iv)
  | None =>
    match _price_bounds S K r q tau option_type with
    | Ok (lb, ub) =>
      if Rlt_dec price (lb - 1e-12) then Ok None
      else if Rgt_dec price (ub + 1e-12) then Ok None
      else Ok (Some (Simple.implied_vol_bisection black_scholes_price
                       price S K r q tau option_type tol low high
                       max_iter_bisection))
    | Raise e => Raise e
    end
  end.
Proof.
  intros Htau. unfold implied_volatility.
  destruct (Rle_dec tau 0); [lra |].
  destruct (simple_and_hybrid_agree_aux price S K r q tau option_type
              initial_vol tol low high max_iter_newton max_iter_bisection)
    as [HN HB].
  rewrite (snd_bind_ok _ _ _ HN).
  destruct (Simple.implied_vol_newton _ _ _ _ _ _ _ _ _ _ _ _); [reflexivity |].
  destruct (_price_bounds S K r q tau option_type) as [[lb ub] | e]; [| reflexivity].
  rewrite bind_lift_ok.
  destruct (Rlt_dec price (lb - 1e-12)); [reflexivity |].
  destruct (Rgt_dec price (ub + 1e-12)); [reflexivity |].
  rewrite (snd_bind_ok _ _ _ HB). reflexivity.
Qed.

Lemma snd_bind_inv {A B} (m : io A) (f : A -> io B) (b : B) :
  snd (bind m f) = Ok b -> exists a, snd m = Ok a /\ snd (f a) = Ok b.
Proof.
  unfold bind. destruct (snd m) as [a | e]; simpl; [| discriminate].
  intros H. exists a. split; [reflexivity | exact H].
Qed.

Lemma snd_lift_inv {A} (x : result A) (a : A) : snd (lift x) = Ok a -> x = Ok a.
Proof. intros H. exact H. Qed.

Lemma snd_try_except_inv {A} (m : io A) (h a : A) :
  snd (try_except m h) = Ok a -> snd m = Ok a \/ a = h.
Proof.
  unfold try_except. destruct (snd m) as [x | e] eqn:E.
  - rewrite E. intros [= <-]. now left.
  - simpl. intros [= <-]. now right.
Qed.

(** Every value that [implied_volatility], with its default settings,
    returns is a positive volatility. *)
Lemma implied_volatility_default_positive (price S K : option R) (r q : R)
    (tau : option R) (option_type : pyval) (v : R) :
  snd (implied_volatility_default price S K r q tau option_type) = Ok (Some v) ->
  0 < v.
Proof.
  unfold implied_volatility_default.
  destruct price as [p |], S as [s |], K as [k |], tau as [t |];
    try (simpl; discriminate).
  destruct (Rle_dec t 0) as [Hle | Hgt].
  - unfold implied_volatility. destruct (Rle_dec t 0); [simpl; discriminate | lra].
  - rewrite implied_volatility_result by lra.
    destruct (Simple.implied_vol_newton _ _ _ _ _ _ _ _ _ _ _ _) as [iv |] eqn:EN.
    + intros [= <-]. unfold Simple.implied_vol_newton in EN.
      eapply simple_newton_positive; [| exact EN]. lra.
    + destruct (_price_bounds s k r q t option_type) as [[lb ub] | e]; [| discriminate].
      destruct (Rlt_dec p (lb - 1e-12)); [discriminate |].
      destruct (Rgt_dec p (ub + 1e-12)); [discriminate |].
      intros [= <-]. unfold Simple.implied_vol_bisection.
      pose proof (simple_bisection_bracket black_scholes_price p s k r q t
                    option_type 1e-6 (Z.to_nat 200) 1e-6 5) as H.
      lra.
Qed.

Lemma implied_volatility_call_positive (price S : R) (K : pyval) (r q tau : R)
    (option_type : pyval) (v : R) :
  snd (implied_volatility_call price S K r q tau option_type) = Ok (Some v) ->
  0 < v.
Proof.
  unfold implied_volatility_call. destruct K as [| k | s].
  - apply implied_volatility_default_positive.
  - apply implied_volatility_default_positive.
  - destruct (Rle_dec tau 0); simpl; discriminate.
Qed.

(** ** The chain processor *)

Section ChainFacts.

Variable solver : R -> R -> pyval -> R -> R -> R -> pyval -> io (option R).
Variable self : OptionChainProcessor.
Variables (spot tau : R).

Lemma process_chain_with_rows (rows : list dict) (ps : list OptionPoint) :
  snd (process_chain_with solver self spot tau rows) = Ok ps ->
  Forall2 (fun row p => snd (process_row solver self spot tau row) = Ok p) rows ps.
Proof.
  revert ps. induction rows as [| row rest IH]; intros ps; simpl.
  - intros [= <-]. constructor.
  - intros H. apply snd_bind_inv in H as [p [Hp H]].
    apply snd_bind_inv in H as [ps' [Hps H]].
    injection H as <-. constructor; [exact Hp | apply IH, Hps].
Qed.

(** The shape of an emitted point. *)
Lemma process_row_inv (row : dict) (p : OptionPoint) :
  snd (process_row solver self spot tau row) = Ok p ->
  exists b a m iv g,
    getitem row "bid" = Ok b /\ getitem row "ask" = Ok a /\
    snd (row_mid b a) = Ok m /\
    snd (row_iv solver self spot tau row m) = Ok iv /\
    snd (row_greeks self spot tau row iv) = Ok g /\
    bid p = b /\ ask p = a /\ mid p = m /\ implied_vol p = iv /\
    (delta p, gamma p, theta p, rho p) = g.
Proof.
  unfold process_row. intros H.
  apply snd_bind_inv in H as [b [Hb H]]. apply snd_lift_inv in Hb.
  apply snd_bind_inv in H as [a [Ha H]]. apply snd_lift_inv in Ha.
  apply snd_bind_inv in H as [m [Hm H]].
  apply snd_bind_inv in H as [iv [Hiv H]].
  apply snd_bind_inv in H as [[[[d ga] th] rh] [Hg H]].
  apply snd_bind_inv in H as [sy [_ H]].
  apply snd_bind_inv in H as [ex [_ H]].
  apply snd_bind_inv in H as [st [_ H]].
  apply snd_bind_inv in H as [ty [_ H]].
  injection H as <-.
  exists b, a, m, iv, (d, ga, th, rh). simpl. repeat split; assumption.
Qed.

Lemma truthy_float (x : R) : truthy (PyFloat x) = true <-> x <> 0.
Proof.
  simpl. destruct (Req_dec_T x 0); split; intros; try congruence; discriminate.
Qed.

(** [mid] for a bid and an ask that are both non-zero floats. *)
Lemma row_mid_floats (x y : R) :
  x <> 0 -> y <> 0 -> row_mid (PyFloat x) (PyFloat y) = ret (Some ((x + y) / 2)).
Proof.
  intros Hx Hy. unfold row_mid, py_and.
  apply truthy_float in Hx. apply truthy_float in Hy. rewrite Hx, Hy.
  reflexivity.
Qed.

(** [mid] when the bid or the ask is [None], [0.0] or an empty string. *)
Lemma row_mid_falsy (b a : pyval) :
  truthy b = false \/ truthy a = false -> row_mid b a = ret None.
Proof.
  intros H. unfold row_mid, py_and.
  destruct (truthy b) eqn:Eb.
  - destruct H as [H | H]; [discriminate | rewrite H; reflexivity].
  - rewrite Eb. reflexivity.
Qed.

(** Without a positive [mid] the root-finder is not reached. *)
Lemma row_iv_skipped (row : dict) (m : option R) :
  (m = None \/ exists x, m = Some x /\ x <= 0) ->
  row_iv solver self spot tau row m = ret None.
Proof.
  intros [-> | [x [-> Hx]]]; unfold row_iv; [reflexivity |].
  destruct (Req_dec_T x 0); [reflexivity |].
  destruct (Rgt_dec x 0); [lra | reflexivity].
Qed.

Lemma row_greeks_some (row : dict) (v : R) (g : option R * option R * option R * option R) :
  v <> 0 ->
  snd (row_greeks self spot tau row (Some v)) = Ok g ->
  exists d ga th rh, g = (Some d, Some ga, Some th, Some rh).
Proof.
  intros Hv. unfold row_greeks.
  destruct (Req_dec_T v 0); [contradiction |]. intros H.
  apply snd_bind_inv in H as [K [_ H]].
  apply snd_bind_inv in H as [ty [_ H]].
  apply snd_bind_inv in H as [k [_ H]].
  injection H as <-. eauto.
Qed.

End ChainFacts.

Lemma bind_ext_ok {A B} (m : io A) (f g : A -> io B) :
  (forall a, snd m = Ok a -> f a = g a) -> bind m f = bind m g.
Proof.
  intros H. unfold bind. destruct (snd m) as [a | e]; [| reflexivity].
  rewrite (H a eq_refl). reflexivity.
Qed.

Section ChainBuild.

Variable solver : R -> R -> pyval -> R -> R -> R -> pyval -> io (option R).
Variable self : OptionChainProcessor.
Variables (spot tau : R).

Lemma process_row_intro (row : dict) (b a sy ex st ty : pyval)
    (m iv d ga th rh : option R) :
  getitem row "bid" = Ok b -> getitem row "ask" = Ok a ->
  snd (row_mid b a) = Ok m ->
  snd (row_iv solver self spot tau row m) = Ok iv ->
  snd (row_greeks self spot tau row iv) = Ok (d, ga, th, rh) ->
  getitem row "symbol" = Ok sy -> getitem row "expiry" = Ok ex ->
  getitem row "strike" = Ok st -> getitem row "type" = Ok ty ->
  snd (process_row solver self spot tau row) =
  Ok (mkOptionPoint sy ex st ty b a m iv d ga th rh).
Proof.
  intros Hb Ha Hm Hiv Hg Hsy Hex Hst Hty. unfold process_row.
  rewrite Hb, bind_lift_ok, Ha, bind_lift_ok.
  rewrite (snd_bind_ok _ _ _ Hm), (snd_bind_ok _ _ _ Hiv), (snd_bind_ok _ _ _ Hg).
  rewrite Hsy, bind_lift_ok, Hex, bind_lift_ok, Hst, bind_lift_ok, Hty, bind_lift_ok.
  reflexivity.
Qed.

Lemma process_chain_with_cons (row : dict) (rest : list dict)
    (p : OptionPoint) (ps : list OptionPoint) :
  snd (process_row solver self spot tau row) = Ok p ->
  snd (process_chain_with solver self spot tau rest) = Ok ps ->
  snd (process_chain_with solver self spot tau (row :: rest)) = Ok (p :: ps).
Proof.
  intros Hp Hps. simpl.
  rewrite (snd_bind_ok _ _ _ Hp), (snd_bind_ok _ _ _ Hps). reflexivity.
Qed.

Lemma process_chain_with_raise_here (row : dict) (rest : list dict) (e : pyexn) :
  snd (process_row solver self spot tau row) = Raise e ->
  snd (process_chain_with solver self spot tau (row :: rest)) = Raise e.
Proof. intros H. simpl. now apply snd_bind_raise. Qed.

Lemma process_chain_with_raise_later (row : dict) (rest : list dict)
    (p : OptionPoint) (e : pyexn) :
  snd (process_row solver self spot tau row) = Ok p ->
  snd (process_chain_with solver self spot tau rest) = Raise e ->
  snd (process_chain_with solver self spot tau (row :: rest)) = Raise e.
Proof.
  intros Hp He. simpl. rewrite (snd_bind_ok _ _ _ Hp). now apply snd_bind_raise.
Qed.

(** With no positive [mid], the row is processed without the root-finder:
    the result is the same whatever root-finder is plugged in. *)
Lemma process_row_solver_free
    (solver' : R -> R -> pyval -> R -> R -> R -> pyval -> io (option R))
    (row : dict) (p : OptionPoint) :
  snd (process_row solver self spot tau row) = Ok p ->
  (mid p = None \/ exists x, mid p = Some x /\ x <= 0) ->
  process_row solver' self spot tau row = process_row solver self spot tau row.
Proof.
  intros Hp Hmid.
  destruct (process_row_inv _ _ _ _ _ _ Hp)
    as (b & a & m & iv & g & Hb & Ha & Hm & _ & _ & _ & _ & Hpm & _).
  unfold process_row. rewrite Hb, !bind_lift_ok, Ha, !bind_lift_ok.
  apply bind_ext_ok. intros m' Hm'.
  assert (m' = m) by congruence. subst m'.
  rewrite <- Hpm, !row_iv_skipped by exact Hmid. reflexivity.
Qed.

End ChainBuild.

Definition present (o : option R) : Prop := o <> None.

(** The implied volatility and the four Greeks of a point are jointly
    present or jointly absent. *)
Definition greeks_with_iv (p : OptionPoint) : Prop :=
  (present (implied_vol p) <-> present (delta p)) /\
  (present (implied_vol p) <-> present (gamma p)) /\
  (present (implied_vol p) <-> present (theta p)) /\
  (present (implied_vol p) <-> present (rho p)).

Lemma process_row_greeks_with_iv (self : OptionChainProcessor) (spot tau : R)
    (row : dict) (p : OptionPoint) :
  snd (process_row implied_volatility_call self spot tau row) = Ok p ->
  greeks_with_iv p.
Proof.
  intros Hp.
  destruct (process_row_inv _ _ _ _ _ _ Hp)
    as (b & a & m & iv & g & _ & _ & _ & Hiv & Hg & _ & _ & _ & Hpiv & Hpg).
  subst g. unfold greeks_with_iv, present. rewrite Hpiv.
  destruct iv as [v |].
  - assert (Hv : 0 < v).
    { unfold row_iv in Hiv. destruct m as [x |]; [| discriminate].
      destruct (Req_dec_T x 0); [discriminate |].
      destruct (Rgt_dec x 0); [| discriminate].
      apply snd_try_except_inv in Hiv as [Hiv | Hiv]; [| discriminate].
      apply snd_bind_inv in Hiv as [K [_ Hiv]].
      apply snd_bind_inv in Hiv as [ty [_ Hiv]].
      eapply implied_volatility_call_positive, Hiv. }
    destruct (row_greeks_some self spot tau row v _ (Rgt_not_eq _ _ Hv) Hg)
      as (d & ga & th & rh & E).
    injection E as -> -> -> ->.
    repeat split; intros _; discriminate.
  - simpl in Hg. injection Hg as <- <- <- <-.
    repeat split; intros H; exact H.
Qed.

(** C8: for every Priced Point emitted by [process_chain], delta, gamma,
    theta and rho are present if and only if implied_vol is present. *)
Theorem greeks_present_iff_implied_vol (self : OptionChainProcessor)
    (raw_chain : list dict) (spot tau : R) (points : list OptionPoint) :
  snd (process_chain self raw_chain spot tau) = Ok points ->
  Forall greeks_with_iv points.
Proof.
  unfold process_chain. intros H. apply process_chain_with_rows in H.
  induction H as [| row p rows ps Hp _ IH]; constructor.
  - eapply process_row_greeks_with_iv, Hp.
  - exact IH.
Qed.

(** ** Bounds on the normal law that need no tail estimate *)

Lemma norm_pdf_le_1 (x : R) : norm_pdf x <= 1.
Proof.
  unfold norm_pdf.
  assert (H1 : exp (- (x * x) / 2) <= 1).
  { rewrite <- exp_0. destruct (Req_dec x 0) as [-> | Hx].
    - right. f_equal. lra.
    - left. apply exp_increasing. nra. }
  assert (H2 : 1 <= sqrt (2 * PI)).
  { rewrite <- sqrt_1. apply sqrt_le_1; pose proof PI2_3_2; lra. }
  pose proof (exp_pos (- (x * x) / 2)).
  apply Rle_trans with (1 / sqrt (2 * PI)).
  - unfold Rdiv. apply Rmult_le_compat_r; [| exact H1].
    left. apply Rinv_0_lt_compat. lra.
  - apply Rle_trans with (1 / 1); [| lra].
    unfold Rdiv. apply Rmult_le_compat_l; [lra |].
    apply Rinv_le_contravar; lra.
Qed.

Lemma norm_cdf_lipschitz (x y : R) :
  x <= y -> 0 <= norm_cdf y - norm_cdf x <= y - x.
Proof.
  intros [Hlt | ->]; [| lra].
  destruct (MVT_cor2 norm_cdf norm_pdf x y Hlt (fun c _ => norm_cdf_derivable c))
    as [c [Hc _]].
  rewrite Hc. pose proof (norm_pdf_pos c). pose proof (norm_pdf_le_1 c).
  split; nra.
Qed.

(** A call whose discounted spot and strike coincide is worth at most the
    discounted spot times [sigma * sqrt tau]. *)
Lemma call_at_the_forward (S K r q tau sigma : R) :
  0 < S -> 0 < K -> 0 < tau -> 0 < sigma ->
  S * exp (- q * tau) = K * exp (- r * tau) ->
  0 <= black_scholes_price S K r q sigma tau (kind_str Call)
    <= S * exp (- q * tau) * (sigma * sqrt tau).
Proof.
  intros HS HK Htau Hs HF.
  rewrite price_call_general by assumption. unfold call_of. rewrite <- HF.
  pose proof (sqrt_tau_pos tau Htau) as Hst.
  assert (Hd : d2_of S K r q tau sigma <= d1_of S K r q tau sigma).
  { unfold d2_of. nra. }
  pose proof (norm_cdf_lipschitz _ _ Hd) as HL.
  replace (d1_of S K r q tau sigma - d2_of S K r q tau sigma)
    with (sigma * sqrt tau) in HL by (unfold d2_of; ring).
  assert (HF1 : 0 < S * exp (- q * tau))
    by (apply Rmult_lt_0_compat; [assumption | apply exp_pos]).
  split; nra.
Qed.

Lemma simple_newton_loop_step
    (bs : R -> R -> R -> R -> R -> R -> pyval -> R)
    (vega : R -> R -> R -> R -> R -> R -> R)
    (market_price S K r q tau : R) (option_type : pyval) (tol : R)
    (n : nat) (sigma : R) :
  Rabs (bs S K r q sigma tau option_type - market_price) < tol ->
  Simple.newton_loop bs vega market_price S K r q tau option_type tol
    (Datatypes.S n) sigma = Some sigma.
Proof.
  intros H. simpl. destruct (Rlt_dec _ tol); [reflexivity | contradiction].
Qed.

(** A quote on a tiny underlying: spot and strike 1e-7, no rates, one year.
    Every model price is within [tol] of every market price up to 5e-7, so
    the Newton phase accepts its starting point. *)
Lemma tiny_quote_solved (p : R) :
  0 <= p <= 5e-7 ->
  snd (implied_volatility_default (Some p) (Some 1e-7) (Some 1e-7) 0 0 (Some 1)
         (kind_str Call)) = Ok (Some 0.2).
Proof.
  intros Hp. unfold implied_volatility_default.
  rewrite implied_volatility_result by lra.
  unfold Simple.implied_vol_newton.
  replace (Z.to_nat 30) with (Datatypes.S 29) by reflexivity.
  rewrite simple_newton_loop_step; [reflexivity |].
  assert (H := call_at_the_forward 1e-7 1e-7 0 0 1 0.2).
  rewrite sqrt_1 in H.
  replace (- 0 * 1) with 0 in H by ring. rewrite exp_0 in H.
  assert (H' : 0 <= black_scholes_price 1e-7 1e-7 0 0 0.2 1 (kind_str Call)
               <= 1e-7 * 1 * (0.2 * 1)) by (apply H; lra).
  apply Rabs_def1; lra.
Qed.

(** ** Concrete quotes *)

Definition quote (sy : string) (strike bid ask : pyval) : dict :=
  [("symbol", PyStr sy); ("expiry", PyStr "2025-01-17"); ("strike", strike);
   ("type", PyStr "C"); ("bid", bid); ("ask", ask)]%string.

(** A quote that the root-finder solves: see [tiny_quote_solved]. *)
Definition q_tiny : dict := quote "TINY" (PyFloat 1e-7) (PyFloat 1e-7) (PyFloat 3e-7).

(** A quote whose bid is the float zero. *)
Definition q_zero_bid : dict := quote "ZERO" (PyFloat 150) (PyFloat 0) (PyFloat 1).

(** A quote whose bid is [None]. *)
Definition q_no_bid : dict := quote "NOBID" (PyFloat 150) PyNone (PyFloat 1).

(** A quote [dict] that has no key ["strike"]. *)
Definition q_no_strike : dict :=
  [("symbol", PyStr "NOSTRIKE"); ("expiry", PyStr "2025-01-17");
   ("type", PyStr "C"); ("bid", PyFloat 1); ("ask", PyFloat 1.2)]%string.

(** [OptionChainProcessor(risk_free_rate=0.0, dividend_yield=0.0)] *)
Definition flat_processor : OptionChainProcessor := mkProcessor 0 0.

Definition absent_point (sy : string) (strike bid ask : pyval) : OptionPoint :=
  mkOptionPoint (PyStr sy) (PyStr "2025-01-17") strike (PyStr "C") bid ask
    None None None None None None.

Definition p_tiny : OptionPoint :=
  mkOptionPoint (PyStr "TINY") (PyStr "2025-01-17") (PyFloat 1e-7) (PyStr "C")
    (PyFloat 1e-7) (PyFloat 3e-7) (Some ((1e-7 + 3e-7) / 2)) (Some 0.2)
    (Some (bsm_delta 1e-7 1e-7 0 0 0.2 1 (PyStr "C")))
    (Some (bsm_gamma 1e-7 1e-7 0 0 0.2 1))
    (Some (bsm_theta 1e-7 1e-7 0 0 0.2 1 (PyStr "C")))
    (Some (bsm_rho 1e-7 1e-7 0 0 0.2 1 (PyStr "C"))).

Lemma try_except_ok {A} (m : io A) (h a : A) :
  snd m = Ok a -> snd (try_except m h) = Ok a.
Proof. unfold try_except. intros H. rewrite H. exact H. Qed.

Lemma try_except_raise {A} (m : io A) (h : A) (e : pyexn) :
  snd m = Raise e -> snd (try_except m h) = Ok h.
Proof. unfold try_except. intros H. rewrite H. reflexivity. Qed.

Lemma process_q_tiny :
  snd (process_row implied_volatility_call flat_processor 1e-7 1 q_tiny) = Ok p_tiny.
Proof.
  unfold p_tiny.
  apply (process_row_intro implied_volatility_call flat_processor 1e-7 1 q_tiny
           (PyFloat 1e-7) (PyFloat 3e-7));
    try reflexivity.
  - rewrite row_mid_floats by lra. reflexivity.
  - unfold row_iv.
    destruct (Req_dec_T ((1e-7 + 3e-7) / 2) 0); [lra |].
    destruct (Rgt_dec ((1e-7 + 3e-7) / 2) 0); [| lra].
    apply try_except_ok.
    change (getitem q_tiny "strike") with (Ok (PyFloat 1e-7)).
    change (getitem q_tiny "type") with (Ok (PyStr "C")).
    rewrite !bind_lift_ok. simpl.
    apply (tiny_quote_solved ((1e-7 + 3e-7) / 2)). lra.
  - unfold row_greeks.
    destruct (Req_dec_T 0.2 0); [lra |].
    change (getitem q_tiny "strike") with (Ok (PyFloat 1e-7)).
    change (getitem q_tiny "type") with (Ok (PyStr "C")).
    rewrite !bind_lift_ok. reflexivity.
Qed.

Lemma truthy_zero : truthy (PyFloat 0) = false.
Proof. simpl. destruct (Req_dec_T 0 0); [reflexivity | lra]. Qed.

Lemma process_absent
    (solver : R -> R -> pyval -> R -> R -> R -> pyval -> io (option R))
    (self : OptionChainProcessor) (spot tau : R)
    (sy : string) (strike bid ask : pyval) :
  truthy bid = false \/ truthy ask = false ->
  snd (process_row solver self spot tau (quote sy strike bid ask)) =
  Ok (absent_point sy strike bid ask).
Proof.
  intros H. unfold absent_point.
  apply (process_row_intro solver self spot tau (quote sy strike bid ask) bid ask);
    try reflexivity.
  rewrite row_mid_falsy by exact H. reflexivity.
Qed.

Lemma process_q_no_strike
    (solver : R -> R -> pyval -> R -> R -> R -> pyval -> io (option R))
    (self : OptionChainProcessor) (spot tau : R) :
  snd (process_row solver self spot tau q_no_strike) = Raise (KeyError "strike").
Proof.
  unfold process_row.
  change (getitem q_no_strike "bid") with (Ok (PyFloat 1)).
  change (getitem q_no_strike "ask") with (Ok (PyFloat 1.2)).
  rewrite !bind_lift_ok, row_mid_floats, bind_ret by lra.
  assert (Hiv : snd (row_iv solver self spot tau q_no_strike (Some ((1 + 1.2) / 2)))
                = Ok None).
  { unfold row_iv.
    destruct (Req_dec_T ((1 + 1.2) / 2) 0); [lra |].
    destruct (Rgt_dec ((1 + 1.2) / 2) 0); [| lra].
    apply try_except_raise with (e := KeyError "strike"). reflexivity. }
  rewrite (snd_bind_ok _ _ _ Hiv). simpl row_greeks. rewrite bind_ret.
  reflexivity.
Qed.

Lemma greeks_present_iff_implied_vol_witness :
  snd (process_chain flat_processor [q_tiny; q_no_bid] 1e-7 1) =
    Ok [p_tiny; absent_point "NOBID" (PyFloat 150) PyNone (PyFloat 1)] /\
  Forall greeks_with_iv [p_tiny; absent_point "NOBID" (PyFloat 150) PyNone (PyFloat 1)].
Proof.
  assert (H : snd (process_chain flat_processor [q_tiny; q_no_bid] 1e-7 1) =
              Ok [p_tiny; absent_point "NOBID" (PyFloat 150) PyNone (PyFloat 1)]).
  { unfold process_chain.
    apply process_chain_with_cons; [apply process_q_tiny |].
    apply process_chain_with_cons; [| reflexivity].
    apply process_absent. left. reflexivity. }
  split; [exact H |].
  exact (greeks_present_iff_implied_vol flat_processor [q_tiny; q_no_bid] 1e-7 1 _ H).
Defined.

(** ** Batch isolation *)

(** C1 fails on the code: a quote without the key "strike" makes
    [process_chain] raise [KeyError], although the two other quotes of the
    batch are processed without error when the batch holds them alone.  The
    lookup inside [try] is caught; the same lookup in the construction of the
    point is not. *)
Theorem missing_strike_aborts_the_batch :
  snd (process_chain flat_processor [q_tiny; q_no_strike; q_no_bid] 1e-7 1)
    = Raise (KeyError "strike") /\
  snd (process_chain flat_processor [q_tiny; q_no_bid] 1e-7 1)
    = Ok [p_tiny; absent_point "NOBID" (PyFloat 150) PyNone (PyFloat 1)].
Proof.
  split.
  - unfold process_chain.
    eapply process_chain_with_raise_later; [apply process_q_tiny |].
    apply process_chain_with_raise_here. apply process_q_no_strike.
  - unfold process_chain.
    apply process_chain_with_cons; [apply process_q_tiny |].
    apply process_chain_with_cons; [| reflexivity].
    apply process_absent. left. reflexivity.
Qed.

(** ** Mid price *)

(** A bid or ask that [process_chain] treats as missing: [None] or [0.0]. *)
Definition missing_side (v : pyval) : Prop := v = PyNone \/ v = PyFloat 0.

(** The rule for [mid]: the average of two non-zero numbers, absent when a
    side is missing. *)
Definition mid_rule (row : dict) (p : OptionPoint) : Prop :=
  (forall x y, getitem row "bid" = Ok (PyFloat x) ->
               getitem row "ask" = Ok (PyFloat y) ->
               x <> 0 -> y <> 0 -> mid p = Some ((x + y) / 2)) /\
  (forall b a, getitem row "bid" = Ok b -> getitem row "ask" = Ok a ->
               missing_side b \/ missing_side a -> mid p = None).

(** Without a positive [mid] the point has no implied volatility and no
    Greeks, and the row is processed the same whatever root-finder is
    plugged in: the root-finder is not called. *)
Definition skip_rule (self : OptionChainProcessor) (spot tau : R)
    (row : dict) (p : OptionPoint) : Prop :=
  (mid p = None \/ exists x, mid p = Some x /\ x <= 0) ->
  implied_vol p = None /\ delta p = None /\ gamma p = None /\
  theta p = None /\ rho p = None /\
  forall solver',
    process_row solver' self spot tau row =
    process_row implied_volatility_call self spot tau row.

Lemma missing_side_falsy (v : pyval) : missing_side v -> truthy v = false.
Proof. intros [-> | ->]; [reflexivity | apply truthy_zero]. Qed.

Lemma process_row_rules (self : OptionChainProcessor) (spot tau : R)
    (row : dict) (p : OptionPoint) :
  snd (process_row implied_volatility_call self spot tau row) = Ok p ->
  mid_rule row p /\ skip_rule self spot tau row p.
Proof.
  intros Hp.
  destruct (process_row_inv _ _ _ _ _ _ Hp)
    as (b & a & m & iv & g & Hb & Ha & Hm & Hiv & Hg & _ & _ & Hpm & Hpiv & Hpg).
  split; [split |].
  - intros x y Hx Hy Hx0 Hy0.
    assert (b = PyFloat x) by congruence. assert (a = PyFloat y) by congruence.
    subst b a. rewrite row_mid_floats in Hm by assumption.
    simpl in Hm. congruence.
  - intros b' a' Hb' Ha' Hmiss.
    assert (b' = b) by congruence. assert (a' = a) by congruence. subst b' a'.
    rewrite row_mid_falsy in Hm
      by (destruct Hmiss; [left | right]; now apply missing_side_falsy).
    simpl in Hm. congruence.
  - intros Hskip.
    assert (Hiv' : iv = None).
    { rewrite (row_iv_skipped _ _ _ _ row m) in Hiv by (rewrite <- Hpm; exact Hskip).
      now injection Hiv. }
    subst iv. rewrite Hiv' in Hg. simpl in Hg. injection Hg as <-.
    injection Hpg as -> -> -> ->.
    repeat split; try assumption.
    intros solver'. eapply process_row_solver_free; eassumption.
Qed.

(** C5, as the code has it: for every quote of a batch processed by
    [process_chain], mid is (bid+ask)/2 when bid and ask are both non-zero
    numbers and absent when a side is None or zero (no fallback to a
    last-trade price); when mid is absent or <= 0 the root-finder is not
    called and the point has implied_vol and all Greeks absent. *)
Theorem mid_price_and_skipped_solver (self : OptionChainProcessor)
    (raw_chain : list dict) (spot tau : R) (points : list OptionPoint) :
  snd (process_chain self raw_chain spot tau) = Ok points ->
  Forall2 (fun row p => mid_rule row p /\ skip_rule self spot tau row p)
    raw_chain points.
Proof.
  unfold process_chain. intros H. apply process_chain_with_rows in H.
  induction H as [| row p rows ps Hp _ IH]; constructor.
  - apply process_row_rules, Hp.
  - exact IH.
Qed.

Lemma mid_price_and_skipped_solver_witness :
  snd (process_chain flat_processor [q_tiny; q_zero_bid] 1e-7 1) =
    Ok [p_tiny; absent_point "ZERO" (PyFloat 150) (PyFloat 0) (PyFloat 1)] /\
  Forall2 (fun row p => mid_rule row p /\ skip_rule flat_processor 1e-7 1 row p)
    [q_tiny; q_zero_bid]
    [p_tiny; absent_point "ZERO" (PyFloat 150) (PyFloat 0) (PyFloat 1)].
Proof.
  assert (H : snd (process_chain flat_processor [q_tiny; q_zero_bid] 1e-7 1) =
              Ok [p_tiny; absent_point "ZERO" (PyFloat 150) (PyFloat 0) (PyFloat 1)]).
  { unfold process_chain.
    apply process_chain_with_cons; [apply process_q_tiny |].
    apply process_chain_with_cons; [| reflexivity].
    apply process_absent. left. apply truthy_zero. }
  split; [exact H |].
  exact (mid_price_and_skipped_solver flat_processor [q_tiny; q_zero_bid] 1e-7 1 _ H).
Defined.

(** C5 as stated fails on the code: a quote with bid 0.0 and ask 1.0 has both
    sides present, yet its point has no mid (the claim asks for 0.5). *)
Lemma zero_bid_has_no_mid :
  exists p,
    snd (process_chain default_processor [q_zero_bid] 100 1) = Ok [p] /\
    bid p = PyFloat 0 /\ ask p = PyFloat 1 /\ mid p <> Some ((0 + 1) / 2).
Proof.
  exists (absent_point "ZERO" (PyFloat 150) (PyFloat 0) (PyFloat 1)).
  split; [| repeat split; discriminate].
  unfold process_chain.
  apply process_chain_with_cons; [| reflexivity].
  apply process_absent. left. apply truthy_zero.
Qed.

(** ** The arbitrage-bound check *)

(** The no-arbitrage bounds of a European option under continuous rates. *)
Definition arbitrage_bounds (k : kind) (S K r q tau : R) : R * R :=
  match k with
  | Call => (Rmax 0 (S * exp (- q * tau) - K * exp (- r * tau)), S * exp (- q * tau))
  | Put => (Rmax 0 (K * exp (- r * tau) - S * exp (- q * tau)), K * exp (- r * tau))
  end.

Lemma price_bounds_kind (k : kind) (S K r q tau : R) :
  _price_bounds S K r q tau (kind_str k) = Ok (arbitrage_bounds k S K r q tau).
Proof. destruct k; reflexivity. Qed.

(** When the Newton phase is inconclusive and the price is out of bounds,
    [implied_volatility] prints what the Newton phase printed and returns
    [None]. *)
Lemma implied_volatility_rejects (price S K r q tau : R) (option_type : pyval)
    (initial_vol tol : R) (max_iter_newton : Z) (low high : R)
    (max_iter_bisection : Z) (lb ub : R) :
  0 < tau ->
  snd (implied_vol_newton price S K r q tau option_type tol initial_vol
         max_iter_newton) = Ok None ->
  _price_bounds S K r q tau option_type = Ok (lb, ub) ->
  price < lb - 1e-12 \/ price > ub + 1e-12 ->
  implied_volatility (Some price) (Some S) (Some K) r q (Some tau) option_type
    initial_vol tol max_iter_newton low high max_iter_bisection =
  (fst (implied_vol_newton price S K r q tau option_type tol initial_vol
          max_iter_newton), Ok None).
Proof.
  intros Htau HN HB Hout. unfold implied_volatility.
  destruct (Rle_dec tau 0); [lra |].
  unfold bind at 1. rewrite HN, HB, bind_lift_ok.
  destruct (Rlt_dec price (lb - 1e-12)); [simpl; now rewrite app_nil_r |].
  destruct (Rgt_dec price (ub + 1e-12)); [simpl; now rewrite app_nil_r |].
  unfold Rgt in *. lra.
Qed.

(** When the Newton phase is inconclusive and the price passes the bounds
    check, [implied_volatility] prints what the two phases print and returns
    what the bisection phase returns. *)
Lemma implied_volatility_bisects (price S K r q tau : R) (option_type : pyval)
    (initial_vol tol : R) (max_iter_newton : Z) (low high : R)
    (max_iter_bisection : Z) (lb ub v : R) :
  0 < tau ->
  snd (implied_vol_newton price S K r q tau option_type tol initial_vol
         max_iter_newton) = Ok None ->
  _price_bounds S K r q tau option_type = Ok (lb, ub) ->
  lb - 1e-12 <= price <= ub + 1e-12 ->
  snd (implied_vol_bisection price S K r q tau option_type tol low high
         max_iter_bisection) = Ok v ->
  implied_volatility (Some price) (Some S) (Some K) r q (Some tau) option_type
    initial_vol tol max_iter_newton low high max_iter_bisection =
  (fst (implied_vol_newton price S K r q tau option_type tol initial_vol
          max_iter_newton)
   ++ fst (implied_vol_bisection price S K r q tau option_type tol low high
             max_iter_bisection),
   Ok (Some v)).
Proof.
  intros Htau HN HB Hin Hv. unfold implied_volatility.
  destruct (Rle_dec tau 0); [lra |].
  unfold bind at 1. rewrite HN, HB, bind_lift_ok.
  destruct (Rlt_dec price (lb - 1e-12)); [lra |].
  destruct (Rgt_dec price (ub + 1e-12)) as [Hgt | _]; [unfold Rgt in Hgt; lra |].
  unfold bind. rewrite Hv. simpl. rewrite app_nil_r. reflexivity.
Qed.

(** When the Newton phase is inconclusive and the option type is not a
    string, [_price_bounds] raises and nothing more is printed. *)
Lemma implied_volatility_raises (price S K r q tau : R) (option_type : pyval)
    (initial_vol tol : R) (max_iter_newton : Z) (low high : R)
    (max_iter_bisection : Z) (e : pyexn) :
  0 < tau ->
  snd (implied_vol_newton price S K r q tau option_type tol initial_vol
         max_iter_newton) = Ok None ->
  _price_bounds S K r q tau option_type = Raise e ->
  implied_volatility (Some price) (Some S) (Some K) r q (Some tau) option_type
    initial_vol tol max_iter_newton low high max_iter_bisection =
  (fst (implied_vol_newton price S K r q tau option_type tol initial_vol
          max_iter_newton), Raise e).
Proof.
  intros Htau HN HB. unfold implied_volatility.
  destruct (Rle_dec tau 0); [lra |].
  unfold bind at 1. rewrite HN, HB, bind_lift_raise. simpl.
  now rewrite app_nil_r.
Qed.

(** When the Newton phase returns a volatility, so does
    [implied_volatility], and nothing more is printed. *)
Lemma implied_volatility_newton (price S K r q tau : R) (option_type : pyval)
    (initial_vol tol : R) (max_iter_newton : Z) (low high : R)
    (max_iter_bisection : Z) (v : R) :
  0 < tau ->
  snd (implied_vol_newton price S K r q tau option_type tol initial_vol
         max_iter_newton) = Ok (Some v) ->
  implied_volatility (Some price) (Some S) (Some K) r q (Some tau) option_type
    initial_vol tol max_iter_newton low high max_iter_bisection =
  (fst (implied_vol_newton price S K r q tau option_type tol initial_vol
          max_iter_newton), Ok (Some v)).
Proof.
  intros Htau HN. unfold implied_volatility.
  destruct (Rle_dec tau 0); [lra |].
  unfold bind at 1. rewrite HN. simpl. now rewrite app_nil_r.
Qed.


Lemma simple_newton_loop_flat
    (bs : R -> R -> R -> R -> R -> R -> pyval -> R)
    (vega : R -> R -> R -> R -> R -> R -> R)
    (market_price S K r q tau : R) (option_type : pyval) (tol : R)
    (n : nat) (sigma : R) :
  tol <= Rabs (bs S K r q sigma tau option_type - market_price) ->
  vega S K r q sigma tau < 1e-8 ->
  Simple.newton_loop bs vega market_price S K r q tau option_type tol
    (Datatypes.S n) sigma = None.
Proof.
  intros H1 H2. simpl.
  destruct (Rlt_dec _ tol); [lra |].
  destruct (Rlt_dec _ 1e-8); [reflexivity | contradiction].
Qed.

Lemma sqrt_1e20 : sqrt 1e-20 = 1e-10.
Proof. apply sqrt_lem_1; lra. Qed.

(** ** More on integrals: antiderivatives, linearity, bounds *)

(** The integral of a derivative. *)
Lemma cint_antiderivative (f F : R -> R) (Hf : continuity f) (a b : R) :
  (forall x, derivable_pt_lim F x (f x)) -> cint f Hf a b = F b - F a.
Proof.
  intros HF.
  pose (g := fun x => cint f Hf a x - F x).
  assert (Hg : forall x, derivable_pt_lim g x 0).
  { intro x. unfold g. replace 0 with (f x - f x) by ring.
    apply (derivable_pt_lim_minus (cint f Hf a) F); [apply cint_derivable | apply HF]. }
  pose proof (derivative_zero_constant g Hg b a) as H. unfold g in H.
  rewrite cint_refl in H. lra.
Qed.

Lemma cint_ext (f g : R -> R) (Hf : continuity f) (Hg : continuity g) (a b : R) :
  (forall x, f x = g x) -> cint f Hf a b = cint g Hg a b.
Proof.
  intros H. rewrite (cint_antiderivative f (cint g Hg a) Hf a b).
  - rewrite cint_refl. ring.
  - intro x. rewrite H. apply cint_derivable.
Qed.

Lemma cint_linear (f g : R -> R) (l : R) (Hf : continuity f) (Hg : continuity g)
    (Hfg : continuity (fun x => f x + l * g x)) (a b : R) :
  cint (fun x => f x + l * g x) Hfg a b = cint f Hf a b + l * cint g Hg a b.
Proof.
  rewrite (cint_antiderivative _ (fun x => cint f Hf a x + l * cint g Hg a x) Hfg a b).
  - rewrite !cint_refl. ring.
  - intro x.
    apply (derivable_pt_lim_plus (cint f Hf a) (fun x => l * cint g Hg a x)).
    + apply cint_derivable.
    + apply (derivable_pt_lim_scal (cint g Hg a) l), cint_derivable.
Qed.

(** Bounds of the integrand on the interval bound the integral. *)
Lemma cint_bounds (f : R -> R) (Hf : continuity f) (a b m M : R) :
  a <= b -> (forall x, a < x < b -> m <= f x <= M) ->
  m * (b - a) <= cint f Hf a b <= M * (b - a).
Proof.
  intros Hab H. split.
  - assert (H1 := RiemannInt_P19 (RiemannInt_P14 a b m) (cont_integrable f Hf a b) Hab).
    rewrite RiemannInt_P15 in H1. apply H1. intros x Hx. unfold fct_cte. apply H, Hx.
  - assert (H1 := RiemannInt_P19 (cont_integrable f Hf a b) (RiemannInt_P14 a b M) Hab).
    rewrite RiemannInt_P15 in H1. apply H1. intros x Hx. unfold fct_cte. apply H, Hx.
Qed.

Lemma mvt_abs (f f' : R -> R) (a b M : R) :
  (forall y, derivable_pt_lim f y (f' y)) ->
  (forall y, Rmin a b <= y <= Rmax a b -> Rabs (f' y) <= M) ->
  Rabs (f b - f a) <= M * Rabs (b - a).
Proof.
  intros Hd HM.
  destruct (Rtotal_order a b) as [Hab | [-> | Hab]].
  - destruct (MVT_cor2 f f' a b Hab (fun c _ => Hd c)) as [c [Hc Hin]].
    rewrite Hc, Rabs_mult. apply Rmult_le_compat_r; [apply Rabs_pos |].
    apply HM. rewrite Rmin_left, Rmax_right by lra. lra.
  - replace (f b - f b) with 0 by ring. replace (b - b) with 0 by ring.
    rewrite Rabs_R0. lra.
  - destruct (MVT_cor2 f f' b a Hab (fun c _ => Hd c)) as [c [Hc Hin]].
    rewrite (Rabs_minus_sym (f b)), (Rabs_minus_sym b), Hc, Rabs_mult.
    apply Rmult_le_compat_r; [apply Rabs_pos |].
    apply HM. rewrite Rmin_right, Rmax_left by lra. lra.
Qed.

Lemma between_abs (x h y : R) :
  Rmin x (x + h) <= y <= Rmax x (x + h) -> Rabs (y - x) <= Rabs h.
Proof.
  intros Hy. unfold Rmin, Rmax in Hy.
  destruct (Rle_dec x (x + h)).
  - rewrite !Rabs_right by lra. lra.
  - rewrite !Rabs_left1 by lra. lra.
Qed.

Lemma taylor2 (u u' u'' : R -> R) (x h M : R) :
  (forall y, derivable_pt_lim u y (u' y)) ->
  (forall y, derivable_pt_lim u' y (u'' y)) ->
  (forall y, Rabs (y - x) <= Rabs h -> Rabs (u'' y) <= M) ->
  Rabs (u (x + h) - u x - h * u' x) <= M * (h * h).
Proof.
  intros Hu Hu' HM.
  pose (w := fun y => u y - u' x * y).
  assert (Hw : forall y, derivable_pt_lim w y (u' y - u' x)).
  { intro y. unfold w.
    apply (derivable_pt_lim_minus u (fun y => u' x * y)); [apply Hu |].
    assert (H := derivable_pt_lim_scal id (u' x) y 1 (derivable_pt_lim_id y)).
    eapply derivable_pt_lim_ext; [| | exact H]; [intro; reflexivity | ring]. }
  assert (HM0 : 0 <= M).
  { eapply Rle_trans; [apply Rabs_pos | apply (HM x)].
    replace (x - x) with 0 by ring. rewrite Rabs_R0. apply Rabs_pos. }
  assert (Hb : Rabs (w (x + h) - w x) <= (M * Rabs h) * Rabs (x + h - x)).
  { apply (mvt_abs w (fun y => u' y - u' x)); [exact Hw |].
    intros y Hy. apply between_abs in Hy.
    eapply Rle_trans.
    - apply (mvt_abs u' u'' x y M Hu').
      intros z Hz. apply HM.
      assert (Rabs (z - x) <= Rabs (y - x)); [| lra].
      apply (between_abs x (y - x) z).
      replace (x + (y - x)) with y by ring. exact Hz.
    - apply Rmult_le_compat_l; assumption. }
  replace (w (x + h) - w x) with (u (x + h) - u x - h * u' x) in Hb
    by (unfold w; ring).
  replace (x + h - x) with h in Hb by ring.
  replace (M * Rabs h * Rabs h) with (M * (h * h)) in Hb; [exact Hb |].
  rewrite Rmult_assoc, <- Rabs_mult, Rabs_right; [reflexivity | nra].
Qed.

Lemma Rabs_le_between (a b : R) : Rabs a <= b -> - b <= a <= b.
Proof.
  intros H. pose proof (Rle_abs a). pose proof (Rle_abs (- a)) as H1.
  rewrite Rabs_Ropp in H1. lra.
Qed.

Lemma continuity_lin (f g : R -> R) (l : R) :
  continuity f -> continuity g -> continuity (fun x => f x + l * g x).
Proof.
  intros Hf Hg.
  apply (continuity_plus f (fun x => l * g x)); [exact Hf |].
  apply (continuity_scal g l), Hg.
Qed.

Section ParamIntegral.

Variables (k k1 : R -> R -> R).
Hypothesis Hk : forall x, continuity (k x).
Hypothesis Hk1 : forall x, continuity (k1 x).
Variables (x0 M : R).
Hypothesis HT : forall h t, Rabs h <= 1 -> 0 < t < 1 ->
  Rabs (k (x0 + h) t - k x0 t - h * k1 x0 t) <= M * (h * h).

(** Differentiation under the integral sign, for an integrand with a uniform
    second-order expansion in the parameter. *)
Lemma param_derivable :
  derivable_pt_lim (fun x => cint (k x) (Hk x) 0 1) x0 (cint (k1 x0) (Hk1 x0) 0 1).
Proof.
  intros eps Heps.
  set (M' := Rmax M 0 + 1).
  assert (HM' : 0 < M') by (unfold M'; pose proof (Rmax_r M 0); lra).
  assert (HMM : M <= M') by (unfold M'; pose proof (Rmax_l M 0); lra).
  assert (Hd : 0 < Rmin 1 (eps / M')).
  { apply Rmin_pos; [lra | apply Rdiv_lt_0_compat; assumption]. }
  exists (mkposreal _ Hd). simpl. intros h Hh0 Hh.
  assert (Hh1 : Rabs h < 1) by (eapply Rlt_le_trans; [exact Hh | apply Rmin_l]).
  assert (Hh2 : Rabs h < eps / M') by (eapply Rlt_le_trans; [exact Hh | apply Rmin_r]).
  pose (w1 := fun t => k (x0 + h) t + (-1) * k x0 t).
  assert (Hw1 : continuity w1) by (apply continuity_lin; apply Hk).
  pose (w := fun t => w1 t + (- h) * k1 x0 t).
  assert (Hw : continuity w) by (apply continuity_lin; [exact Hw1 | apply Hk1]).
  assert (Hint : cint w Hw 0 1 =
                 cint (k (x0 + h)) (Hk (x0 + h)) 0 1 - cint (k x0) (Hk x0) 0 1
                 - h * cint (k1 x0) (Hk1 x0) 0 1).
  { unfold w. rewrite (cint_linear w1 (k1 x0) (- h) Hw1 (Hk1 x0)).
    unfold w1. rewrite (cint_linear (k (x0 + h)) (k x0) (-1) (Hk (x0 + h)) (Hk x0)).
    ring. }
  assert (Hbound : Rabs (cint w Hw 0 1) <= M * (h * h)).
  { assert (Hb := cint_bounds w Hw 0 1 (- (M * (h * h))) (M * (h * h))).
    apply Rabs_le.
    assert (Hb' : - (M * (h * h)) * (1 - 0) <= cint w Hw 0 1 <= M * (h * h) * (1 - 0)).
    { apply Hb; [lra |]. intros t Ht.
      apply Rabs_le_between.
      replace (w t) with (k (x0 + h) t - k x0 t - h * k1 x0 t) by (unfold w, w1; ring).
      apply HT; [lra | exact Ht]. }
    lra. }
  replace ((cint (k (x0 + h)) (Hk (x0 + h)) 0 1 - cint (k x0) (Hk x0) 0 1) / h
           - cint (k1 x0) (Hk1 x0) 0 1)
    with (cint w Hw 0 1 / h) by (rewrite Hint; field; exact Hh0).
  unfold Rdiv. rewrite Rabs_mult, Rabs_inv.
  assert (Hah : 0 < Rabs h) by (apply Rabs_pos_lt; exact Hh0).
  apply Rle_lt_trans with (M' * Rabs h).
  - apply Rmult_le_reg_r with (Rabs h); [exact Hah |].
    rewrite Rmult_assoc, Rinv_l, Rmult_1_r by lra.
    eapply Rle_trans; [exact Hbound |].
    replace (h * h) with (Rabs h * Rabs h)
      by (rewrite <- Rabs_mult; apply Rabs_right; nra).
    nra.
  - apply Rmult_lt_reg_r with (/ M'); [apply Rinv_0_lt_compat; exact HM' |].
    replace (M' * Rabs h * / M') with (Rabs h) by (field; lra).
    exact Hh2.
Qed.

End ParamIntegral.

(** ** The Gaussian integral *)

(** The integrand of the auxiliary integral and its derivative in [x]. *)
Definition gk (x t : R) : R :=
  / PI * (exp (- (x * x) * (1 + t * t) / 2) / (1 + t * t)).

Definition gk1 (x t : R) : R :=
  - / PI * x * exp (- (x * x) * (1 + t * t) / 2).

Definition gk2 (x t : R) : R :=
  / PI * (- 1 + x * x * (1 + t * t)) * exp (- (x * x) * (1 + t * t) / 2).

Lemma one_plus_sq_pos (t : R) : 0 < 1 + t * t.
Proof. nra. Qed.

Lemma dlim_exp_quad (a x : R) :
  derivable_pt_lim (fun y => exp (- (y * y) * a / 2)) x
    (exp (- (x * x) * a / 2) * (- x * a)).
Proof.
  assert (H1 : derivable_pt_lim (fun y => - (y * y) * a / 2) x (- x * a)).
  { assert (H := derivable_pt_lim_scal (fun y => y * y) (- a / 2) x (1 * x + x * 1)
                   (derivable_pt_lim_mult id id x 1 1
                      (derivable_pt_lim_id x) (derivable_pt_lim_id x))).
    eapply derivable_pt_lim_ext; [| | exact H].
    - intro y. unfold mult_real_fct. field.
    - field. }
  exact (derivable_pt_lim_comp _ exp x _ _ H1 (derivable_pt_lim_exp _)).
Qed.

Lemma gk_dlim_x (t x : R) : derivable_pt_lim (fun y => gk y t) x (gk1 x t).
Proof.
  pose proof (one_plus_sq_pos t) as Ht.
  assert (H := derivable_pt_lim_scal _ (/ PI * / (1 + t * t)) x _
                 (dlim_exp_quad (1 + t * t) x)).
  eapply derivable_pt_lim_ext; [| | exact H].
  - intro y. unfold mult_real_fct, gk. field. split; first [lra | apply PI_neq0].
  - unfold gk1. field. split; first [lra | apply PI_neq0].
Qed.

Lemma gk1_dlim_x (t x : R) : derivable_pt_lim (fun y => gk1 y t) x (gk2 x t).
Proof.
  assert (H := derivable_pt_lim_mult id _ x _ _ (derivable_pt_lim_id x)
                 (dlim_exp_quad (1 + t * t) x)).
  apply (derivable_pt_lim_scal _ (- / PI)) in H.
  eapply derivable_pt_lim_ext; [| | exact H].
  - intro y. unfold mult_real_fct, mult_fct, id, gk1. ring.
  - unfold gk2, id. ring.
Qed.

Lemma exp_nonpos_le_1 (z : R) : z <= 0 -> exp z <= 1.
Proof.
  intros [Hz | ->]; [| rewrite exp_0; lra].
  left. pose proof (exp_increasing z 0 Hz) as H. now rewrite exp_0 in H.
Qed.

Lemma exp_quad_t_cont (x : R) :
  continuity (fun t => exp (- (x * x) * (1 + t * t) / 2)).
Proof.
  apply derivable_continuous. intro t.
  apply (derivable_pt_comp (fun t => - (x * x) * (1 + t * t) / 2) exp);
    [| apply derivable_pt_exp].
  unfold Rdiv. apply derivable_pt_mult; [| apply derivable_pt_const].
  apply derivable_pt_mult; [apply derivable_pt_const |].
  apply derivable_pt_plus; [apply derivable_pt_const |].
  apply derivable_pt_mult; apply derivable_pt_id.
Qed.

Lemma gk1_cont (x : R) : continuity (gk1 x).
Proof.
  unfold gk1.
  apply (continuity_scal (fun t => exp (- (x * x) * (1 + t * t) / 2)) (- / PI * x)).
  apply exp_quad_t_cont.
Qed.

Lemma gk_cont (x : R) : continuity (gk x).
Proof.
  unfold gk.
  apply (continuity_scal
           (fun t => exp (- (x * x) * (1 + t * t) / 2) / (1 + t * t)) (/ PI)).
  apply (continuity_div (fun t => exp (- (x * x) * (1 + t * t) / 2))
           (fun t => 1 + t * t)).
  - apply exp_quad_t_cont.
  - apply derivable_continuous. intro t.
    apply derivable_pt_plus; [apply derivable_pt_const |].
    apply derivable_pt_mult; apply derivable_pt_id.
  - intro t. pose proof (one_plus_sq_pos t). lra.
Qed.

(** The second-order expansion of [gk] in [x], uniform for [t] in [0,1]. *)
Lemma gk_taylor (x0 h t : R) :
  Rabs h <= 1 -> 0 < t < 1 ->
  Rabs (gk (x0 + h) t - gk x0 t - h * gk1 x0 t)
    <= (/ PI * (1 + 2 * ((Rabs x0 + 1) * (Rabs x0 + 1)))) * (h * h).
Proof.
  intros Hh Ht.
  apply (taylor2 (fun y => gk y t) (fun y => gk1 y t) (fun y => gk2 y t)).
  - intro y. apply gk_dlim_x.
  - intro y. apply gk1_dlim_x.
  - intros y Hy. unfold gk2.
    assert (HPI : 0 < / PI) by (apply Rinv_0_lt_compat, PI_RGT_0).
    assert (He : 0 < exp (- (y * y) * (1 + t * t) / 2) <= 1).
    { split; [apply exp_pos | apply exp_nonpos_le_1; nra]. }
    assert (Hy2 : y * y <= (Rabs x0 + 1) * (Rabs x0 + 1)).
    { assert (Rabs y <= Rabs x0 + 1).
      { replace y with ((y - x0) + x0) by ring.
        eapply Rle_trans; [apply Rabs_triang |]. lra. }
      replace (y * y) with (Rabs y * Rabs y)
        by (rewrite <- Rabs_mult; apply Rabs_right; nra).
      pose proof (Rabs_pos y). pose proof (Rabs_pos x0). nra. }
    rewrite !Rabs_mult.
    rewrite (Rabs_right (/ PI)) by lra.
    rewrite (Rabs_right (exp _)) by lra.
    assert (Hmid : Rabs (- 1 + y * y * (1 + t * t))
                   <= 1 + 2 * ((Rabs x0 + 1) * (Rabs x0 + 1))).
    { assert (Hyy : 0 <= y * y) by nra.
      assert (Htt : 0 <= t * t <= 1) by nra.
      assert (Hyt : y * y * (t * t) <= y * y) by nra.
      apply Rabs_le. split; nra. }
    pose proof (Rabs_pos (- 1 + y * y * (1 + t * t))).
    apply Rle_trans with (/ PI * Rabs (- 1 + y * y * (1 + t * t)) * 1).
    + apply Rmult_le_compat_l; [| lra]. nra.
    + rewrite Rmult_1_r. apply Rmult_le_compat_l; lra.
Qed.

Definition J3 (x : R) : R := cint (gk x) (gk_cont x) 0 1.

Lemma J3_derivable (x : R) :
  derivable_pt_lim J3 x (cint (gk1 x) (gk1_cont x) 0 1).
Proof.
  unfold J3.
  apply (param_derivable gk gk1 gk_cont gk1_cont x
           (/ PI * (1 + 2 * ((Rabs x + 1) * (Rabs x + 1))))).
  intros h t. apply gk_taylor.
Qed.

Lemma sqrt_2PI_sqr : sqrt (2 * PI) * sqrt (2 * PI) = 2 * PI.
Proof. apply sqrt_sqrt. pose proof PI_RGT_0. lra. Qed.

Lemma gk1_as_pdf (x t : R) :
  gk1 x t = - 2 * norm_pdf x * (norm_pdf (x * t) * x).
Proof.
  unfold gk1, norm_pdf.
  replace (- (x * x) * (1 + t * t) / 2)
    with (- (x * x) / 2 + - (x * t * (x * t)) / 2) by field.
  rewrite exp_plus.
  pose proof sqrt_2PI_pos as Hs. pose proof sqrt_2PI_sqr as Hq.
  pose proof PI_RGT_0 as HP.
  apply Rmult_eq_reg_r with (PI * (sqrt (2 * PI) * sqrt (2 * PI))).
  2:{ apply Rgt_not_eq. apply Rmult_lt_0_compat; [lra | nra]. }
  transitivity (- x * exp (- (x * x) / 2) * exp (- (x * t * (x * t)) / 2)
                * (2 * PI)).
  - rewrite Hq. field. lra.
  - field. lra.
Qed.

Lemma J3_derivative_value (x : R) :
  cint (gk1 x) (gk1_cont x) 0 1 = - 2 * norm_pdf x * (norm_cdf x - 1 / 2).
Proof.
  rewrite (cint_antiderivative (gk1 x)
             (fun t => - 2 * norm_pdf x * norm_cdf (x * t))).
  - rewrite Rmult_1_r, Rmult_0_r, norm_cdf_0. ring.
  - intro t. rewrite gk1_as_pdf.
    apply (derivable_pt_lim_scal (fun t => norm_cdf (x * t)) (- 2 * norm_pdf x)).
    apply (derivable_pt_lim_comp (fun t => x * t) norm_cdf).
    + assert (H := derivable_pt_lim_scal id x t 1 (derivable_pt_lim_id t)).
      eapply derivable_pt_lim_ext; [| | exact H]; [intro; reflexivity | ring].
    + apply norm_cdf_derivable.
Qed.

Lemma J3_0 : J3 0 = 1 / 4.
Proof.
  unfold J3.
  rewrite (cint_antiderivative (gk 0) (fun t => / PI * atan t)).
  - rewrite atan_1, atan_0. field. apply PI_neq0.
  - intro t. unfold gk.
    apply (derivable_pt_lim_scal atan (/ PI)).
    replace (exp (- (0 * 0) * (1 + t * t) / 2) / (1 + t * t)) with (/ (1 + t ^ 2)).
    + apply derivable_pt_lim_atan.
    + replace (- (0 * 0) * (1 + t * t) / 2) with 0 by field.
      rewrite exp_0. field. pose proof (one_plus_sq_pos t). lra.
Qed.

(** The Gaussian integral, in the form of an identity for the distribution
    function: [(cdf x - 1/2)^2 + J3 x = 1/4]. *)
Lemma gauss_identity (x : R) :
  (norm_cdf x - 1 / 2) * (norm_cdf x - 1 / 2) + J3 x = 1 / 4.
Proof.
  pose (W := fun x => (norm_cdf x - 1 / 2) * (norm_cdf x - 1 / 2) + J3 x).
  assert (HW : forall y, derivable_pt_lim W y 0).
  { intro y. unfold W.
    assert (Hc : derivable_pt_lim (fun x => norm_cdf x - 1 / 2) y (norm_pdf y)).
    { replace (norm_pdf y) with (norm_pdf y - 0) by ring.
      apply (derivable_pt_lim_minus norm_cdf (fun _ => 1 / 2));
        [apply norm_cdf_derivable | apply derivable_pt_lim_const]. }
    assert (H := derivable_pt_lim_plus _ _ y _ _
                   (derivable_pt_lim_mult _ _ y _ _ Hc Hc) (J3_derivable y)).
    eapply derivable_pt_lim_ext; [| | exact H].
    - intro z. reflexivity.
    - rewrite J3_derivative_value. ring. }
  pose proof (derivative_zero_constant W HW x 0) as H. unfold W in H.
  rewrite norm_cdf_0, J3_0 in H. lra.
Qed.

Lemma gk_bounds (x t : R) :
  0 < t < 1 ->
  / PI * (exp (- (x * x)) / 2) <= gk x t <= / PI * exp (- (x * x) / 2).
Proof.
  intros Ht. unfold gk.
  assert (HPI : 0 < / PI) by (apply Rinv_0_lt_compat, PI_RGT_0).
  assert (Htt : 0 < t * t < 1) by nra.
  assert (Hxx : 0 <= x * x) by nra.
  assert (Hxt : 0 <= x * x * (t * t) <= x * x) by nra.
  pose proof (exp_pos (- (x * x) * (1 + t * t) / 2)) as He.
  assert (He1 : exp (- (x * x)) <= exp (- (x * x) * (1 + t * t) / 2)).
  { destruct (Req_dec (- (x * x)) (- (x * x) * (1 + t * t) / 2)) as [<- | Hne];
      [lra |]. left. apply exp_increasing. nra. }
  assert (He2 : exp (- (x * x) * (1 + t * t) / 2) <= exp (- (x * x) / 2)).
  { destruct (Req_dec (- (x * x) * (1 + t * t) / 2) (- (x * x) / 2)) as [-> | Hne];
      [lra |]. left. apply exp_increasing. nra. }
  pose proof (exp_pos (- (x * x))) as He0.
  assert (Hinv : / 2 <= / (1 + t * t) <= 1).
  { split.
    - apply Rinv_le_contravar; lra.
    - apply Rle_trans with (/ 1); [apply Rinv_le_contravar; lra | rewrite Rinv_1; lra]. }
  unfold Rdiv. split.
  - apply Rmult_le_compat_l; [lra |]. 
    apply Rle_trans with (exp (- (x * x) * (1 + t * t) * / 2) * / 2); [nra |].
    apply Rmult_le_compat_l; lra.
  - apply Rmult_le_compat_l; [lra |].
    apply Rle_trans with (exp (- (x * x) * (1 + t * t) * / 2) * 1); [| nra].
    apply Rmult_le_compat_l; lra.
Qed.

Lemma J3_bounds (x : R) : 0 < J3 x <= / PI * exp (- (x * x) / 2).
Proof.
  assert (H := cint_bounds (gk x) (gk_cont x) 0 1
                 (/ PI * (exp (- (x * x)) / 2)) (/ PI * exp (- (x * x) / 2))).
  assert (H' : / PI * (exp (- (x * x)) / 2) * (1 - 0) <= J3 x
               <= / PI * exp (- (x * x) / 2) * (1 - 0)).
  { apply H; [lra |]. intros t Ht. apply gk_bounds, Ht. }
  assert (HPI : 0 < / PI) by (apply Rinv_0_lt_compat, PI_RGT_0).
  pose proof (exp_pos (- (x * x))). split; [nra | lra].
Qed.

(** The distribution function takes its values strictly between 0 and 1. *)
Lemma norm_cdf_range (x : R) : 0 < norm_cdf x < 1.
Proof.
  pose proof (gauss_identity x). pose proof (J3_bounds x). nra.
Qed.

(** A tail bound: [cdf x <= exp (- x^2 / 2)] on the negative half-line. *)
Lemma norm_cdf_tail (x : R) : x <= 0 -> norm_cdf x <= exp (- (x * x) / 2).
Proof.
  intros Hx.
  assert (Hhalf : norm_cdf x <= 1 / 2).
  { destruct Hx as [Hx | ->]; [| rewrite norm_cdf_0; lra].
    pose proof (norm_cdf_increasing x 0 Hx). rewrite norm_cdf_0 in *. lra. }
  pose proof (gauss_identity x) as HG. pose proof (J3_bounds x) as HJ.
  pose proof (norm_cdf_range x) as HR.
  assert (HPI : / PI <= / 2).
  { apply Rinv_le_contravar; [lra |]. pose proof PI2_3_2. lra. }
  pose proof (exp_pos (- (x * x) / 2)) as He.
  assert (Hprod : norm_cdf x * (1 - norm_cdf x) = J3 x) by nra.
  assert (J3 x <= / 2 * exp (- (x * x) / 2)) by nra.
  nra.
Qed.

(** ** Positivity of the Black-Scholes prices *)

Lemma exp_neg_le_inv (y : R) : 0 < y -> exp (- y) <= / y.
Proof.
  intros Hy. rewrite exp_Ropp.
  apply Rinv_le_contravar; [exact Hy |].
  pose proof (exp_ineq1_le y). lra.
Qed.

(** Far in the lower tail the distribution function is small. *)
Lemma norm_cdf_tail_small (a v z : R) :
  0 < a -> 0 < v -> z <= - a / v -> norm_cdf z <= 2 * (v * v) / (a * a).
Proof.
  intros Ha Hv Hz.
  assert (Hav : 0 < a / v) by (apply Rdiv_lt_0_compat; assumption).
  assert (Hz0 : z <= 0) by (unfold Rdiv in *; lra).
  eapply Rle_trans; [apply norm_cdf_tail, Hz0 |].
  assert (Hzz : (a / v) * (a / v) <= z * z) by (unfold Rdiv in *; nra).
  assert (Hy : 0 < (a / v) * (a / v) / 2) by nra.
  apply Rle_trans with (exp (- ((a / v) * (a / v) / 2))).
  - destruct (Req_dec (- (z * z) / 2) (- ((a / v) * (a / v) / 2))) as [-> | Hne];
      [lra |]. left. apply exp_increasing. lra.
  - eapply Rle_trans; [apply exp_neg_le_inv, Hy |].
    right. field. split; lra.
Qed.

Section Positivity.

Variables (S K r q tau : R).
Hypotheses (HS : 0 < S) (HK : 0 < K) (Htau : 0 < tau).

(** The log-moneyness of the forward. *)
Definition log_forward : R := ln (S / K) + (r - q) * tau.

Lemma d1_of_split (sigma : R) :
  0 < sigma ->
  d1_of S K r q tau sigma = log_forward / (sigma * sqrt tau) + sigma * sqrt tau / 2.
Proof.
  intros Hs. pose proof (sqrt_tau_pos tau Htau) as Hst.
  assert (Hsq : sqrt tau * sqrt tau = tau) by (apply sqrt_sqrt; lra).
  unfold d1_of, log_forward. replace 0.5 with (/ 2) by lra.
  replace ((r - q + / 2 * sigma ^ 2) * tau)
    with ((r - q) * tau + sigma * sigma / 2 * (sqrt tau * sqrt tau))
    by (rewrite Hsq; field).
  field. split; lra.
Qed.

Lemma exp_log_forward :
  S * exp (- q * tau) = exp log_forward * (K * exp (- r * tau)).
Proof.
  unfold log_forward. rewrite exp_plus, exp_ln by (apply Rdiv_lt_0_compat; lra).
  replace ((r - q) * tau) with (- q * tau + - (- r * tau)) by ring.
  rewrite exp_plus, (exp_Ropp (- r * tau)).
  pose proof (exp_pos (- r * tau)). field. split; lra.
Qed.


(** A volatility below [sigma] that makes a tail term at most [delta]. *)
Lemma small_sigma (sigma delta a F : R) :
  0 < sigma -> 0 < delta -> 0 < a -> 0 < F ->
  exists sigma',
    0 < sigma' < sigma /\
    F * (2 * ((sigma' * sqrt tau) * (sigma' * sqrt tau)) / (a * a)) <= delta.
Proof.
  intros Hs Hd Ha HF.
  pose proof (sqrt_tau_pos tau Htau) as Hst.
  assert (Hsq : sqrt tau * sqrt tau = tau) by (apply sqrt_sqrt; lra).
  set (c := delta * (a * a) / (2 * F * tau)).
  assert (Hc : 0 < c).
  { unfold c. apply Rdiv_lt_0_compat.
    - apply Rmult_lt_0_compat; [lra | apply Rmult_lt_0_compat; lra].
    - apply Rmult_lt_0_compat; lra. }
  assert (Hs0 : 0 < sqrt c) by (apply sqrt_lt_R0, Hc).
  assert (Hs0q : sqrt c * sqrt c = c) by (apply sqrt_sqrt; lra).
  exists (Rmin (sigma / 2) (sqrt c)).
  assert (Hm1 : Rmin (sigma / 2) (sqrt c) <= sigma / 2) by apply Rmin_l.
  assert (Hm2 : Rmin (sigma / 2) (sqrt c) <= sqrt c) by apply Rmin_r.
  assert (Hm0 : 0 < Rmin (sigma / 2) (sqrt c)) by (apply Rmin_pos; lra).
  set (s' := Rmin (sigma / 2) (sqrt c)) in *.
  split; [lra |].
  assert (Hss : s' * s' <= c) by nra.
  replace (F * (2 * (s' * sqrt tau * (s' * sqrt tau)) / (a * a)))
    with ((s' * s') * (2 * F * tau / (a * a)))
    by (rewrite <- Hsq at 1; field; lra).
  assert (Hk : 0 < 2 * F * tau / (a * a)).
  { apply Rdiv_lt_0_compat; [| nra]. apply Rmult_lt_0_compat; lra. }
  apply Rle_trans with (c * (2 * F * tau / (a * a))).
  - apply Rmult_le_compat_r; lra.
  - right. unfold c. field. repeat split; lra.
Qed.

Lemma call_nonneg_below (sigma : R) :
  log_forward < 0 -> 0 < sigma -> 0 <= call_of S K r q tau sigma.
Proof.
  intros Hx Hs.
  destruct (Rle_lt_dec 0 (call_of S K r q tau sigma)) as [H | Hneg]; [exact H |].
  exfalso.
  set (delta := - call_of S K r q tau sigma).
  assert (Hd : 0 < delta) by (unfold delta; lra).
  assert (HF2 : 0 < K * exp (- r * tau))
    by (apply Rmult_lt_0_compat; [exact HK | apply exp_pos]).
  assert (HF1 : 0 < S * exp (- q * tau))
    by (apply Rmult_lt_0_compat; [exact HS | apply exp_pos]).
  destruct (small_sigma sigma delta (- log_forward) (K * exp (- r * tau)))
    as [s' [[Hs'0 Hs'1] Hsmall]]; try lra.
  pose proof (call_of_increasing S K r q tau HS HK Htau s' sigma Hs'0 Hs'1) as Hinc.
  pose proof (sqrt_tau_pos tau Htau) as Hst.
  assert (Hv : 0 < s' * sqrt tau) by (apply Rmult_lt_0_compat; lra).
  assert (Hd2 : d2_of S K r q tau s' <= - (- log_forward) / (s' * sqrt tau)).
  { unfold d2_of. rewrite d1_of_split by exact Hs'0.
    unfold Rdiv. rewrite Ropp_involutive. 
    assert (0 < / (s' * sqrt tau)) by (apply Rinv_0_lt_compat; lra). nra. }
  pose proof (norm_cdf_tail_small _ _ _ (Ropp_0_gt_lt_contravar _ Hx) Hv Hd2) as Ht.
  pose proof (norm_cdf_range (d1_of S K r q tau s')) as [Hp1 _].
  assert (Hlow : - delta <= call_of S K r q tau s').
  { unfold call_of.
    assert (K * exp (- r * tau) * norm_cdf (d2_of S K r q tau s') <= delta).
    { eapply Rle_trans; [| exact Hsmall]. apply Rmult_le_compat_l; lra. }
    assert (0 < S * exp (- q * tau) * norm_cdf (d1_of S K r q tau s'))
      by (apply Rmult_lt_0_compat; lra).
    lra. }
  unfold delta in Hlow. lra.
Qed.

Lemma put_nonneg_above (sigma : R) :
  0 < log_forward -> 0 < sigma ->
  0 <= call_of S K r q tau sigma - S * exp (- q * tau) + K * exp (- r * tau).
Proof.
  intros Hx Hs.
  set (put := fun s => call_of S K r q tau s - S * exp (- q * tau)
                       + K * exp (- r * tau)).
  fold (put sigma).
  destruct (Rle_lt_dec 0 (put sigma)) as [H | Hneg]; [exact H |].
  exfalso.
  set (delta := - put sigma).
  assert (Hd : 0 < delta) by (unfold delta; lra).
  assert (HF2 : 0 < K * exp (- r * tau))
    by (apply Rmult_lt_0_compat; [exact HK | apply exp_pos]).
  assert (HF1 : 0 < S * exp (- q * tau))
    by (apply Rmult_lt_0_compat; [exact HS | apply exp_pos]).
  destruct (small_sigma sigma delta log_forward (S * exp (- q * tau)))
    as [s' [[Hs'0 Hs'1] Hsmall]]; try lra.
  pose proof (call_of_increasing S K r q tau HS HK Htau s' sigma Hs'0 Hs'1) as Hinc.
  pose proof (sqrt_tau_pos tau Htau) as Hst.
  assert (Hv : 0 < s' * sqrt tau) by (apply Rmult_lt_0_compat; lra).
  assert (Hd1 : - d1_of S K r q tau s' <= - log_forward / (s' * sqrt tau)).
  { rewrite d1_of_split by exact Hs'0. unfold Rdiv. lra. }
  pose proof (norm_cdf_tail_small _ _ _ Hx Hv Hd1) as Ht.
  pose proof (norm_cdf_range (- d2_of S K r q tau s')) as [Hp2 _].
  assert (Hlow : - delta <= put s').
  { unfold put, call_of.
    pose proof (norm_cdf_opp (d1_of S K r q tau s')) as Ho1.
    pose proof (norm_cdf_opp (d2_of S K r q tau s')) as Ho2.
    assert (S * exp (- q * tau) * norm_cdf (- d1_of S K r q tau s') <= delta).
    { eapply Rle_trans; [| exact Hsmall]. apply Rmult_le_compat_l; lra. }
    assert (0 < K * exp (- r * tau) * norm_cdf (- d2_of S K r q tau s'))
      by (apply Rmult_lt_0_compat; lra).
    nra. }
  unfold delta, put in *. lra.
Qed.

(** The call is worth more than zero and more than the discounted forward
    payoff; it is worth less than the discounted spot. *)
Lemma call_of_bounds (sigma : R) :
  0 < sigma ->
  0 < call_of S K r q tau sigma /\
  S * exp (- q * tau) - K * exp (- r * tau) < call_of S K r q tau sigma /\
  call_of S K r q tau sigma < S * exp (- q * tau).
Proof.
  intros Hs.
  assert (HF2 : 0 < K * exp (- r * tau))
    by (apply Rmult_lt_0_compat; [exact HK | apply exp_pos]).
  assert (HF1 : 0 < S * exp (- q * tau))
    by (apply Rmult_lt_0_compat; [exact HS | apply exp_pos]).
  assert (Hup : call_of S K r q tau sigma < S * exp (- q * tau)).
  { unfold call_of.
    pose proof (norm_cdf_range (d1_of S K r q tau sigma)).
    pose proof (norm_cdf_range (d2_of S K r q tau sigma)). nra. }
  assert (Hhalf : 0 < sigma / 2 < sigma) by lra.
  pose proof (call_of_increasing S K r q tau HS HK Htau (sigma / 2) sigma
                (proj1 Hhalf) (proj2 Hhalf)) as Hinc.
  pose proof exp_log_forward as HF.
  destruct (Rtotal_order log_forward 0) as [Hx | [Hx | Hx]].
  - pose proof (call_nonneg_below (sigma / 2) Hx (proj1 Hhalf)).
    assert (exp log_forward < 1)
      by (rewrite <- exp_0; apply exp_increasing, Hx).
    repeat split; [lra | nra | exact Hup].
  - rewrite Hx, exp_0 in HF.
    assert (Hd : d2_of S K r q tau sigma < d1_of S K r q tau sigma).
    { unfold d2_of. pose proof (sqrt_tau_pos tau Htau). nra. }
    pose proof (norm_cdf_increasing _ _ Hd).
    assert (0 < call_of S K r q tau sigma).
    { unfold call_of. rewrite HF, Rmult_1_l.
      assert (0 < K * exp (- r * tau)
                  * (norm_cdf (d1_of S K r q tau sigma)
                     - norm_cdf (d2_of S K r q tau sigma)))
        by (apply Rmult_lt_0_compat; lra).
      lra. }
    repeat split; [lra | lra | exact Hup].
  - pose proof (put_nonneg_above (sigma / 2) Hx (proj1 Hhalf)).
    assert (1 < exp log_forward)
      by (rewrite <- exp_0; apply exp_increasing, Hx).
    repeat split; [nra | lra | exact Hup].
Qed.

End Positivity.

(** For a positive volatility and time to expiry the model price lies
    strictly inside the no-arbitrage bounds. *)
Lemma price_inside_bounds (S K r q tau sigma : R) (k : kind) :
  0 < S -> 0 < K -> 0 < tau -> 0 < sigma ->
  fst (arbitrage_bounds k S K r q tau)
    < black_scholes_price S K r q sigma tau (kind_str k)
    < snd (arbitrage_bounds k S K r q tau).
Proof.
  intros HS HK Htau Hs.
  destruct (call_of_bounds S K r q tau HS HK Htau sigma Hs) as (H0 & Hf & Hup).
  destruct k; simpl.
  - rewrite price_call_general by assumption.
    split; [apply Rmax_lub_lt; assumption | exact Hup].
  - rewrite price_put_general by assumption.
    split; [apply Rmax_lub_lt; lra | lra].
Qed.

(** ** Prices outside the no-arbitrage bounds *)



(** ** Round trip through the root-finder *)

Section RoundTrip.

Variables (S K r q tau : R) (k : kind).
Hypotheses (HS : 0 < S) (HK : 0 < K) (Htau : 0 < tau).

Lemma price_monotone (a b : R) :
  0 < a -> a <= b ->
  black_scholes_price S K r q a tau (kind_str k)
    <= black_scholes_price S K r q b tau (kind_str k).
Proof.
  intros Ha [Hab | <-]; [| lra].
  assert (Hb : 0 < b) by lra.
  pose proof (call_of_increasing S K r q tau HS HK Htau a b Ha Hab) as Hinc.
  destruct k.
  - rewrite !price_call_general by assumption. lra.
  - rewrite !price_put_general by assumption. lra.
Qed.

End RoundTrip.



(** ** A volatility above the bisection ceiling *)

(** With spot and strike 1, [r = -2], [q = 0] and one year to expiry,
    [d1 = sigma/2 - 2/sigma]. *)
Lemma d1_of_deep (s : R) : 0 < s -> d1_of 1 1 (-2) 0 1 s = s / 2 - 2 / s.
Proof.
  intros Hs. unfold d1_of.
  replace (1 / 1) with 1 by field. rewrite ln_1, sqrt_1.
  replace 0.5 with (/ 2) by lra. field. lra.
Qed.

Lemma exp_48_lower : 4294967296 <= exp 48.
Proof.
  assert (H3 : 4 <= exp 3) by (pose proof (exp_ineq1_le 3); lra).
  assert (H6 : 16 <= exp 6).
  { replace 6 with (3 + 3) by ring. rewrite exp_plus. nra. }
  assert (H12 : 256 <= exp 12).
  { replace 12 with (6 + 6) by ring. rewrite exp_plus. nra. }
  assert (H24 : 65536 <= exp 24).
  { replace 24 with (12 + 12) by ring. rewrite exp_plus. nra. }
  replace 48 with (24 + 24) by ring. rewrite exp_plus. nra.
Qed.

Lemma exp_5_upper : exp 5 <= 243.
Proof.
  pose proof exp_le_3 as H1. pose proof (exp_pos 1) as H0.
  assert (H2 : exp 2 <= 9).
  { replace 2 with (1 + 1) by ring. rewrite exp_plus. nra. }
  pose proof (exp_pos 2) as H02.
  assert (H4 : exp 4 <= 81).
  { replace 4 with (2 + 2) by ring. rewrite exp_plus. nra. }
  pose proof (exp_pos 4) as H04.
  replace 5 with (4 + 1) by ring. rewrite exp_plus. nra.
Qed.

Lemma sqrt_2PI_range : 1 <= sqrt (2 * PI) <= 3.
Proof.
  pose proof sqrt_2PI_sqr as Hq. pose proof sqrt_2PI_pos as Hp.
  pose proof PI_4 as H4. pose proof PI2_3_2 as H3. unfold PI2 in H3.
  split; nra.
Qed.

(** Vega at the starting volatility 0.2 is below the 1e-8 threshold. *)
Lemma deep_vega_flat : bsm_vega 1 1 (-2) 0 0.2 1 < 1e-8.
Proof.
  rewrite vega_general by lra.
  rewrite d1_of_deep by lra.
  replace (- 0 * 1) with 0 by ring. rewrite exp_0, sqrt_1.
  unfold norm_pdf.
  replace (- ((0.2 / 2 - 2 / 0.2) * (0.2 / 2 - 2 / 0.2)) / 2)
    with (- (48 + 1.005)) by lra.
  pose proof sqrt_2PI_range as [Hlo _].
  pose proof exp_48_lower as H48.
  assert (He : exp (- (48 + 1.005)) <= / exp 48).
  { rewrite <- exp_Ropp. left. apply exp_increasing. lra. }
  assert (Hi : / exp 48 <= / 4294967296).
  { apply Rinv_le_contravar; lra. }
  pose proof (exp_pos (- (48 + 1.005))) as Hpos.
  assert (Hd : exp (- (48 + 1.005)) / sqrt (2 * PI) <= exp (- (48 + 1.005))).
  { apply Rmult_le_reg_r with (sqrt (2 * PI)); [lra |].
    unfold Rdiv. rewrite Rmult_assoc, Rinv_l by lra. nra. }
  lra.
Qed.

(** Between the ceiling 5 and the volatility 6 vega is at least 1/729. *)
Lemma deep_vega_lower (c : R) :
  5 <= c <= 6 -> / 729 <= norm_pdf (d1_of 1 1 (-2) 0 1 c).
Proof.
  intros Hc. rewrite d1_of_deep by lra.
  set (d := c / 2 - 2 / c).
  assert (Hinv : 0 < / c <= / 5).
  { split; [apply Rinv_0_lt_compat; lra | apply Rinv_le_contravar; lra]. }
  assert (Hd : 0 <= d <= 3) by (unfold d, Rdiv; lra).
  unfold norm_pdf.
  pose proof sqrt_2PI_range as [Hlo Hhi].
  pose proof exp_5_upper as H5. pose proof (exp_pos 5) as H5p.
  assert (He : / 243 <= exp (- (d * d) / 2)).
  { apply Rle_trans with (/ exp 5); [apply Rinv_le_contravar; lra |].
    rewrite <- exp_Ropp.
    destruct (Req_dec (- (5)) (- (d * d) / 2)) as [-> | Hne]; [lra |].
    left. apply exp_increasing. nra. }
  assert (Hs : / 3 <= / sqrt (2 * PI)) by (apply Rinv_le_contravar; lra).
  unfold Rdiv.
  replace (/ 729) with (/ 243 * / 3) by lra.
  apply Rmult_le_compat; lra.
Qed.

Lemma deep_call_gap :
  / 729 <= call_of 1 1 (-2) 0 1 6 - call_of 1 1 (-2) 0 1 5.
Proof.
  destruct (MVT_cor2 (call_of 1 1 (-2) 0 1)
              (fun s => 1 * exp (- 0 * 1) * sqrt 1
                        * norm_pdf (d1_of 1 1 (-2) 0 1 s)) 5 6)
    as [c [Hc Hin]]; [lra | |].
  { intros c Hc. apply call_of_derivable; lra. }
  rewrite Hc.
  replace (- 0 * 1) with 0 by ring. rewrite exp_0, sqrt_1.
  pose proof (deep_vega_lower c). lra.
Qed.


(** * Further properties of the kernel *)

(** ** The Greeks in the general branch *)

Section GreeksGeneral.

Variables (S K r q sigma tau : R).
Hypotheses (HS : 0 < S) (HK : 0 < K) (Hsigma : 0 < sigma) (Htau : 0 < tau).

Lemma delta_general (k : kind) :
  bsm_delta S K r q sigma tau (kind_str k) =
  match k with
  | Call => exp (- q * tau) * norm_cdf (d1_of S K r q tau sigma)
  | Put => exp (- q * tau) * (norm_cdf (d1_of S K r q tau sigma) - 1)
  end.
Proof.
  unfold bsm_delta. destruct (Rle_dec tau 0); [lra |].
  rewrite d1_d2_general by assumption. destruct k; reflexivity.
Qed.

Lemma gamma_general :
  bsm_gamma S K r q sigma tau =
  exp (- q * tau) * norm_pdf (d1_of S K r q tau sigma) / (S * sigma * sqrt tau).
Proof.
  unfold bsm_gamma. destruct (Rle_dec tau 0); [lra |].
  destruct (Rle_dec sigma 0); [lra |].
  rewrite d1_d2_general by assumption. reflexivity.
Qed.

Lemma theta_general (k : kind) :
  bsm_theta S K r q sigma tau (kind_str k) =
  - (S * exp (- q * tau) * norm_pdf (d1_of S K r q tau sigma) * sigma)
    / (2 * sqrt tau)
  + match k with
    | Call => q * S * exp (- q * tau) * norm_cdf (d1_of S K r q tau sigma)
              - r * K * exp (- r * tau) * norm_cdf (d2_of S K r q tau sigma)
    | Put => - q * S * exp (- q * tau) * (1 - norm_cdf (d1_of S K r q tau sigma))
             + r * K * exp (- r * tau) * (1 - norm_cdf (d2_of S K r q tau sigma))
    end.
Proof.
  unfold bsm_theta. destruct (Rle_dec tau 0); [lra |].
  rewrite d1_d2_general by assumption.
  destruct k; simpl; [ring |]. rewrite !norm_cdf_opp. ring.
Qed.

Lemma rho_general (k : kind) :
  bsm_rho S K r q sigma tau (kind_str k) =
  match k with
  | Call => K * tau * exp (- r * tau) * norm_cdf (d2_of S K r q tau sigma)
  | Put => - K * tau * exp (- r * tau) * (1 - norm_cdf (d2_of S K r q tau sigma))
  end.
Proof.
  unfold bsm_rho. destruct (Rle_dec tau 0); [lra |].
  rewrite d1_d2_general by assumption.
  destruct k; simpl; [reflexivity |]. rewrite norm_cdf_opp. reflexivity.
Qed.

(** The price of either kind through the call formula. *)
Lemma price_general (k : kind) :
  black_scholes_price S K r q sigma tau (kind_str k) =
  call_of S K r q tau sigma
  - match k with
    | Call => 0
    | Put => S * exp (- q * tau) - K * exp (- r * tau)
    end.
Proof.
  destruct k.
  - rewrite price_call_general by assumption. ring.
  - rewrite price_put_general by assumption. ring.
Qed.

End GreeksGeneral.

(** A derivative depends on the function near the point only. *)
Lemma derivable_pt_lim_locally (f g : R -> R) (x l d : R) :
  0 < d -> (forall y, Rabs (y - x) < d -> f y = g y) ->
  derivable_pt_lim f x l -> derivable_pt_lim g x l.
Proof.
  intros Hd Heq Hf eps Heps.
  destruct (Hf eps Heps) as [d' Hd'].
  assert (Hm : 0 < Rmin d d') by (apply Rmin_pos; [exact Hd | apply cond_pos]).
  exists (mkposreal _ Hm). intros h Hh0 Hh. simpl in Hh.
  rewrite <- (Heq (x + h)), <- (Heq x).
  - apply Hd'; [exact Hh0 |]. eapply Rlt_le_trans; [exact Hh | apply Rmin_r].
  - replace (x - x) with 0 by ring. rewrite Rabs_R0. exact Hd.
  - replace (x + h - x) with h by ring.
    eapply Rlt_le_trans; [exact Hh | apply Rmin_l].
Qed.

(** Near a positive point the neighbours are positive. *)
Lemma near_positive (x y : R) : 0 < x -> Rabs (y - x) < x -> 0 < y.
Proof. intros Hx Hy. apply Rabs_def2 in Hy. lra. Qed.

(** X1: vega is the derivative of the price in the volatility. *)
Theorem vega_is_volatility_derivative (S K r q sigma tau : R) (k : kind) :
  0 < S -> 0 < K -> 0 < sigma -> 0 < tau ->
  derivable_pt_lim (fun s => black_scholes_price S K r q s tau (kind_str k)) sigma
    (bsm_vega S K r q sigma tau).
Proof.
  intros HS HK Hs Htau.
  rewrite vega_general by assumption.
  set (c := match k with
            | Call => 0
            | Put => S * exp (- q * tau) - K * exp (- r * tau)
            end).
  apply derivable_pt_lim_locally
    with (f := fun s => call_of S K r q tau s - c) (d := sigma); [exact Hs | |].
  - intros y Hy. symmetry. apply price_general; try assumption.
    apply (near_positive sigma); assumption.
  - pose proof (call_of_derivable S K r q tau HS HK Htau sigma Hs) as H.
    pose proof (derivable_pt_lim_minus _ (fun _ => c) _ _ _ H
                  (derivable_pt_lim_const c sigma)) as H'.
    eapply derivable_pt_lim_ext; [| | exact H'].
    + intro y. reflexivity.
    + ring.
Qed.

Lemma vega_is_volatility_derivative_witness :
  derivable_pt_lim (fun s => black_scholes_price 100 110 0.05 0.01 s 1 (kind_str Put))
    0.2 (bsm_vega 100 110 0.05 0.01 0.2 1).
Proof.
  apply (vega_is_volatility_derivative 100 110 0.05 0.01 0.2 1 Put); lra.
Defined.

(** ** Sensitivity to the spot *)

(** [d1] as a function of the spot. *)
Lemma d1_of_spot_derivable (S K r q tau sigma : R) :
  0 < S -> 0 < K -> 0 < sigma -> 0 < tau ->
  derivable_pt_lim (fun s => d1_of s K r q tau sigma) S (/ (S * sigma * sqrt tau)).
Proof.
  intros HS HK Hs Htau.
  assert (Hst : 0 < sqrt tau) by (apply sqrt_lt_R0, Htau).
  assert (Hln : derivable_pt_lim (fun s => ln (s / K)) S (/ S)).
  { assert (H1 : derivable_pt_lim (fun s => s * / K) S (1 * / K + S * 0)).
    { apply (derivable_pt_lim_mult id (fun _ => / K));
        [apply derivable_pt_lim_id | apply derivable_pt_lim_const]. }
    assert (H2 : derivable_pt_lim ln (S * / K) (/ (S * / K))).
    { apply derivable_pt_lim_ln. apply Rmult_lt_0_compat;
        [exact HS | apply Rinv_0_lt_compat, HK]. }
    pose proof (derivable_pt_lim_comp _ _ _ _ _ H1 H2) as H.
    eapply derivable_pt_lim_ext; [| | exact H].
    - intro y. reflexivity.
    - field. split; lra. }
  set (c := (r - q + 0.5 * sigma ^ 2) * tau).
  pose proof (derivable_pt_lim_plus _ (fun _ => c) _ _ _ Hln
                (derivable_pt_lim_const c S)) as Hnum.
  pose proof (derivable_pt_lim_scal _ (/ (sigma * sqrt tau)) _ _ Hnum) as H.
  eapply derivable_pt_lim_ext; [| | exact H].
  - intro y. unfold d1_of, mult_real_fct, plus_fct, c. field. split; lra.
  - field. repeat split; lra.
Qed.

Lemma call_of_spot_derivable (S K r q tau sigma : R) :
  0 < S -> 0 < K -> 0 < sigma -> 0 < tau ->
  derivable_pt_lim (fun s => call_of s K r q tau sigma) S
    (exp (- q * tau) * norm_cdf (d1_of S K r q tau sigma)).
Proof.
  intros HS HK Hs Htau.
  pose proof (d1_of_spot_derivable S K r q tau sigma HS HK Hs Htau) as Hd1.
  set (l := / (S * sigma * sqrt tau)) in *.
  assert (Hd2 : derivable_pt_lim (fun s => d2_of s K r q tau sigma) S l).
  { pose proof (derivable_pt_lim_minus _ (fun _ => sigma * sqrt tau) _ _ _ Hd1
                  (derivable_pt_lim_const (sigma * sqrt tau) S)) as H.
    eapply derivable_pt_lim_ext; [| | exact H].
    - intro y. reflexivity.
    - ring. }
  assert (H1 : derivable_pt_lim (fun s => norm_cdf (d1_of s K r q tau sigma)) S
                 (norm_pdf (d1_of S K r q tau sigma) * l)).
  { apply (derivable_pt_lim_comp (fun s => d1_of s K r q tau sigma) norm_cdf);
      [exact Hd1 | apply norm_cdf_derivable]. }
  assert (H2 : derivable_pt_lim (fun s => norm_cdf (d2_of s K r q tau sigma)) S
                 (norm_pdf (d2_of S K r q tau sigma) * l)).
  { apply (derivable_pt_lim_comp (fun s => d2_of s K r q tau sigma) norm_cdf);
      [exact Hd2 | apply norm_cdf_derivable]. }
  assert (Hlin : derivable_pt_lim (fun s => s * exp (- q * tau)) S
                   (1 * exp (- q * tau) + S * 0)).
  { apply (derivable_pt_lim_mult id (fun _ => exp (- q * tau)));
      [apply derivable_pt_lim_id | apply derivable_pt_lim_const]. }
  pose proof (derivable_pt_lim_mult _ _ _ _ _ Hlin H1) as Ha.
  apply (derivable_pt_lim_scal _ (K * exp (- r * tau))) in H2.
  pose proof (derivable_pt_lim_minus _ _ _ _ _ Ha H2) as H.
  eapply derivable_pt_lim_ext; [| | exact H].
  - intro y. reflexivity.
  - pose proof (pdf_d1_d2 S K r q tau HS HK Htau sigma Hs) as Hid.
    transitivity
      (exp (- q * tau) * norm_cdf (d1_of S K r q tau sigma)
       + (S * exp (- q * tau) * norm_pdf (d1_of S K r q tau sigma)
          - K * exp (- r * tau) * norm_pdf (d2_of S K r q tau sigma)) * l);
      [ring |].
    rewrite <- Hid. ring.
Qed.

(** X2: delta is the derivative of the price in the spot. *)
Theorem delta_is_spot_derivative (S K r q sigma tau : R) (k : kind) :
  0 < S -> 0 < K -> 0 < sigma -> 0 < tau ->
  derivable_pt_lim (fun s => black_scholes_price s K r q sigma tau (kind_str k)) S
    (bsm_delta S K r q sigma tau (kind_str k)).
Proof.
  intros HS HK Hs Htau.
  rewrite delta_general by assumption.
  apply derivable_pt_lim_locally
    with (f := fun s => call_of s K r q tau sigma
                        - match k with
                          | Call => 0
                          | Put => s * exp (- q * tau) - K * exp (- r * tau)
                          end) (d := S); [exact HS | |].
  - intros y Hy. symmetry. apply price_general; try assumption.
    apply (near_positive S); assumption.
  - pose proof (call_of_spot_derivable S K r q tau sigma HS HK Hs Htau) as H.
    destruct k.
    + pose proof (derivable_pt_lim_minus _ (fun _ => 0) _ _ _ H
                    (derivable_pt_lim_const 0 S)) as H'.
      eapply derivable_pt_lim_ext; [| | exact H'].
      * intro y. reflexivity.
      * ring.
    + assert (Hlin : derivable_pt_lim
                (fun s => s * exp (- q * tau) - K * exp (- r * tau)) S
                (1 * exp (- q * tau) + S * 0 - 0)).
      { apply (derivable_pt_lim_minus (fun s => s * exp (- q * tau))
                 (fun _ => K * exp (- r * tau))).
        - apply (derivable_pt_lim_mult id (fun _ => exp (- q * tau)));
            [apply derivable_pt_lim_id | apply derivable_pt_lim_const].
        - apply derivable_pt_lim_const. }
      pose proof (derivable_pt_lim_minus _ _ _ _ _ H Hlin) as H'.
      eapply derivable_pt_lim_ext; [| | exact H'].
      * intro y. reflexivity.
      * ring.
Qed.

Lemma delta_is_spot_derivative_witness :
  derivable_pt_lim (fun s => black_scholes_price s 110 0.05 0.01 0.2 1 (kind_str Put))
    100 (bsm_delta 100 110 0.05 0.01 0.2 1 (kind_str Put)).
Proof.
  apply (delta_is_spot_derivative 100 110 0.05 0.01 0.2 1 Put); lra.
Defined.

(** X3: gamma is the derivative of delta in the spot. *)
Theorem gamma_is_delta_derivative (S K r q sigma tau : R) (k : kind) :
  0 < S -> 0 < K -> 0 < sigma -> 0 < tau ->
  derivable_pt_lim (fun s => bsm_delta s K r q sigma tau (kind_str k)) S
    (bsm_gamma S K r q sigma tau).
Proof.
  intros HS HK Hs Htau.
  rewrite gamma_general by assumption.
  assert (Hst : 0 < sqrt tau) by (apply sqrt_lt_R0, Htau).
  apply derivable_pt_lim_locally
    with (f := fun s => exp (- q * tau) * norm_cdf (d1_of s K r q tau sigma)
                        - match k with
                          | Call => 0
                          | Put => exp (- q * tau)
                          end) (d := S); [exact HS | |].
  - intros y Hy. rewrite delta_general; try assumption.
    + destruct k; ring.
    + apply (near_positive S); assumption.
  - pose proof (d1_of_spot_derivable S K r q tau sigma HS HK Hs Htau) as Hd1.
    assert (H1 : derivable_pt_lim (fun s => norm_cdf (d1_of s K r q tau sigma)) S
                   (norm_pdf (d1_of S K r q tau sigma) * / (S * sigma * sqrt tau))).
    { apply (derivable_pt_lim_comp (fun s => d1_of s K r q tau sigma) norm_cdf);
        [exact Hd1 | apply norm_cdf_derivable]. }
    apply (derivable_pt_lim_scal _ (exp (- q * tau))) in H1.
    set (c := match k with Call => 0 | Put => exp (- q * tau) end).
    pose proof (derivable_pt_lim_minus _ (fun _ => c) _ _ _ H1
                  (derivable_pt_lim_const c S)) as H'.
    eapply derivable_pt_lim_ext; [| | exact H'].
    + intro y. reflexivity.
    + field. repeat split; lra.
Qed.

Lemma gamma_is_delta_derivative_witness :
  derivable_pt_lim (fun s => bsm_delta s 110 0.05 0.01 0.2 1 (kind_str Call))
    100 (bsm_gamma 100 110 0.05 0.01 0.2 1).
Proof.
  apply (gamma_is_delta_derivative 100 110 0.05 0.01 0.2 1 Call); lra.
Defined.

(** ** Sensitivity to the rate and to time *)

Lemma exp_lin_derivable (a x : R) :
  derivable_pt_lim (fun t => exp (- a * t)) x (- a * exp (- a * x)).
Proof.
  assert (H1 : derivable_pt_lim (fun t => - a * t) x (- a * 1)).
  { apply (derivable_pt_lim_scal id (- a)). apply derivable_pt_lim_id. }
  pose proof (derivable_pt_lim_comp _ _ _ _ _ H1 (derivable_pt_lim_exp (- a * x))) as H.
  eapply derivable_pt_lim_ext; [| | exact H].
  - intro y. reflexivity.
  - ring.
Qed.

(** [d1] as a function of the rate. *)
Lemma d1_of_rate_derivable (S K r q tau sigma : R) :
  0 < sigma -> 0 < tau ->
  derivable_pt_lim (fun x => d1_of S K x q tau sigma) r (tau / (sigma * sqrt tau)).
Proof.
  intros Hs Htau.
  assert (Hst : 0 < sqrt tau) by (apply sqrt_lt_R0, Htau).
  assert (H1 : derivable_pt_lim
                 (fun x => / (sigma * sqrt tau) * tau * x
                           + (ln (S / K) + (- q + 0.5 * sigma ^ 2) * tau)
                             / (sigma * sqrt tau)) r
                 (/ (sigma * sqrt tau) * tau * 1 + 0)).
  { apply (derivable_pt_lim_plus (fun x => / (sigma * sqrt tau) * tau * x)
             (fun _ => (ln (S / K) + (- q + 0.5 * sigma ^ 2) * tau)
                       / (sigma * sqrt tau))).
    - apply (derivable_pt_lim_scal id (/ (sigma * sqrt tau) * tau)).
      apply derivable_pt_lim_id.
    - apply derivable_pt_lim_const. }
  eapply derivable_pt_lim_ext; [| | exact H1].
  - intro y. unfold d1_of. field. split; lra.
  - field. split; lra.
Qed.

Lemma call_of_rate_derivable (S K r q tau sigma : R) :
  0 < S -> 0 < K -> 0 < sigma -> 0 < tau ->
  derivable_pt_lim (fun x => call_of S K x q tau sigma) r
    (K * tau * exp (- r * tau) * norm_cdf (d2_of S K r q tau sigma)).
Proof.
  intros HS HK Hs Htau.
  pose proof (d1_of_rate_derivable S K r q tau sigma Hs Htau) as Hd1.
  set (l := tau / (sigma * sqrt tau)) in *.
  assert (Hd2 : derivable_pt_lim (fun x => d2_of S K x q tau sigma) r l).
  { pose proof (derivable_pt_lim_minus _ (fun _ => sigma * sqrt tau) _ _ _ Hd1
                  (derivable_pt_lim_const (sigma * sqrt tau) r)) as H.
    eapply derivable_pt_lim_ext; [| | exact H].
    - intro y. reflexivity.
    - ring. }
  assert (H1 : derivable_pt_lim (fun x => norm_cdf (d1_of S K x q tau sigma)) r
                 (norm_pdf (d1_of S K r q tau sigma) * l)).
  { apply (derivable_pt_lim_comp (fun x => d1_of S K x q tau sigma) norm_cdf);
      [exact Hd1 | apply norm_cdf_derivable]. }
  assert (H2 : derivable_pt_lim (fun x => norm_cdf (d2_of S K x q tau sigma)) r
                 (norm_pdf (d2_of S K r q tau sigma) * l)).
  { apply (derivable_pt_lim_comp (fun x => d2_of S K x q tau sigma) norm_cdf);
      [exact Hd2 | apply norm_cdf_derivable]. }
  assert (HE : derivable_pt_lim (fun x => exp (- x * tau)) r
                 (- tau * exp (- r * tau))).
  { pose proof (exp_lin_derivable tau r) as H.
    eapply derivable_pt_lim_ext; [| | exact H].
    - intro y. apply (f_equal exp). ring.
    - apply (f_equal (fun z => - tau * exp z)). ring. }
  apply (derivable_pt_lim_scal _ (S * exp (- q * tau))) in H1.
  pose proof (derivable_pt_lim_mult _ _ _ _ _ HE H2) as Hb.
  apply (derivable_pt_lim_scal _ K) in Hb.
  pose proof (derivable_pt_lim_minus _ _ _ _ _ H1 Hb) as H.
  eapply derivable_pt_lim_ext; [| | exact H].
  - intro y. unfold call_of, mult_real_fct, minus_fct, mult_fct. ring.
  - pose proof (pdf_d1_d2 S K r q tau HS HK Htau sigma Hs) as Hid.
    transitivity
      (K * tau * exp (- r * tau) * norm_cdf (d2_of S K r q tau sigma)
       + (S * exp (- q * tau) * norm_pdf (d1_of S K r q tau sigma)
          - K * exp (- r * tau) * norm_pdf (d2_of S K r q tau sigma)) * l);
      [ring |].
    rewrite <- Hid. ring.
Qed.

(** X4: rho is the derivative of the price in the risk-free rate. *)
Theorem rho_is_rate_derivative (S K r q sigma tau : R) (k : kind) :
  0 < S -> 0 < K -> 0 < sigma -> 0 < tau ->
  derivable_pt_lim (fun x => black_scholes_price S K x q sigma tau (kind_str k)) r
    (bsm_rho S K r q sigma tau (kind_str k)).
Proof.
  intros HS HK Hs Htau.
  rewrite rho_general by assumption.
  pose proof (call_of_rate_derivable S K r q tau sigma HS HK Hs Htau) as H.
  destruct k.
  - eapply derivable_pt_lim_ext; [| | exact H].
    + intro y. symmetry. apply price_call_general; assumption.
    + reflexivity.
  - assert (HE : derivable_pt_lim (fun x => exp (- x * tau)) r
                   (- tau * exp (- r * tau))).
    { pose proof (exp_lin_derivable tau r) as H'.
      eapply derivable_pt_lim_ext; [| | exact H'].
      - intro y. apply (f_equal exp). ring.
      - apply (f_equal (fun z => - tau * exp z)). ring. }
    apply (derivable_pt_lim_scal _ K) in HE.
    pose proof (derivable_pt_lim_plus _ _ _ _ _ H HE) as H1.
    pose proof (derivable_pt_lim_minus _ (fun _ => S * exp (- q * tau)) _ _ _ H1
                  (derivable_pt_lim_const (S * exp (- q * tau)) r)) as H2.
    eapply derivable_pt_lim_ext; [| | exact H2].
    + intro y. rewrite price_put_general by assumption.
      unfold minus_fct, plus_fct, mult_real_fct. ring.
    + ring.
Qed.

Lemma rho_is_rate_derivative_witness :
  derivable_pt_lim (fun x => black_scholes_price 100 110 x 0.01 0.2 1 (kind_str Put))
    0.05 (bsm_rho 100 110 0.05 0.01 0.2 1 (kind_str Put)).
Proof.
  apply (rho_is_rate_derivative 100 110 0.05 0.01 0.2 1 Put); lra.
Defined.

(** [d1] as a function of the time to expiry. *)
Lemma d1_of_time_derivable (S K r q tau sigma : R) :
  0 < sigma -> 0 < tau ->
  derivable_pt (fun t => d1_of S K r q t sigma) tau.
Proof.
  intros Hs Htau.
  assert (Hst : 0 < sqrt tau) by (apply sqrt_lt_R0, Htau).
  unfold d1_of.
  apply (derivable_pt_div
           (fun t => ln (S / K) + (r - q + 0.5 * sigma ^ 2) * t)
           (fun t => sigma * sqrt t)).
  - apply derivable_pt_plus; [apply derivable_pt_const |].
    apply derivable_pt_mult; [apply derivable_pt_const | apply derivable_pt_id].
  - apply derivable_pt_mult; [apply derivable_pt_const |].
    apply derivable_pt_sqrt, Htau.
  - apply Rgt_not_eq. apply Rmult_lt_0_compat; lra.
Qed.

Lemma call_of_time_derivable (S K r q tau sigma : R) :
  0 < S -> 0 < K -> 0 < sigma -> 0 < tau ->
  derivable_pt_lim (fun t => call_of S K r q t sigma) tau
    (S * exp (- q * tau) * norm_pdf (d1_of S K r q tau sigma) * sigma
       / (2 * sqrt tau)
     - q * S * exp (- q * tau) * norm_cdf (d1_of S K r q tau sigma)
     + r * K * exp (- r * tau) * norm_cdf (d2_of S K r q tau sigma)).
Proof.
  intros HS HK Hs Htau.
  assert (Hst : 0 < sqrt tau) by (apply sqrt_lt_R0, Htau).
  destruct (d1_of_time_derivable S K r q tau sigma Hs Htau) as [l Hd1].
  assert (Hsq : derivable_pt_lim (fun t => sigma * sqrt t) tau
                  (sigma * / (2 * sqrt tau))).
  { apply (derivable_pt_lim_scal sqrt sigma). apply derivable_pt_lim_sqrt, Htau. }
  assert (Hd2 : derivable_pt_lim (fun t => d2_of S K r q t sigma) tau
                  (l - sigma * / (2 * sqrt tau))).
  { exact (derivable_pt_lim_minus _ _ _ _ _ Hd1 Hsq). }
  assert (H1 : derivable_pt_lim (fun t => norm_cdf (d1_of S K r q t sigma)) tau
                 (norm_pdf (d1_of S K r q tau sigma) * l)).
  { apply (derivable_pt_lim_comp (fun t => d1_of S K r q t sigma) norm_cdf);
      [exact Hd1 | apply norm_cdf_derivable]. }
  assert (H2 : derivable_pt_lim (fun t => norm_cdf (d2_of S K r q t sigma)) tau
                 (norm_pdf (d2_of S K r q tau sigma)
                  * (l - sigma * / (2 * sqrt tau)))).
  { apply (derivable_pt_lim_comp (fun t => d2_of S K r q t sigma) norm_cdf);
      [exact Hd2 | apply norm_cdf_derivable]. }
  pose proof (derivable_pt_lim_mult _ _ _ _ _ (exp_lin_derivable q tau) H1) as Ha.
  pose proof (derivable_pt_lim_mult _ _ _ _ _ (exp_lin_derivable r tau) H2) as Hb.
  apply (derivable_pt_lim_scal _ S) in Ha.
  apply (derivable_pt_lim_scal _ K) in Hb.
  pose proof (derivable_pt_lim_minus _ _ _ _ _ Ha Hb) as H.
  eapply derivable_pt_lim_ext; [| | exact H].
  - intro y. unfold call_of, mult_real_fct, minus_fct, mult_fct. ring.
  - pose proof (pdf_d1_d2 S K r q tau HS HK Htau sigma Hs) as Hid.
    transitivity
      (K * exp (- r * tau) * norm_pdf (d2_of S K r q tau sigma) * sigma
         / (2 * sqrt tau)
       - q * S * exp (- q * tau) * norm_cdf (d1_of S K r q tau sigma)
       + r * K * exp (- r * tau) * norm_cdf (d2_of S K r q tau sigma)
       + (S * exp (- q * tau) * norm_pdf (d1_of S K r q tau sigma)
          - K * exp (- r * tau) * norm_pdf (d2_of S K r q tau sigma)) * l).
    + field. lra.
    + rewrite <- Hid. field. lra.
Qed.

(** X5: theta is the derivative of the price in calendar time, that is the
    opposite of its derivative in the time to expiry. *)
Theorem theta_is_time_decay (S K r q sigma tau : R) (k : kind) :
  0 < S -> 0 < K -> 0 < sigma -> 0 < tau ->
  derivable_pt_lim (fun t => black_scholes_price S K r q sigma t (kind_str k)) tau
    (- bsm_theta S K r q sigma tau (kind_str k)).
Proof.
  intros HS HK Hs Htau.
  rewrite theta_general by assumption.
  assert (Hst : 0 < sqrt tau) by (apply sqrt_lt_R0, Htau).
  pose proof (call_of_time_derivable S K r q tau sigma HS HK Hs Htau) as H.
  apply derivable_pt_lim_locally
    with (f := fun t => call_of S K r q t sigma
                        - match k with
                          | Call => 0
                          | Put => S * exp (- q * t) - K * exp (- r * t)
                          end) (d := tau); [exact Htau | |].
  - intros y Hy. symmetry. apply price_general; try assumption.
    apply (near_positive tau); assumption.
  - destruct k.
    + pose proof (derivable_pt_lim_minus _ (fun _ => 0) _ _ _ H
                    (derivable_pt_lim_const 0 tau)) as H'.
      eapply derivable_pt_lim_ext; [| | exact H'].
      * intro y. reflexivity.
      * field. lra.
    + pose proof (exp_lin_derivable q tau) as Hq.
      pose proof (exp_lin_derivable r tau) as Hr.
      apply (derivable_pt_lim_scal _ S) in Hq.
      apply (derivable_pt_lim_scal _ K) in Hr.
      pose proof (derivable_pt_lim_minus _ _ _ _ _ Hq Hr) as Hlin.
      pose proof (derivable_pt_lim_minus _ _ _ _ _ H Hlin) as H'.
      eapply derivable_pt_lim_ext; [| | exact H'].
      * intro y. reflexivity.
      * field. lra.
Qed.

Lemma theta_is_time_decay_witness :
  derivable_pt_lim (fun t => black_scholes_price 100 110 0.05 0.01 0.2 t (kind_str Call))
    1 (- bsm_theta 100 110 0.05 0.01 0.2 1 (kind_str Call)).
Proof.
  apply (theta_is_time_decay 100 110 0.05 0.01 0.2 1 Call); lra.
Defined.

(** ** Signs and ranges of the Greeks *)

(** X6: for positive spot, strike, volatility and time to expiry, gamma is
    not negative, the delta of a call lies between 0 and [e^(-q tau)], the
    delta of a put between [-e^(-q tau)] and 0, and rho is not negative for a
    call and not positive for a put. *)
Theorem greeks_ranges (S K r q sigma tau : R) :
  0 < S -> 0 < K -> 0 < sigma -> 0 < tau ->
  0 <= bsm_gamma S K r q sigma tau /\
  0 <= bsm_delta S K r q sigma tau (kind_str Call) <= exp (- q * tau) /\
  - exp (- q * tau) <= bsm_delta S K r q sigma tau (kind_str Put) <= 0 /\
  0 <= bsm_rho S K r q sigma tau (kind_str Call) /\
  bsm_rho S K r q sigma tau (kind_str Put) <= 0.
Proof.
  intros HS HK Hs Htau.
  assert (Hst : 0 < sqrt tau) by (apply sqrt_lt_R0, Htau).
  pose proof (exp_pos (- q * tau)) as Hq.
  pose proof (exp_pos (- r * tau)) as Hr.
  pose proof (norm_pdf_pos (d1_of S K r q tau sigma)) as Hpdf.
  pose proof (norm_cdf_range (d1_of S K r q tau sigma)) as Hc1.
  pose proof (norm_cdf_range (d2_of S K r q tau sigma)) as Hc2.
  rewrite gamma_general by assumption.
  rewrite (delta_general S K r q sigma tau HS HK Hs Htau Call).
  rewrite (delta_general S K r q sigma tau HS HK Hs Htau Put).
  rewrite (rho_general S K r q sigma tau HS HK Hs Htau Call).
  rewrite (rho_general S K r q sigma tau HS HK Hs Htau Put).
  assert (HKt : 0 < K * tau * exp (- r * tau)).
  { apply Rmult_lt_0_compat; [apply Rmult_lt_0_compat |]; assumption. }
  assert (HD : 0 < S * sigma * sqrt tau).
  { apply Rmult_lt_0_compat; [apply Rmult_lt_0_compat |]; assumption. }
  repeat split.
  - left. apply Rdiv_lt_0_compat; [apply Rmult_lt_0_compat; assumption | exact HD].
  - nra.
  - nra.
  - nra.
  - nra.
  - nra.
  - nra.
Qed.

Lemma greeks_ranges_witness :
  0 <= bsm_gamma 100 110 0.05 0.01 0.2 1 /\
  0 <= bsm_delta 100 110 0.05 0.01 0.2 1 (kind_str Call) <= exp (- (0.01) * 1) /\
  - exp (- (0.01) * 1) <= bsm_delta 100 110 0.05 0.01 0.2 1 (kind_str Put) <= 0 /\
  0 <= bsm_rho 100 110 0.05 0.01 0.2 1 (kind_str Call) /\
  bsm_rho 100 110 0.05 0.01 0.2 1 (kind_str Put) <= 0.
Proof.
  apply (greeks_ranges 100 110 0.05 0.01 0.2 1); lra.
Defined.

(** ** Non-positive spot or strike *)

Lemma d1_d2_degenerate (S K r q sigma tau : R) :
  S <= 0 \/ K <= 0 -> _d1_d2 S K r q sigma tau = (PosInf, PosInf).
Proof.
  intros H. unfold _d1_d2.
  destruct (Rle_dec tau 0); [reflexivity |].
  destruct (Rle_dec sigma 0); [reflexivity |].
  destruct (Rle_dec S 0); [reflexivity |].
  destruct (Rle_dec K 0); [reflexivity | lra].
Qed.

Lemma vega_degenerate (S K r q sigma tau : R) :
  S <= 0 \/ K <= 0 -> bsm_vega S K r q sigma tau = 0.
Proof.
  intros H. unfold bsm_vega.
  destruct (Rle_dec tau 0); [reflexivity |].
  destruct (Rle_dec sigma 0); [reflexivity |].
  rewrite d1_d2_degenerate by assumption. simpl. ring.
Qed.

(** X7: with positive volatility and time to expiry and a spot or a strike
    that is not positive, [_d1_d2] answers (inf, inf): the call is priced at
    [S e^(-q tau) - K e^(-r tau)] without a floor at zero and the put at 0.
    With [S <= 0 < K] the call price is negative. *)
Theorem degenerate_spot_or_strike (S K r q sigma tau : R) :
  0 < sigma -> 0 < tau -> S <= 0 \/ K <= 0 ->
  black_scholes_price S K r q sigma tau (kind_str Call)
    = S * exp (- q * tau) - K * exp (- r * tau) /\
  black_scholes_price S K r q sigma tau (kind_str Put) = 0 /\
  (S <= 0 -> 0 < K -> black_scholes_price S K r q sigma tau (kind_str Call) < 0).
Proof.
  intros Hs Htau Hdeg.
  assert (Hcall : black_scholes_price S K r q sigma tau (kind_str Call)
                  = S * exp (- q * tau) - K * exp (- r * tau)).
  { unfold black_scholes_price.
    destruct (Rle_dec tau 0); [lra |]. destruct (Rle_dec sigma 0); [lra |].
    rewrite d1_d2_degenerate by assumption. simpl. ring. }
  split; [exact Hcall |]. split.
  - unfold black_scholes_price.
    destruct (Rle_dec tau 0); [lra |]. destruct (Rle_dec sigma 0); [lra |].
    rewrite d1_d2_degenerate by assumption. simpl. ring.
  - intros HS HK. rewrite Hcall.
    pose proof (exp_pos (- q * tau)). pose proof (exp_pos (- r * tau)). nra.
Qed.

Lemma degenerate_spot_or_strike_witness :
  black_scholes_price 0 100 0.05 0 0.2 1 (kind_str Call)
    = 0 * exp (- 0 * 1) - 100 * exp (- (0.05) * 1) /\
  black_scholes_price 0 100 0.05 0 0.2 1 (kind_str Put) = 0 /\
  (0 <= 0 -> 0 < 100 -> black_scholes_price 0 100 0.05 0 0.2 1 (kind_str Call) < 0).
Proof.
  apply (degenerate_spot_or_strike 0 100 0.05 0 0.2 1); lra.
Defined.

(** X8: vega is never negative, and it is zero as soon as the spot, the
    strike, the volatility or the time to expiry is not positive. *)
Theorem vega_nonnegative (S K r q sigma tau : R) :
  0 <= bsm_vega S K r q sigma tau /\
  (S <= 0 \/ K <= 0 \/ sigma <= 0 \/ tau <= 0 -> bsm_vega S K r q sigma tau = 0).
Proof.
  assert (Hzero : S <= 0 \/ K <= 0 \/ sigma <= 0 \/ tau <= 0 ->
                  bsm_vega S K r q sigma tau = 0).
  { intros Hn.
    destruct (Rle_dec tau 0) as [Ht | Ht].
    { unfold bsm_vega. destruct (Rle_dec tau 0); [reflexivity | contradiction]. }
    destruct (Rle_dec sigma 0) as [Hs | Hs].
    { unfold bsm_vega. destruct (Rle_dec tau 0); [reflexivity |].
      destruct (Rle_dec sigma 0); [reflexivity | contradiction]. }
    apply vega_degenerate.
    destruct Hn as [H | [H | [H | H]]];
      [left; exact H | right; exact H | contradiction | contradiction]. }
  split; [| exact Hzero].
  destruct (Rlt_dec 0 S) as [HS | HS]; [| rewrite Hzero; lra].
  destruct (Rlt_dec 0 K) as [HK | HK]; [| rewrite Hzero; lra].
  destruct (Rlt_dec 0 sigma) as [Hs | Hs]; [| rewrite Hzero; lra].
  destruct (Rlt_dec 0 tau) as [Ht | Ht]; [| rewrite Hzero; lra].
  rewrite vega_general by assumption.
  pose proof (norm_pdf_pos (d1_of S K r q tau sigma)).
  pose proof (exp_pos (- q * tau)).
  assert (0 < sqrt tau) by (apply sqrt_lt_R0, Ht).
  left. apply Rmult_lt_0_compat; [| assumption].
  apply Rmult_lt_0_compat; [apply Rmult_lt_0_compat |]; assumption.
Qed.

(** ** Zero volatility and the no-arbitrage bounds *)

(** X9: for positive spot, strike and time to expiry, the price at a
    volatility that is zero or negative is the lower bound of [_price_bounds],
    and no volatility gives a price above the upper bound. *)
Theorem zero_volatility_is_lower_bound (S K r q tau sigma0 sigma : R) (k : kind) :
  0 < S -> 0 < K -> 0 < tau -> sigma0 <= 0 ->
  exists ub,
    _price_bounds S K r q tau (kind_str k)
      = Ok (black_scholes_price S K r q sigma0 tau (kind_str k), ub) /\
    black_scholes_price S K r q sigma tau (kind_str k) <= ub.
Proof.
  intros HS HK Htau Hs0.
  rewrite price_bounds_kind.
  assert (Hlow : forall s, s <= 0 ->
            black_scholes_price S K r q s tau (kind_str k)
            = fst (arbitrage_bounds k S K r q tau)).
  { intros s Hs. unfold black_scholes_price.
    destruct (Rle_dec tau 0); [lra |].
    destruct (Rle_dec s 0); [| contradiction].
    destruct k; simpl; apply Rmax_comm. }
  exists (snd (arbitrage_bounds k S K r q tau)).
  rewrite (Hlow sigma0 Hs0). split.
  - destruct (arbitrage_bounds k S K r q tau); reflexivity.
  - destruct (Rle_dec sigma 0) as [Hs | Hs].
    + rewrite (Hlow sigma Hs).
      pose proof (exp_pos (- q * tau)). pose proof (exp_pos (- r * tau)).
      assert (0 < S * exp (- q * tau)) by (apply Rmult_lt_0_compat; assumption).
      assert (0 < K * exp (- r * tau)) by (apply Rmult_lt_0_compat; assumption).
      destruct k; simpl; apply Rmax_lub; lra.
    + pose proof (price_inside_bounds S K r q tau sigma k HS HK Htau) as Hin.
      lra.
Qed.

Lemma zero_volatility_is_lower_bound_witness :
  exists ub,
    _price_bounds 100 110 0.05 0.01 1 (kind_str Put)
      = Ok (black_scholes_price 100 110 0.05 0.01 0 1 (kind_str Put), ub) /\
    black_scholes_price 100 110 0.05 0.01 0.2 1 (kind_str Put) <= ub.
Proof.
  apply (zero_volatility_is_lower_bound 100 110 0.05 0.01 1 0 0.2 Put); lra.
Defined.

(** ** The option type as a string *)

(** X10: [black_scholes_price] takes for a call only the string "C", while
    [_price_bounds] takes any string that starts with "C" or "c": for such a
    string other than "C" (say "c" or "call") the price is the put's and the
    bounds are the call's. *)
Theorem call_spelled_otherwise (c : ascii) (rest : string) (S K r q sigma tau : R) :
  c = "C"%char \/ c = "c"%char -> String c rest <> "C"%string ->
  black_scholes_price S K r q sigma tau (PyStr (String c rest))
    = black_scholes_price S K r q sigma tau (kind_str Put) /\
  _price_bounds S K r q tau (PyStr (String c rest))
    = _price_bounds S K r q tau (kind_str Call).
Proof.
  intros Hc Hne.
  assert (He : eq_C (PyStr (String c rest)) = false).
  { unfold eq_C. apply String.eqb_neq. exact Hne. }
  split.
  - unfold black_scholes_price. rewrite He. reflexivity.
  - unfold _price_bounds, upper_startswith_C.
    destruct Hc as [-> | ->]; reflexivity.
Qed.

Lemma call_spelled_otherwise_witness :
  black_scholes_price 100 110 0.05 0.01 0.2 1 (PyStr "call")
    = black_scholes_price 100 110 0.05 0.01 0.2 1 (kind_str Put) /\
  _price_bounds 100 110 0.05 0.01 1 (PyStr "call")
    = _price_bounds 100 110 0.05 0.01 1 (kind_str Call).
Proof.
  apply (call_spelled_otherwise "c"%char "all" 100 110 0.05 0.01 0.2 1).
  - right. reflexivity.
  - discriminate.
Defined.

(** * Further properties of the root-finder *)

(** ** The bisection phase *)

(** X11: the bisection phase returns a volatility of the bracket, and its
    console output tells how it ended: with a success line that names the
    volatility, which then re-prices within [tol] of the market price, or,
    the iterations used up, with a last line that names the midpoint it is
    left with. *)
Theorem bisection_success_or_exhausted (market_price S K r q tau : R)
    (option_type : pyval) (tol low high : R) (max_iter : Z) :
  low <= high ->
  exists v,
    snd (implied_vol_bisection market_price S K r q tau option_type tol
           low high max_iter) = Ok v /\
    low <= v <= high /\
    (Rabs (black_scholes_price S K r q v tau option_type - market_price) < tol /\
     In (BisectionSuccess v)
        (fst (implied_vol_bisection market_price S K r q tau option_type tol
                low high max_iter))
     \/
     In (BisectionEnd v)
        (fst (implied_vol_bisection market_price S K r q tau option_type tol
                low high max_iter))).
Proof.
  intros Hlh.
  destruct (implied_vol_bisection_outcome market_price S K r q tau option_type
              tol low high max_iter) as (v & Hv & H).
  exists v. split; [exact Hv |]. split; [| exact H].
  destruct (simple_and_hybrid_agree_aux market_price S K r q tau option_type
              0.2 tol low high 0 max_iter) as [_ HB].
  rewrite HB in Hv. injection Hv as <-.
  unfold Simple.implied_vol_bisection.
  apply simple_bisection_bracket. exact Hlh.
Qed.

Lemma bisection_success_or_exhausted_witness :
  exists v,
    snd (implied_vol_bisection 200 100 100 0 0 1 (kind_str Call) 1e-6
           1e-6 5 200) = Ok v /\
    1e-6 <= v <= 5 /\
    (Rabs (black_scholes_price 100 100 0 0 v 1 (kind_str Call) - 200) < 1e-6 /\
     In (BisectionSuccess v)
        (fst (implied_vol_bisection 200 100 100 0 0 1 (kind_str Call) 1e-6
                1e-6 5 200))
     \/
     In (BisectionEnd v)
        (fst (implied_vol_bisection 200 100 100 0 0 1 (kind_str Call) 1e-6
                1e-6 5 200))).
Proof.
  apply (bisection_success_or_exhausted 200 100 100 0 0 1 (kind_str Call)
           1e-6 1e-6 5 200).
  lra.
Defined.

(** ** The Newton phase *)

(** The Newton phase accepts its starting point on a quote of at most 5e-7
    for a call on spot and strike 1e-7, one year before expiry. *)
Lemma tiny_quote_newton (p : R) :
  0 <= p <= 5e-7 ->
  snd (implied_vol_newton p 1e-7 1e-7 0 0 1 (kind_str Call) 1e-6 0.2 30)
  = Ok (Some 0.2).
Proof.
  intros Hp.
  destruct (simple_and_hybrid_agree_aux p 1e-7 1e-7 0 0 1 (kind_str Call)
              0.2 1e-6 1e-6 5 30 200) as [-> _].
  f_equal. unfold Simple.implied_vol_newton.
  replace (Z.to_nat 30) with (Datatypes.S 29) by reflexivity.
  apply simple_newton_loop_step.
  assert (H := call_at_the_forward 1e-7 1e-7 0 0 1 0.2).
  rewrite sqrt_1 in H.
  replace (- 0 * 1) with 0 in H by ring. rewrite exp_0 in H.
  assert (H' : 0 <= black_scholes_price 1e-7 1e-7 0 0 0.2 1 (kind_str Call)
               <= 1e-7 * 1 * (0.2 * 1)) by (apply H; lra).
  apply Rabs_def1; lra.
Qed.

(** X13: a volatility that the Newton phase returns re-prices within [tol] of
    the market price, is positive for a positive starting point, comes with
    a positive iteration budget and is named on a success line of the console
    output; the Newton phase prints no line of the bisection phase. *)
Theorem newton_returns_converged (market_price S K r q tau : R)
    (option_type : pyval) (tol initial_vol : R) (max_iter : Z) (v : R) :
  snd (implied_vol_newton market_price S K r q tau option_type tol
         initial_vol max_iter) = Ok (Some v) ->
  Rabs (black_scholes_price S K r q v tau option_type - market_price) < tol /\
  (0 < initial_vol -> 0 < v) /\
  (0 < max_iter)%Z /\
  In (NewtonSuccess v)
     (fst (implied_vol_newton market_price S K r q tau option_type tol
             initial_vol max_iter)) /\
  no_bisection
    (fst (implied_vol_newton market_price S K r q tau option_type tol
            initial_vol max_iter)).
Proof.
  intros Hv.
  assert (Hlog : In (NewtonSuccess v)
                   (fst (implied_vol_newton market_price S K r q tau option_type
                           tol initial_vol max_iter))).
  { unfold implied_vol_newton in *. rewrite bind_print in *.
    right. apply newton_loop_success_log. exact Hv. }
  destruct (simple_and_hybrid_agree_aux market_price S K r q tau option_type
              initial_vol tol 0 0 max_iter 0) as [HN _].
  rewrite HN in Hv. injection Hv as Hv.
  unfold Simple.implied_vol_newton in Hv.
  split; [eapply simple_newton_converged; exact Hv |].
  split; [intros Hi; eapply simple_newton_positive; [exact Hi | exact Hv] |].
  split; [| split; [exact Hlog | apply implied_vol_newton_log]].
  destruct (Z.to_nat max_iter) eqn:E; [discriminate Hv | lia].
Qed.

Lemma newton_returns_converged_witness :
  Rabs (black_scholes_price 1e-7 1e-7 0 0 0.2 1 (kind_str Call) - 2e-7) < 1e-6 /\
  (0 < 0.2 -> 0 < 0.2) /\
  (0 < 30)%Z /\
  In (NewtonSuccess 0.2)
     (fst (implied_vol_newton 2e-7 1e-7 1e-7 0 0 1 (kind_str Call) 1e-6 0.2 30)) /\
  no_bisection
    (fst (implied_vol_newton 2e-7 1e-7 1e-7 0 0 1 (kind_str Call) 1e-6 0.2 30)).
Proof.
  apply (newton_returns_converged 2e-7 1e-7 1e-7 0 0 1 (kind_str Call)
           1e-6 0.2 30 0.2).
  apply tiny_quote_newton. lra.
Defined.

(** ** [implied_volatility] as a whole *)

(** X14: a volatility returned by [implied_volatility] (positive starting
    point and floor of the bracket) is positive, comes with all four inputs
    present and a positive time to expiry, and either re-prices within [tol]
    of the quoted price or lies in the bracket [low, high]. *)
Theorem implied_volatility_returns (price S K : option R) (r q : R) (tau : option R)
    (option_type : pyval) (initial_vol tol : R) (max_iter_newton : Z)
    (low high : R) (max_iter_bisection : Z) (v : R) :
  0 < initial_vol -> 0 < low -> low <= high ->
  snd (implied_volatility price S K r q tau option_type initial_vol tol
         max_iter_newton low high max_iter_bisection) = Ok (Some v) ->
  0 < v /\
  exists p s k t,
    price = Some p /\ S = Some s /\ K = Some k /\ tau = Some t /\ 0 < t /\
    (Rabs (black_scholes_price s k r q v t option_type - p) < tol \/
     low <= v <= high).
Proof.
  intros Hi Hlow Hlh.
  destruct price as [p |], S as [s |], K as [k |], tau as [t |];
    try (simpl; discriminate).
  destruct (Rle_dec t 0) as [Hle | Hgt].
  { unfold implied_volatility. destruct (Rle_dec t 0); [simpl; discriminate | lra]. }
  assert (Ht : 0 < t) by lra.
  rewrite implied_volatility_result by exact Ht.
  destruct (Simple.implied_vol_newton _ _ _ _ _ _ _ _ _ _ _ _) as [iv |] eqn:EN.
  - intros [= <-]. unfold Simple.implied_vol_newton in EN. split.
    + eapply simple_newton_positive; [exact Hi | exact EN].
    + exists p, s, k, t. repeat split; try reflexivity; try exact Ht.
      left. eapply simple_newton_converged; exact EN.
  - destruct (_price_bounds s k r q t option_type) as [[lb ub] | e]; [| discriminate].
    destruct (Rlt_dec p (lb - 1e-12)); [discriminate |].
    destruct (Rgt_dec p (ub + 1e-12)); [discriminate |].
    intros [= <-]. unfold Simple.implied_vol_bisection.
    pose proof (simple_bisection_bracket black_scholes_price p s k r q t
                  option_type tol (Z.to_nat max_iter_bisection) low high Hlh) as H.
    split; [lra |].
    exists p, s, k, t. repeat split; try reflexivity; try exact Ht.
    right. exact H.
Qed.

Lemma implied_volatility_returns_witness :
  0 < 0.2 /\
  exists p s k t,
    Some 2e-7 = Some p /\ Some 1e-7 = Some s /\ Some 1e-7 = Some k /\
    Some 1 = Some t /\ 0 < t /\
    (Rabs (black_scholes_price s k 0 0 0.2 t (kind_str Call) - p) < 1e-6 \/
     1e-6 <= 0.2 <= 5).
Proof.
  apply (implied_volatility_returns (Some 2e-7) (Some 1e-7) (Some 1e-7) 0 0 (Some 1)
           (kind_str Call) 0.2 1e-6 30 1e-6 5 200 0.2); try lra.
  apply tiny_quote_solved. lra.
Defined.

(** The Newton phase on a quote of 2 for an option on spot and strike 1,
    1e-20 years before expiry, whatever the option type. *)
Lemma short_dated_newton_inconclusive_any (option_type : pyval) :
  Simple.implied_vol_newton black_scholes_price bsm_vega
    2 1 1 0 0 1e-20 option_type 1e-6 0.2 30 = None.
Proof.
  unfold Simple.implied_vol_newton.
  replace (Z.to_nat 30) with (Datatypes.S 29) by reflexivity.
  assert (He : exp (- 0 * 1e-20) = 1)
    by (replace (- 0 * 1e-20) with 0 by ring; apply exp_0).
  assert (Hc : 0 <= call_of 1 1 0 0 1e-20 0.2 <= 1 * 1 * (0.2 * 1e-10)).
  { assert (H := call_at_the_forward 1 1 0 0 1e-20 0.2).
    rewrite sqrt_1e20, He in H.
    rewrite <- (price_call_general 1 1 0 0 1e-20) by lra. apply H; lra. }
  apply simple_newton_loop_flat.
  - assert (Hp : black_scholes_price 1 1 0 0 0.2 1e-20 option_type
                 = call_of 1 1 0 0 1e-20 0.2).
    { destruct (eq_C option_type) eqn:E.
      - transitivity (black_scholes_price 1 1 0 0 0.2 1e-20 (kind_str Call)).
        + unfold black_scholes_price. rewrite E. reflexivity.
        + apply price_call_general; lra.
      - transitivity (black_scholes_price 1 1 0 0 0.2 1e-20 (kind_str Put)).
        + unfold black_scholes_price. rewrite E. reflexivity.
        + rewrite price_put_general by lra. rewrite He. ring. }
    rewrite Hp. rewrite Rabs_left; lra.
  - rewrite vega_general by lra. rewrite sqrt_1e20, He.
    pose proof (norm_pdf_le_1 (d1_of 1 1 0 0 1e-20 0.2)).
    pose proof (norm_pdf_pos (d1_of 1 1 0 0 1e-20 0.2)). nra.
Qed.

(** X15: with an option type that is not a string (say [None]) and a positive
    time to expiry, [implied_volatility] never runs the bisection phase and
    never returns absent: what it returns is a volatility of the Newton phase,
    positive, at which the put price is within 1e-6 of the quote; and when the
    Newton phase is inconclusive, [option_type.upper()] in [_price_bounds]
    raises [AttributeError]. *)
Theorem non_string_option_type (price S K r q tau : R) (option_type : pyval) :
  0 < tau -> (forall s, option_type <> PyStr s) ->
  no_bisection
    (fst (implied_volatility_default (Some price) (Some S) (Some K) r q
            (Some tau) option_type)) /\
  (forall o,
     snd (implied_volatility_default (Some price) (Some S) (Some K) r q
            (Some tau) option_type) = Ok o ->
     exists v, o = Some v /\ 0 < v /\
       Rabs (black_scholes_price S K r q v tau (kind_str Put) - price) < 1e-6) /\
  (snd (implied_vol_newton price S K r q tau option_type 1e-6 0.2 30) = Ok None ->
   snd (implied_volatility_default (Some price) (Some S) (Some K) r q
          (Some tau) option_type) = Raise AttributeError).
Proof.
  intros Htau Hns.
  assert (HB : _price_bounds S K r q tau option_type = Raise AttributeError).
  { destruct option_type as [| x | s]; [reflexivity | reflexivity |].
    exfalso. exact (Hns s eq_refl). }
  assert (Hput : forall v, black_scholes_price S K r q v tau option_type
                           = black_scholes_price S K r q v tau (kind_str Put)).
  { intros v. unfold black_scholes_price.
    destruct option_type as [| x | s]; [reflexivity | reflexivity |].
    exfalso. exact (Hns s eq_refl). }
  destruct (simple_and_hybrid_agree_aux price S K r q tau option_type
              0.2 1e-6 1e-6 5 30 200) as [HN _].
  unfold implied_volatility_default.
  destruct (Simple.implied_vol_newton black_scholes_price bsm_vega
              price S K r q tau option_type 1e-6 0.2 30) as [v |] eqn:EN.
  - rewrite (implied_volatility_newton price S K r q tau option_type 0.2 1e-6 30
               1e-6 5 200 v Htau HN).
    unfold Simple.implied_vol_newton in EN.
    split; [apply implied_vol_newton_log |]. split.
    + intros o [= <-]. exists v. split; [reflexivity |]. split.
      * eapply simple_newton_positive; [| exact EN]. lra.
      * rewrite <- Hput. eapply simple_newton_converged; exact EN.
    + rewrite HN. discriminate.
  - rewrite (implied_volatility_raises price S K r q tau option_type 0.2 1e-6 30
               1e-6 5 200 AttributeError Htau HN HB).
    split; [apply implied_vol_newton_log |]. split.
    + intros o H. discriminate H.
    + intros _. reflexivity.
Qed.

Lemma non_string_option_type_witness :
  snd (implied_volatility_default (Some 2) (Some 1) (Some 1) 0 0 (Some 1e-20)
         PyNone) = Raise AttributeError.
Proof.
  apply (non_string_option_type 2 1 1 0 0 1e-20 PyNone).
  - lra.
  - discriminate.
  - destruct (simple_and_hybrid_agree_aux 2 1 1 0 0 1e-20 PyNone
                0.2 1e-6 1e-6 5 30 200) as [-> _].
    f_equal. apply short_dated_newton_inconclusive_any.
Defined.

(** ** The simpler solver, for any pricing kernel *)

(** X16: whatever pricing function and vega the simpler solver is linked
    with, a volatility returned by its Newton routine re-prices within [tol]
    and is positive for a positive starting point, a non-positive iteration
    budget makes the routine return [None], and its bisection routine returns
    a volatility of the bracket. *)
Theorem simple_solver_contract
    (bs : R -> R -> R -> R -> R -> R -> pyval -> R)
    (vega : R -> R -> R -> R -> R -> R -> R)
    (market_price S K r q tau : R) (option_type : pyval)
    (tol initial_vol low high : R) (max_iter : Z) :
  (forall v,
     Simple.implied_vol_newton bs vega market_price S K r q tau option_type tol
       initial_vol max_iter = Some v ->
     Rabs (bs S K r q v tau option_type - market_price) < tol /\
     (0 < initial_vol -> 0 < v) /\ (0 < max_iter)%Z) /\
  (low <= high ->
   low <= Simple.implied_vol_bisection bs market_price S K r q tau option_type
            tol low high max_iter <= high).
Proof.
  split.
  - intros v Hv. unfold Simple.implied_vol_newton in Hv. split; [| split].
    + eapply simple_newton_converged; exact Hv.
    + intros Hi. eapply simple_newton_positive; [exact Hi | exact Hv].
    + destruct max_iter; try lia; simpl in Hv; discriminate.
  - intros Hlh. apply simple_bisection_bracket, Hlh.
Qed.

(** * Further properties of the chain processor *)

Lemma bind_assoc {A B C} (m : io A) (f : A -> io B) (g : B -> io C) :
  bind (bind m f) g = bind m (fun a => bind (f a) g).
Proof.
  unfold bind. destruct m as [l [a | e]]; simpl; [| reflexivity].
  destruct (f a) as [l' [b | e]]; simpl; [| reflexivity].
  rewrite app_assoc. reflexivity.
Qed.

Lemma bind_ret_r {A} (m : io A) : bind m ret = m.
Proof.
  unfold bind, ret. destruct m as [l [a | e]]; simpl; [| reflexivity].
  rewrite app_nil_r. reflexivity.
Qed.

Lemma bind_ext {A B} (m : io A) (f g : A -> io B) :
  (forall a, f a = g a) -> bind m f = bind m g.
Proof. intros H. unfold bind. destruct (snd m); [rewrite H |]; reflexivity. Qed.

Lemma fst_bind_nil {A B} (m : io A) (f : A -> io B) :
  fst m = [] -> (forall a, fst (f a) = []) -> fst (bind m f) = [].
Proof.
  intros Hm Hf. unfold bind. destruct (snd m); simpl; [| exact Hm].
  rewrite Hm, Hf. reflexivity.
Qed.

Lemma try_except_total {A} (m : io A) (h : A) :
  exists a, snd (try_except m h) = Ok a.
Proof.
  unfold try_except. destruct (snd m) eqn:E; [exists a; exact E | exists h; reflexivity].
Qed.

(** ** Batches that cannot raise *)

(** A value that is [None] or a float. *)
Definition float_or_none (v : pyval) : Prop :=
  match v with
  | PyStr _ => False
  | _ => True
  end.

(** A quote with the six fields that [process_chain] reads, whose bid and
    ask are floats or [None]. *)
Definition quote_like (row : dict) : Prop :=
  exists sy ex st ty b a,
    getitem row "symbol" = Ok sy /\ getitem row "expiry" = Ok ex /\
    getitem row "strike" = Ok st /\ getitem row "type" = Ok ty /\
    getitem row "bid" = Ok b /\ getitem row "ask" = Ok a /\
    float_or_none b /\ float_or_none a.

(** The fields that a point copies from its quote. *)
Definition copies_quote (row : dict) (p : OptionPoint) : Prop :=
  getitem row "symbol" = Ok (symbol p) /\ getitem row "expiry" = Ok (expiry p) /\
  getitem row "strike" = Ok (strike p) /\ getitem row "type" = Ok (type p) /\
  getitem row "bid" = Ok (bid p) /\ getitem row "ask" = Ok (ask p).

Lemma row_mid_total (b a : pyval) :
  float_or_none b -> float_or_none a -> exists m, snd (row_mid b a) = Ok m.
Proof.
  intros Hb Ha.
  assert (Hfalsy : truthy b = false \/ truthy a = false ->
                   exists m, snd (row_mid b a) = Ok m).
  { intros H. rewrite (row_mid_falsy b a H). eexists; reflexivity. }
  destruct b as [| x | s]; [| | contradiction].
  - apply Hfalsy. left. reflexivity.
  - destruct (Req_dec_T x 0) as [-> | Hx]; [apply Hfalsy; left; apply truthy_zero |].
    destruct a as [| y | s]; [| | contradiction].
    + apply Hfalsy. right. reflexivity.
    + destruct (Req_dec_T y 0) as [-> | Hy];
        [apply Hfalsy; right; apply truthy_zero |].
      rewrite (row_mid_floats x y Hx Hy). eexists; reflexivity.
Qed.

Lemma solver_needs_float_strike (price S : R) (K : pyval) (r q tau : R)
    (option_type : pyval) (v : R) :
  snd (implied_volatility_call price S K r q tau option_type) = Ok (Some v) ->
  exists k, K = PyFloat k.
Proof.
  unfold implied_volatility_call. destruct K as [| k | s].
  - simpl. discriminate.
  - intros _. exists k. reflexivity.
  - destruct (Rle_dec tau 0); simpl; discriminate.
Qed.

Section RowFacts.

Variable self : OptionChainProcessor.
Variables (spot tau : R).

Lemma row_iv_some (row : dict) (m : option R) (v : R) :
  snd (row_iv implied_volatility_call self spot tau row m) = Ok (Some v) ->
  exists x k ty,
    m = Some x /\ 0 < x /\ getitem row "strike" = Ok (PyFloat k) /\
    getitem row "type" = Ok ty /\
    snd (implied_volatility_default (Some x) (Some spot) (Some k) (r self) (q self)
           (Some tau) ty) = Ok (Some v).
Proof.
  unfold row_iv. destruct m as [x |]; [| discriminate].
  destruct (Req_dec_T x 0); [discriminate |].
  destruct (Rgt_dec x 0) as [Hx | _]; [| discriminate].
  intros H. apply snd_try_except_inv in H as [H | H]; [| discriminate].
  apply snd_bind_inv in H as [K [HK H]]. apply snd_lift_inv in HK.
  apply snd_bind_inv in H as [ty [Hty H]]. apply snd_lift_inv in Hty.
  destruct (solver_needs_float_strike _ _ _ _ _ _ _ _ H) as [k ->].
  exists x, k, ty. repeat split; try assumption.
Qed.

Lemma row_greeks_total (row : dict) (m iv : option R) :
  snd (row_iv implied_volatility_call self spot tau row m) = Ok iv ->
  exists g, snd (row_greeks self spot tau row iv) = Ok g.
Proof.
  intros Hiv. destruct iv as [v |]; [| eexists; reflexivity].
  destruct (row_iv_some row m v Hiv) as (x & k & ty & _ & _ & HK & Hty & _).
  unfold row_greeks. destruct (Req_dec_T v 0); [eexists; reflexivity |].
  rewrite HK, bind_lift_ok, Hty, bind_lift_ok. simpl.
  eexists; reflexivity.
Qed.

Lemma process_row_fields (row : dict) (p : OptionPoint) :
  snd (process_row implied_volatility_call self spot tau row) = Ok p ->
  copies_quote row p.
Proof.
  unfold process_row. intros H.
  apply snd_bind_inv in H as [b [Hb H]]. apply snd_lift_inv in Hb.
  apply snd_bind_inv in H as [a [Ha H]]. apply snd_lift_inv in Ha.
  apply snd_bind_inv in H as [m [Hm H]].
  apply snd_bind_inv in H as [iv [Hiv H]].
  apply snd_bind_inv in H as [[[[d ga] th] rh] [Hg H]].
  apply snd_bind_inv in H as [sy [Hsy H]]. apply snd_lift_inv in Hsy.
  apply snd_bind_inv in H as [ex [Hex H]]. apply snd_lift_inv in Hex.
  apply snd_bind_inv in H as [st [Hst H]]. apply snd_lift_inv in Hst.
  apply snd_bind_inv in H as [ty [Hty H]]. apply snd_lift_inv in Hty.
  injection H as <-. unfold copies_quote. simpl. repeat split; assumption.
Qed.

Lemma process_row_total (row : dict) :
  quote_like row ->
  exists p, snd (process_row implied_volatility_call self spot tau row) = Ok p.
Proof.
  intros (sy & ex & st & ty & b & a & Hsy & Hex & Hst & Hty & Hb & Ha & Fb & Fa).
  destruct (row_mid_total b a Fb Fa) as [m Hm].
  assert (Hiv : exists iv,
            snd (row_iv implied_volatility_call self spot tau row m) = Ok iv).
  { unfold row_iv. destruct m as [x |]; [| eexists; reflexivity].
    destruct (Req_dec_T x 0); [eexists; reflexivity |].
    destruct (Rgt_dec x 0); [apply try_except_total | eexists; reflexivity]. }
  destruct Hiv as [iv Hiv].
  destruct (row_greeks_total row m iv Hiv) as [[[[d ga] th] rh] Hg].
  eexists.
  exact (process_row_intro implied_volatility_call self spot tau row
           b a sy ex st ty m iv d ga th rh Hb Ha Hm Hiv Hg Hsy Hex Hst Hty).
Qed.

End RowFacts.

Lemma process_chain_quote_like (self : OptionChainProcessor)
    (raw_chain : list dict) (spot tau : R) :
  Forall quote_like raw_chain ->
  exists points,
    snd (process_chain self raw_chain spot tau) = Ok points /\
    Forall2 copies_quote raw_chain points.
Proof.
  unfold process_chain. induction 1 as [| row rest Hrow _ IH].
  - exists []. split; [reflexivity | constructor].
  - destruct IH as (ps & Hps & Hcopy).
    destruct (process_row_total self spot tau row Hrow) as [p Hp].
    exists (p :: ps). split.
    + apply process_chain_with_cons; assumption.
    + constructor; [| exact Hcopy].
      eapply process_row_fields; exact Hp.
Qed.

(** X17: a batch in which every quote has the six fields, with a bid and an
    ask that are floats or [None], is processed without an exception: there
    is one point per quote, in the order of the batch, and each point carries
    the symbol, expiry, strike, type, bid and ask of its quote. *)
Theorem quote_like_batch_is_processed (self : OptionChainProcessor)
    (raw_chain : list dict) (spot tau : R) :
  Forall quote_like raw_chain ->
  exists points,
    snd (process_chain self raw_chain spot tau) = Ok points /\
    List.length points = List.length raw_chain /\
    Forall2 copies_quote raw_chain points.
Proof.
  intros H. destruct (process_chain_quote_like self raw_chain spot tau H)
    as (points & Hp & Hc).
  exists points. split; [exact Hp |]. split; [| exact Hc].
  symmetry. eapply Forall2_length; exact Hc.
Qed.

Lemma quote_like_batch_is_processed_witness :
  exists points,
    snd (process_chain flat_processor [q_tiny; q_zero_bid; q_no_bid] 1e-7 1)
      = Ok points /\
    List.length points = List.length [q_tiny; q_zero_bid; q_no_bid] /\
    Forall2 copies_quote [q_tiny; q_zero_bid; q_no_bid] points.
Proof.
  apply (quote_like_batch_is_processed flat_processor
           [q_tiny; q_zero_bid; q_no_bid] 1e-7 1).
  repeat constructor;
    do 6 eexists; repeat split; try reflexivity; exact I.
Defined.

(** ** What a point with an implied volatility holds *)

(** The point of a quote whose implied volatility was found. *)
Definition solved_point (self : OptionChainProcessor) (spot tau : R)
    (p : OptionPoint) : Prop :=
  forall v, implied_vol p = Some v ->
    0 < v /\ 0 < tau /\
    exists m k,
      mid p = Some m /\ 0 < m /\ strike p = PyFloat k /\
      snd (implied_volatility_default (Some m) (Some spot) (Some k)
             (r self) (q self) (Some tau) (type p)) = Ok (Some v) /\
      delta p = Some (bsm_delta spot k (r self) (q self) v tau (type p)) /\
      gamma p = Some (bsm_gamma spot k (r self) (q self) v tau) /\
      theta p = Some (bsm_theta spot k (r self) (q self) v tau (type p)) /\
      rho p = Some (bsm_rho spot k (r self) (q self) v tau (type p)).

Lemma implied_volatility_default_tau (price S K : option R) (r q : R)
    (tau : option R) (option_type : pyval) (v : R) :
  snd (implied_volatility_default price S K r q tau option_type) = Ok (Some v) ->
  exists t, tau = Some t /\ 0 < t.
Proof.
  unfold implied_volatility_default.
  destruct tau as [t |].
  - destruct (Rle_dec t 0) as [Hle | Hgt].
    + destruct price as [p |], S as [s |], K as [k |];
        [| intros H; discriminate H ..].
      unfold implied_volatility.
      destruct (Rle_dec t 0); [intros H; discriminate H | lra].
    + intros _. exists t. split; [reflexivity | lra].
  - destruct price as [p |], S as [s |], K as [k |]; intros H; discriminate H.
Qed.

Lemma process_row_solved (self : OptionChainProcessor) (spot tau : R)
    (row : dict) (p : OptionPoint) :
  snd (process_row implied_volatility_call self spot tau row) = Ok p ->
  solved_point self spot tau p.
Proof.
  intros Hp v Hv.
  pose proof (process_row_fields self spot tau row p Hp)
    as (_ & _ & Hst & Hty & _ & _).
  destruct (process_row_inv _ _ _ _ _ _ Hp)
    as (b & a & m & iv & g & _ & _ & _ & Hiv & Hg & _ & _ & Hpm & Hpiv & Hpg).
  rewrite Hv in Hpiv. subst iv.
  destruct (row_iv_some self spot tau row m v Hiv)
    as (x & k & ty & -> & Hx & HK & Hty' & Hsolve).
  assert (Et : ty = type p) by congruence. subst ty.
  assert (Ek : strike p = PyFloat k) by congruence.
  pose proof (implied_volatility_default_positive _ _ _ _ _ _ _ _ Hsolve) as Hv0.
  destruct (implied_volatility_default_tau _ _ _ _ _ _ _ _ Hsolve) as (t & [= <-] & Ht).
  split; [exact Hv0 |]. split; [exact Ht |].
  exists x, k. split; [exact Hpm |]. split; [exact Hx |]. split; [exact Ek |].
  split; [exact Hsolve |].
  unfold row_greeks in Hg.
  destruct (Req_dec_T v 0); [lra |].
  rewrite HK, bind_lift_ok, Hty', bind_lift_ok in Hg. simpl in Hg.
  rewrite <- Hpg in Hg. injection Hg as -> -> -> ->.
  repeat split; reflexivity.
Qed.

(** X18: in the output of [process_chain], a point with an implied volatility
    has a positive mid price and a float strike; its implied volatility is
    positive and is what [implied_volatility] returns on that mid price, and
    its four Greeks are the kernel's values at that volatility.  No point has
    an implied volatility when the time to expiry is not positive. *)
Theorem points_with_implied_vol (self : OptionChainProcessor)
    (raw_chain : list dict) (spot tau : R) (points : list OptionPoint) :
  snd (process_chain self raw_chain spot tau) = Ok points ->
  Forall (solved_point self spot tau) points.
Proof.
  unfold process_chain. intros H. apply process_chain_with_rows in H.
  induction H as [| row p rows ps Hp _ IH]; constructor.
  - eapply process_row_solved, Hp.
  - exact IH.
Qed.

Lemma tiny_and_no_bid_processed :
  snd (process_chain flat_processor [q_tiny; q_no_bid] 1e-7 1) =
  Ok [p_tiny; absent_point "NOBID" (PyFloat 150) PyNone (PyFloat 1)].
Proof.
  unfold process_chain.
  apply process_chain_with_cons; [apply process_q_tiny |].
  apply process_chain_with_cons; [| reflexivity].
  apply process_absent. left. reflexivity.
Qed.

Lemma points_with_implied_vol_witness :
  Forall (solved_point flat_processor 1e-7 1)
    [p_tiny; absent_point "NOBID" (PyFloat 150) PyNone (PyFloat 1)].
Proof.
  exact (points_with_implied_vol flat_processor [q_tiny; q_no_bid] 1e-7 1 _
           tiny_and_no_bid_processed).
Defined.

(** ** Batches compose *)

(** X19: processing the concatenation of two batches is processing the first
    and then the second: the console output is the one of the first followed
    by the one of the second, the points are those of the first followed by
    those of the second, and the first exception raised ends the run. *)
Theorem process_chain_app (self : OptionChainProcessor) (xs ys : list dict)
    (spot tau : R) :
  process_chain self (xs ++ ys) spot tau =
  bind (process_chain self xs spot tau) (fun ps1 =>
  bind (process_chain self ys spot tau) (fun ps2 =>
  ret (ps1 ++ ps2))).
Proof.
  unfold process_chain.
  set (pcw := process_chain_with implied_volatility_call self spot tau).
  induction xs as [| row rest IH].
  - change (pcw ([] ++ ys)) with (pcw ys). change (pcw []) with (@ret (list OptionPoint) []).
    rewrite bind_ret. symmetry. apply bind_ret_r.
  - change (pcw ((row :: rest) ++ ys))
      with (bind (process_row implied_volatility_call self spot tau row)
              (fun p => bind (pcw (rest ++ ys)) (fun processed => ret (p :: processed)))).
    change (pcw (row :: rest))
      with (bind (process_row implied_volatility_call self spot tau row)
              (fun p => bind (pcw rest) (fun processed => ret (p :: processed)))).
    rewrite IH.
    rewrite (bind_assoc (process_row implied_volatility_call self spot tau row)).
    apply bind_ext. intro p.
    rewrite !(bind_assoc (pcw rest)).
    apply bind_ext. intro ps1.
    rewrite (bind_assoc (pcw ys)), bind_ret.
    apply bind_ext. intro ps2.
    rewrite bind_ret. reflexivity.
Qed.

From Stdlib Require Import Sorting Mergesort Orders Permutation.

(** * [models/option.py]: contracts and chains *)

(** Strings in the order of [str.__lt__]: code point by code point. *)
Module StringOrder <: TotalLeBool.
Definition t : Type := string.
Definition leb : string -> string -> bool := String.leb.
Definition leb_total : forall x y : string, leb x y = true \/ leb y x = true :=
  String.leb_total.
End StringOrder.

(** [sorted] on strings. *)
Module StringSort := Sort StringOrder.

Module Models.

Record OptionContract : Type := mkOptionContract {
  symbol : pyval;
  underlying : string;
  expiry : string;
  strike : R;
  option_type : string;
  bid : option R;
  ask : option R;
  last : option R;
  volume : option Z;
  open_interest : option Z;
  mid : option R;
  implied_vol : option R;
  vega : option R;
  moneyness : option R;
  maturity_years : option R
}.

(** [self.mid = m] *)
Definition set_mid (c : OptionContract) (m : option R) : OptionContract :=
  mkOptionContract (symbol c) (underlying c) (expiry c) (strike c) (option_type c)
    (bid c) (ask c) (last c) (volume c) (open_interest c)
    m (implied_vol c) (vega c) (moneyness c) (maturity_years c).

(** [self.moneyness = m] *)
Definition set_moneyness (c : OptionContract) (m : option R) : OptionContract :=
  mkOptionContract (symbol c) (underlying c) (expiry c) (strike c) (option_type c)
    (bid c) (ask c) (last c) (volume c) (open_interest c)
    (mid c) (implied_vol c) (vega c) m (maturity_years c).

(** [self.maturity_years = y] *)
Definition set_maturity_years (c : OptionContract) (y : option R) : OptionContract :=
  mkOptionContract (symbol c) (underlying c) (expiry c) (strike c) (option_type c)
    (bid c) (ask c) (last c) (volume c) (open_interest c)
    (mid c) (implied_vol c) (vega c) (moneyness c) y.

(** A method that updates the contract and returns a value gives the
    updated contract and the value. *)
Definition compute_mid (c : OptionContract) : OptionContract * option R :=
  let m :=
    match bid c, ask c with
    | Some b, Some a => Some ((b + a) / 2.0)
    | _, _ =>
      match last c with
      | Some l => Some l
      | None => None
      end
    end in
  (set_mid c m, m).

Definition compute_moneyness (c : OptionContract) (spot : option R)
    : OptionContract * option R :=
  let c' :=
    match spot with
    | Some s => if Rgt_dec s 0 then set_moneyness c (Some (strike c / s)) else c
    | None => c
    end in
  (c', moneyness c').

(** The property [market_price]. *)
Definition market_price (c : OptionContract) : option R :=
  match mid c with
  | Some m => Some m
  | None => last c
  end.

Section Dates.

(** [datetime.strptime(s, "%Y-%m-%d").date()], as the ordinal of the day; [None]
    when [strptime] raises. *)
Variable strptime_date : string -> option Z.

(** [try: ... except Exception: self.maturity_years = None] *)
Definition compute_maturity (c : OptionContract) (as_of_date : string)
    : OptionContract * option R :=
  let y :=
    match strptime_date (expiry c) with
    | Some expiry_dt =>
      match strptime_date as_of_date with
      | Some today =>
        let days := Z.max (expiry_dt - today) 0 in
        Some (IZR days / 365.0)
      | None => None
      end
    | None => None
    end in
  (set_maturity_years c y, y).

Record OptionChain : Type := mkOptionChain {
  chain_underlying : string;
  as_of : string;
  spot : option R;
  contracts : list OptionContract
}.

(** The body of the loop of [enrich]. *)
Definition enrich_contract (spot : option R) (as_of : string) (c : OptionContract)
    : OptionContract :=
  let c1 := fst (compute_mid c) in
  let c2 := fst (compute_moneyness c1 spot) in
  fst (compute_maturity c2 as_of).

Definition enrich (ch : OptionChain) : OptionChain :=
  mkOptionChain (chain_underlying ch) (as_of ch) (spot ch)
    (map (enrich_contract (spot ch) (as_of ch)) (contracts ch)).

End Dates.

(** A [dict] from expiry to a list of contracts, in insertion order. *)
Definition groups : Type := list (string * list OptionContract).

(** [out[k]], [None] for a missing key. *)
Fixpoint groups_get (out : groups) (k : string) : option (list OptionContract) :=
  match out with
  | [] => None
  | (k', cs) :: rest => if String.eqb k' k then Some cs else groups_get rest k
  end.

(** [out.setdefault(k, []).append(c)] *)
Fixpoint setdefault_append (out : groups) (k : string) (c : OptionContract) : groups :=
  match out with
  | [] => [(k, [c])]
  | (k', cs) :: rest =>
    if String.eqb k' k then (k', cs ++ [c]) :: rest
    else (k', cs) :: setdefault_append rest k c
  end.

Definition by_expiry (ch : OptionChain) : groups :=
  fold_left (fun out c => setdefault_append out (expiry c) c) (contracts ch) [].

(** The test of [filter_liquid] on one contract. *)
Definition liquid_enough (min_oi min_volume : Z) (c : OptionContract) : bool :=
  let oi := match open_interest c with Some n => n | None => 0%Z end in
  let vol := match volume c with Some n => n | None => 0%Z end in
  (min_oi <=? oi)%Z && (min_volume <=? vol)%Z.

Definition filter_liquid (ch : OptionChain) (min_oi min_volume : Z) : OptionChain :=
  mkOptionChain (chain_underlying ch) (as_of ch) (spot ch)
    (filter (liquid_enough min_oi min_volume) (contracts ch)).

(** [filter_liquid()] with the defaults of its signature. *)
Definition filter_liquid_default (ch : OptionChain) : OptionChain :=
  filter_liquid ch 10 1.

(** [sorted({c.expiry for c in self.contracts})] *)
Definition expiries (ch : OptionChain) : list string :=
  StringSort.sort (nodup string_dec (map expiry (contracts ch))).

End Models.

(** ** Mid price and market price of a contract *)

(** X20: after [compute_mid] the property [market_price] is the mid price that
    [compute_mid] returned: the mean of bid and ask when both are present (a
    bid or an ask of zero included), else the last trade, else absent.  The
    quote fields of the contract are unchanged. *)
Theorem market_price_after_compute_mid (c : Models.OptionContract) :
  let c' := fst (Models.compute_mid c) in
  Models.market_price c' = snd (Models.compute_mid c) /\
  Models.mid c' = snd (Models.compute_mid c) /\
  (forall b a, Models.bid c = Some b -> Models.ask c = Some a ->
     Models.market_price c' = Some ((b + a) / 2)) /\
  (Models.bid c = None \/ Models.ask c = None ->
     Models.market_price c' = Models.last c) /\
  Models.bid c' = Models.bid c /\ Models.ask c' = Models.ask c /\
  Models.last c' = Models.last c /\ Models.strike c' = Models.strike c /\
  Models.expiry c' = Models.expiry c.
Proof.
  unfold Models.compute_mid, Models.market_price. simpl.
  destruct (Models.bid c) as [b |], (Models.ask c) as [a |],
    (Models.last c) as [l |]; simpl;
    repeat split; try reflexivity; intros;
    try match goal with H : _ \/ _ |- _ => destruct H end;
    try discriminate; try congruence.
  all: match goal with
       | H1 : Some _ = Some _, H2 : Some _ = Some _ |- _ =>
         injection H1 as <-; injection H2 as <-
       end; f_equal; lra.
Qed.

(** ** Liquidity filter *)

Lemma filter_filter {A} (f g : A -> bool) (l : list A) :
  filter f (filter g l) = filter (fun x => g x && f x) l.
Proof.
  induction l as [| x l IH]; simpl; [reflexivity |].
  destruct (g x); simpl; [destruct (f x) |]; rewrite ?IH; reflexivity.
Qed.

Lemma liquid_enough_max (a b c d : Z) (x : Models.OptionContract) :
  Models.liquid_enough c d x && Models.liquid_enough a b x =
  Models.liquid_enough (Z.max a c) (Z.max b d) x.
Proof.
  unfold Models.liquid_enough.
  destruct (Models.open_interest x) as [oi |], (Models.volume x) as [vol |];
    apply eq_true_iff_eq; rewrite !andb_true_iff, !Z.leb_le; lia.
Qed.

(** X21: [filter_liquid] keeps, in their order, exactly the contracts whose
    open interest and volume (a missing one counting as 0) reach the
    thresholds, leaves underlying, date and spot as they are, and two filters
    in a row are one filter with the larger thresholds; in particular the
    filter is idempotent. *)
Theorem filter_liquid_composes (ch : Models.OptionChain) (a b c d : Z) :
  Models.filter_liquid (Models.filter_liquid ch c d) a b
    = Models.filter_liquid ch (Z.max a c) (Z.max b d) /\
  Models.filter_liquid (Models.filter_liquid ch a b) a b = Models.filter_liquid ch a b /\
  Models.chain_underlying (Models.filter_liquid ch a b) = Models.chain_underlying ch /\
  Models.as_of (Models.filter_liquid ch a b) = Models.as_of ch /\
  Models.spot (Models.filter_liquid ch a b) = Models.spot ch /\
  (forall x, In x (Models.contracts (Models.filter_liquid ch a b)) <->
     In x (Models.contracts ch) /\
     (a <= match Models.open_interest x with Some n => n | None => 0 end)%Z /\
     (b <= match Models.volume x with Some n => n | None => 0 end)%Z).
Proof.
  assert (Hcomp : forall a b c d,
            Models.filter_liquid (Models.filter_liquid ch c d) a b
            = Models.filter_liquid ch (Z.max a c) (Z.max b d)).
  { intros a' b' c' d'. unfold Models.filter_liquid. simpl. f_equal.
    rewrite filter_filter. apply filter_ext. intro x. apply liquid_enough_max. }
  split; [apply Hcomp |]. split.
  { rewrite Hcomp, !Z.max_id. reflexivity. }
  repeat split; try reflexivity.
  - apply filter_In in H. apply H.
  - apply filter_In in H as [_ H]. unfold Models.liquid_enough in H.
    apply andb_true_iff in H as [H _]. apply Z.leb_le, H.
  - apply filter_In in H as [_ H]. unfold Models.liquid_enough in H.
    apply andb_true_iff in H as [_ H]. apply Z.leb_le, H.
  - intros (Hin & Ha & Hb). apply filter_In. split; [exact Hin |].
    unfold Models.liquid_enough. apply andb_true_iff. split; apply Z.leb_le; assumption.
Qed.

(** ** Grouping by expiry *)

Lemma groups_get_setdefault_append (out : Models.groups) (k e : string)
    (c : Models.OptionContract) :
  Models.groups_get (Models.setdefault_append out k c) e =
  if String.eqb k e then
    Some (match Models.groups_get out e with Some cs => cs | None => [] end ++ [c])
  else Models.groups_get out e.
Proof.
  induction out as [| [k' cs] rest IH]; simpl.
  - destruct (String.eqb k e); reflexivity.
  - destruct (String.eqb k' k) eqn:Ek'; simpl.
    + apply String.eqb_eq in Ek'. subst k'.
      destruct (String.eqb k e); reflexivity.
    + destruct (String.eqb k' e) eqn:Ee.
      * apply String.eqb_eq in Ee. subst k'.
        rewrite String.eqb_sym in Ek'. rewrite Ek'. reflexivity.
      * exact IH.
Qed.

Lemma groups_get_fold (cs : list Models.OptionContract) (out : Models.groups)
    (e : string) :
  Models.groups_get
    (fold_left (fun out c => Models.setdefault_append out (Models.expiry c) c) cs out) e =
  match Models.groups_get out e,
        filter (fun c => String.eqb (Models.expiry c) e) cs with
  | None, [] => None
  | o, l => Some (match o with Some g => g | None => [] end ++ l)
  end.
Proof.
  revert out. induction cs as [| c cs IH]; intros out; simpl.
  - destruct (Models.groups_get out e); [rewrite app_nil_r |]; reflexivity.
  - rewrite IH, groups_get_setdefault_append.
    destruct (String.eqb (Models.expiry c) e).
    + destruct (Models.groups_get out e) as [g |]; simpl.
      * rewrite <- app_assoc. reflexivity.
      * reflexivity.
    + reflexivity.
Qed.

Lemma setdefault_append_keys (out : Models.groups) (k : string)
    (c : Models.OptionContract) :
  map fst (Models.setdefault_append out k c) =
  if existsb (String.eqb k) (map fst out) then map fst out
  else map fst out ++ [k].
Proof.
  induction out as [| [k' cs] rest IH]; simpl; [reflexivity |].
  rewrite (String.eqb_sym k k').
  destruct (String.eqb k' k); simpl; [reflexivity |].
  rewrite IH. destruct (existsb (String.eqb k) (map fst rest)); reflexivity.
Qed.

Lemma by_expiry_keys_nodup (cs : list Models.OptionContract) (out : Models.groups) :
  NoDup (map fst out) ->
  NoDup (map fst
    (fold_left (fun out c => Models.setdefault_append out (Models.expiry c) c) cs out)).
Proof.
  revert out. induction cs as [| c cs IH]; intros out Hout; simpl; [exact Hout |].
  apply IH. rewrite setdefault_append_keys.
  destruct (existsb _ _) eqn:E; [exact Hout |].
  apply NoDup_app; [exact Hout | repeat constructor; intros [] | ].
  intros x Hx [<- | []].
  assert (existsb (String.eqb (Models.expiry c)) (map fst out) = true).
  { apply existsb_exists. exists (Models.expiry c). split; [exact Hx | apply String.eqb_refl]. }
  congruence.
Qed.

(** X22: [by_expiry] maps each expiry that occurs in the chain to the
    contracts of that expiry, in the order of the chain, has no key for an
    expiry that does not occur, and holds each key once. *)
Theorem by_expiry_groups (ch : Models.OptionChain) (e : string) :
  Models.groups_get (Models.by_expiry ch) e =
    match filter (fun c => String.eqb (Models.expiry c) e) (Models.contracts ch) with
    | [] => None
    | cs => Some cs
    end /\
  NoDup (map fst (Models.by_expiry ch)).
Proof.
  unfold Models.by_expiry. split.
  - rewrite groups_get_fold. simpl.
    destruct (filter _ _); reflexivity.
  - apply by_expiry_keys_nodup. constructor.
Qed.

(** ** The expiries of a chain *)

(** X23: [expiries] lists the expiry dates that occur in the chain, each once,
    in increasing order; they are the keys of [by_expiry]. *)
Theorem expiries_sorted_unique (ch : Models.OptionChain) :
  Sorted (fun x y => String.leb x y = true) (Models.expiries ch) /\
  NoDup (Models.expiries ch) /\
  (forall e, In e (Models.expiries ch) <->
             exists c, In c (Models.contracts ch) /\ Models.expiry c = e) /\
  (forall e, In e (Models.expiries ch) <->
             Models.groups_get (Models.by_expiry ch) e <> None).
Proof.
  unfold Models.expiries.
  set (l := nodup string_dec (map Models.expiry (Models.contracts ch))).
  pose proof (StringSort.Permuted_sort l) as HP.
  assert (Hin : forall e, In e (StringSort.sort l) <->
                  exists c, In c (Models.contracts ch) /\ Models.expiry c = e).
  { intro e. split.
    - intros H. apply (Permutation_in _ (Permutation_sym HP)) in H.
      apply nodup_In, in_map_iff in H. destruct H as (c & He & Hc).
      exists c. split; assumption.
    - intros (c & Hc & He). apply (Permutation_in _ HP).
      apply nodup_In, in_map_iff. exists c. split; assumption. }
  split; [apply StringSort.Sorted_sort |]. split; [| split].
  - eapply Permutation_NoDup; [exact HP | apply NoDup_nodup].
  - exact Hin.
  - intro e. rewrite Hin.
    unfold Models.by_expiry. rewrite groups_get_fold. simpl.
    destruct (filter _ _) as [| c cs] eqn:E.
    + split; [| intros H; contradiction H; reflexivity].
      intros (c & Hc & He).
      assert (In c []) as [].
      rewrite <- E. apply filter_In. split; [exact Hc |].
      apply String.eqb_eq, He.
    + split; [intros _; discriminate |]. intros _.
      assert (Hc : In c (c :: cs)) by (left; reflexivity).
      rewrite <- E in Hc. apply filter_In in Hc as [Hc He].
      exists c. split; [exact Hc | apply String.eqb_eq, He].
Qed.

(** ** Derived fields *)

(** X24: whatever the date parser answers, after [enrich] the chain has the
    same contracts in the same order with the same quote fields; the time to
    maturity of each is absent (a date did not parse) or not negative, and it
    is zero exactly when the expiry is not after the date of the chain; the
    mid price is set as by [compute_mid]. *)
Theorem enrich_sets_derived_fields (strptime_date : string -> option Z)
    (ch : Models.OptionChain) :
  let ch' := Models.enrich strptime_date ch in
  Forall2 (fun c c' =>
      Models.expiry c' = Models.expiry c /\ Models.strike c' = Models.strike c /\
      Models.bid c' = Models.bid c /\ Models.ask c' = Models.ask c /\
      Models.last c' = Models.last c /\
      Models.mid c' = snd (Models.compute_mid c) /\
      match Models.maturity_years c' with
      | None => strptime_date (Models.expiry c) = None \/
                strptime_date (Models.as_of ch) = None
      | Some y =>
        0 <= y /\
        exists d t, strptime_date (Models.expiry c) = Some d /\
                    strptime_date (Models.as_of ch) = Some t /\
                    (y = 0 <-> (d <= t)%Z)
      end)
    (Models.contracts ch) (Models.contracts ch').
Proof.
  simpl. induction (Models.contracts ch) as [| c cs IH]; simpl; constructor;
    [| exact IH].
  unfold Models.enrich_contract, Models.compute_maturity, Models.compute_moneyness,
    Models.compute_mid.
  assert (Hmid : forall c0 : Models.OptionContract,
            Models.mid (match Models.spot ch with
                        | Some s => if Rgt_dec s 0
                                    then Models.set_moneyness c0 (Some (Models.strike c0 / s))
                                    else c0
                        | None => c0
                        end) = Models.mid c0).
  { intro c0. destruct (Models.spot ch) as [s |]; [destruct (Rgt_dec s 0) |]; reflexivity. }
  destruct (Models.spot ch) as [s |]; [destruct (Rgt_dec s 0) |]; simpl;
    (repeat split; try reflexivity);
    destruct (strptime_date (Models.expiry c)) as [d |];
    try (left; reflexivity);
    destruct (strptime_date (Models.as_of ch)) as [t |];
    try (right; reflexivity).
  all: split;
    [ assert (0 <= IZR (Z.max (d - t) 0)) by (apply IZR_le; lia); 
      unfold Rdiv; apply Rmult_le_pos; lra
    | exists d, t; repeat split; try reflexivity;
      [ intros H; 
        assert (H0 : IZR (Z.max (d - t) 0) = 0) by (unfold Rdiv in H; nra);
        apply eq_IZR in H0; lia
      | intros H; replace (Z.max (d - t) 0) with 0%Z by lia; unfold Rdiv; lra ] ].
Qed.

(** * [utils/data/data_loader.py]: liquidity and retries *)

Module Loader.

Record LoaderConfig : Type := mkLoaderConfig {
  min_open_interest : Z;
  min_volume : Z;
  max_spread_pct : R;
  ignore_stale_last : bool;
  max_workers : Z;
  retries : Z;
  backoff_factor : R
}.

(** [LoaderConfig()] with the defaults of the dataclass. *)
Definition default_config : LoaderConfig :=
  mkLoaderConfig 10 1 0.25 false 8 3 0.8.

(** [n or 0] on an optional integer. *)
Definition or_zero (n : option Z) : Z :=
  match n with
  | Some k => if (k =? 0)%Z then 0%Z else k
  | None => 0%Z
  end.

Definition _is_liquid (config : LoaderConfig) (c : Models.OptionContract) : bool :=
  let oi := or_zero (Models.open_interest c) in
  let vol := or_zero (Models.volume c) in
  if (oi <? min_open_interest config)%Z || (vol <? min_volume config)%Z then false
  else
    let wide :=
      match Models.bid c, Models.ask c with
      | Some b, Some a =>
        if Rgt_dec b 0 then
          let spread_pct := (a - b) / b in
          if Rgt_dec spread_pct (max_spread_pct config) then true else false
        else false
      | _, _ => false
      end in
    if wide then false
    else
      match Models.mid c with
      | None => false
      | Some _ => true
      end.

Definition _filter_chain (config : LoaderConfig) (chain : Models.OptionChain)
    : Models.OptionChain :=
  Models.mkOptionChain (Models.chain_underlying chain) (Models.as_of chain)
    (Models.spot chain) (filter (_is_liquid config) (Models.contracts chain)).

Section Retry.

(** The value that [func] returns and the exceptions that it raises. *)
Variables (A E : Type).

(** What the [i]-th call of [func] does: it returns a value or raises. *)
Variable func : nat -> A + E.

(** What [_retry_loop] logs and how long it sleeps. *)
Inductive retry_event : Type :=
| LogAttemptFailed (attempt : nat) (e : E) (wait : R)
| Sleep (wait : R)
| LogAllFailed (retries : Z).

(** How a call ends: a value, an exception of [func] raised again, the
    [ValueError] of [time.sleep] on a negative length, or [raise None]. *)
Inductive retry_outcome : Type :=
| Returned (a : A)
| Reraised (e : E)
| SleepValueError
| RaisedNone.

(** The loop [for attempt in range(retries + 1)] with [n] iterations left,
    followed by the code after the loop. *)
Fixpoint retry_from (retries : Z) (backoff : R) (n attempt : nat) (last_exc : option E)
    : list retry_event * retry_outcome :=
  match n with
  | O =>
    ([LogAllFailed retries],
     match last_exc with
     | Some e => Reraised e
     | None => RaisedNone
     end)
  | Datatypes.S n' =>
    match func attempt with
    | inl a => ([], Returned a)
    | inr e =>
      let wait := backoff * 2 ^ attempt in
      if Rlt_dec wait 0 then
        ([LogAttemptFailed (Datatypes.S attempt) e wait], SleepValueError)
      else
        let rest := retry_from retries backoff n' (Datatypes.S attempt) (Some e) in
        (LogAttemptFailed (Datatypes.S attempt) e wait :: Sleep wait :: fst rest,
         snd rest)
    end
  end.

Definition _retry_loop (config : LoaderConfig) : list retry_event * retry_outcome :=
  let retries := Z.max 0 (retries config) in
  let backoff :=
    if Req_dec_T (backoff_factor config) 0 then 0.5 else backoff_factor config in
  retry_from retries backoff (Z.to_nat (retries + 1)) O None.

(** [try: return self._retry_loop(...)  except Exception: return None] *)
Definition with_retry_or_none (config : LoaderConfig) : option A :=
  match snd (_retry_loop config) with
  | Returned a => Some a
  | _ => None
  end.

End Retry.

(** [_safe_get_spot_with_retry], for a [_safe_get_spot] whose [i]-th call does
    [history i]. *)
Definition _safe_get_spot_with_retry {E : Type} (history : nat -> R + E)
    (config : LoaderConfig) : option R :=
  with_retry_or_none R E history config.

End Loader.

Arguments Loader.Returned {A E} a.
Arguments Loader.Reraised {A E} e.
Arguments Loader.SleepValueError {A E}.
Arguments Loader.RaisedNone {A E}.
Arguments Loader.Sleep {E} wait.
Arguments Loader.LogAttemptFailed {E} attempt e wait.
Arguments Loader.LogAllFailed {E} retries.

(** ** The loader's liquidity filter *)

Lemma or_zero_default (n : option Z) :
  Loader.or_zero n = match n with Some k => k | None => 0%Z end.
Proof.
  destruct n as [k |]; simpl; [| reflexivity].
  destruct (Z.eqb_spec k 0); congruence.
Qed.

Lemma is_liquid_liquid_enough (config : Loader.LoaderConfig) (c : Models.OptionContract) :
  Loader._is_liquid config c = true ->
  Models.liquid_enough (Loader.min_open_interest config) (Loader.min_volume config) c
  = true.
Proof.
  unfold Loader._is_liquid, Models.liquid_enough. rewrite !or_zero_default.
  destruct (_ || _) eqn:E; [discriminate |]. intros _.
  apply orb_false_iff in E as [E1 E2].
  apply Z.ltb_ge in E1, E2. apply andb_true_iff. split; apply Z.leb_le; assumption.
Qed.

(** X25: the loader's filter refines the chain's own [filter_liquid] at the
    thresholds of the configuration: filtering with [filter_liquid] first
    changes nothing.  A contract that it keeps has a mid price, and when its
    bid is positive and its ask present the spread [(ask - bid) / bid] is at
    most [max_spread_pct]; a contract with no bid or a bid of zero passes
    whatever its spread.  The filter is idempotent. *)
Theorem filter_chain_refines_filter_liquid (config : Loader.LoaderConfig)
    (chain : Models.OptionChain) :
  Loader._filter_chain config
    (Models.filter_liquid chain (Loader.min_open_interest config)
       (Loader.min_volume config))
  = Loader._filter_chain config chain /\
  Loader._filter_chain config (Loader._filter_chain config chain)
  = Loader._filter_chain config chain /\
  forall c, In c (Models.contracts (Loader._filter_chain config chain)) ->
    In c (Models.contracts chain) /\
    Models.mid c <> None /\
    (Loader.min_open_interest config
       <= match Models.open_interest c with Some n => n | None => 0 end)%Z /\
    (Loader.min_volume config
       <= match Models.volume c with Some n => n | None => 0 end)%Z /\
    (forall b a, Models.bid c = Some b -> Models.ask c = Some a -> 0 < b ->
       (a - b) / b <= Loader.max_spread_pct config).
Proof.
  unfold Loader._filter_chain, Models.filter_liquid. simpl.
  split; [| split].
  - f_equal. rewrite filter_filter. apply filter_ext. intro c.
    destruct (Loader._is_liquid config c) eqn:E.
    + rewrite (is_liquid_liquid_enough config c E). reflexivity.
    + apply andb_false_r.
  - f_equal. rewrite filter_filter. apply filter_ext. intro c.
    apply andb_diag.
  - intros c Hc. apply filter_In in Hc as [Hin Hl].
    split; [exact Hin |].
    pose proof (is_liquid_liquid_enough config c Hl) as Hle.
    unfold Models.liquid_enough in Hle. apply andb_true_iff in Hle as [H1 H2].
    apply Z.leb_le in H1, H2.
    unfold Loader._is_liquid in Hl.
    destruct (_ || _); [discriminate |].
    split; [| split; [exact H1 | split; [exact H2 |]]].
    + destruct (Models.mid c); [discriminate |].
      destruct (match Models.bid c with Some _ => _ | None => _ end); discriminate.
    + intros b a Hb Ha Hpos. rewrite Hb, Ha in Hl.
      destruct (Rgt_dec b 0) as [_ | Hn]; [| unfold Rgt in Hn; lra].
      destruct (Rgt_dec ((a - b) / b) (Loader.max_spread_pct config)) as [Hgt | Hle'];
        [discriminate |].
      unfold Rgt in Hle'. lra.
Qed.

(** ** Retries with exponential backoff *)

Section RetryFacts.

Variables (A E : Type).
Variable func : nat -> A + E.

(** The first [k] calls raise. *)
Definition all_fail (from k : nat) : Prop :=
  forall i, (from <= i < from + k)%nat -> exists e, func i = inr e.

(** The sleeps after the failures [from], ..., [from + k - 1]. *)
Definition backoff_sleeps (backoff : R) (from k : nat) : list R :=
  map (fun i => backoff * 2 ^ i) (seq from k).

(** The lengths of the sleeps in a log. *)
Fixpoint sleeps_of (log : list (Loader.retry_event E)) : list R :=
  match log with
  | [] => []
  | Loader.Sleep w :: rest => w :: sleeps_of rest
  | _ :: rest => sleeps_of rest
  end.

Lemma retry_from_success (retries : Z) (backoff : R) (k n from : nat)
    (last_exc : option E) (a : A) :
  0 <= backoff -> (k < n)%nat -> all_fail from k -> func (from + k)%nat = inl a ->
  snd (Loader.retry_from A E func retries backoff n from last_exc) = Loader.Returned a /\
  sleeps_of (fst (Loader.retry_from A E func retries backoff n from last_exc))
    = backoff_sleeps backoff from k.
Proof.
  intros Hb. revert n from last_exc.
  induction k as [| k IH]; intros n from last_exc Hkn Hfail Hok.
  - destruct n as [| n]; [lia |]. simpl.
    rewrite Nat.add_0_r in Hok. rewrite Hok. split; reflexivity.
  - destruct n as [| n]; [lia |]. simpl.
    destruct (Hfail from) as [e He]; [lia |]. rewrite He.
    assert (Hw : 0 <= backoff * 2 ^ from).
    { apply Rmult_le_pos; [exact Hb | apply pow_le; lra]. }
    destruct (Rlt_dec (backoff * 2 ^ from) 0); [lra |].
    destruct (IH n (Datatypes.S from) (Some e)) as [H1 H2].
    + lia.
    + intros i Hi. apply Hfail. lia.
    + rewrite <- Hok. f_equal. lia.
    + split; [exact H1 |]. simpl. unfold backoff_sleeps in *. simpl.
      f_equal. exact H2.
Qed.

Lemma retry_from_failure (retries : Z) (backoff : R) (n from : nat)
    (last_exc : option E) :
  0 <= backoff -> all_fail from n ->
  (match n with
   | O => snd (Loader.retry_from A E func retries backoff n from last_exc)
          = match last_exc with
            | Some e => Loader.Reraised e
            | None => Loader.RaisedNone
            end
   | Datatypes.S m =>
     exists e, func (from + m)%nat = inr e /\
       snd (Loader.retry_from A E func retries backoff n from last_exc)
       = Loader.Reraised e
   end) /\
  sleeps_of (fst (Loader.retry_from A E func retries backoff n from last_exc))
    = backoff_sleeps backoff from n.
Proof.
  intros Hb. revert from last_exc.
  induction n as [| n IH]; intros from last_exc Hfail.
  - simpl. split; reflexivity.
  - simpl. destruct (Hfail from) as [e He]; [lia |]. rewrite He.
    assert (Hw : 0 <= backoff * 2 ^ from).
    { apply Rmult_le_pos; [exact Hb | apply pow_le; lra]. }
    destruct (Rlt_dec (backoff * 2 ^ from) 0); [lra |].
    destruct (IH (Datatypes.S from) (Some e)) as [H1 H2].
    { intros i Hi. apply Hfail. lia. }
    split.
    + destruct n as [| m].
      * exists e. rewrite Nat.add_0_r. split; [exact He | exact H1].
      * destruct H1 as (e' & He' & H1). exists e'.
        split; [| exact H1]. rewrite <- He'. f_equal. lia.
    + simpl. unfold backoff_sleeps in *. simpl. f_equal. exact H2.
Qed.

End RetryFacts.

Arguments all_fail {A E} func from k.
Arguments sleeps_of {E} log.

(** The backoff that [_retry_loop] uses and the number of calls it allows. *)
Definition effective_backoff (config : Loader.LoaderConfig) : R :=
  if Req_dec_T (Loader.backoff_factor config) 0 then 0.5
  else Loader.backoff_factor config.

Definition max_calls (config : Loader.LoaderConfig) : nat :=
  Datatypes.S (Z.to_nat (Z.max 0 (Loader.retries config))).

Lemma retry_loop_unfold {A E} (func : nat -> A + E) (config : Loader.LoaderConfig) :
  Loader._retry_loop A E func config =
  Loader.retry_from A E func (Z.max 0 (Loader.retries config))
    (effective_backoff config) (max_calls config) O None.
Proof.
  unfold Loader._retry_loop, effective_backoff, max_calls. f_equal.
  rewrite Z2Nat.inj_add by lia. simpl. lia.
Qed.





(** X28: with a negative backoff factor nothing is retried: when the first
    call raises, [time.sleep] is given a negative length and its [ValueError]
    ends [_retry_loop] after that one call, and [_safe_get_spot_with_retry]
    answers [None] even if a later call would succeed. *)
Theorem retry_loop_negative_backoff {A E} (func : nat -> A + E)
    (config : Loader.LoaderConfig) (e : E) :
  Loader.backoff_factor config < 0 -> func O = inr e ->
  snd (Loader._retry_loop A E func config) = Loader.SleepValueError /\
  sleeps_of (fst (Loader._retry_loop A E func config)) = [] /\
  Loader.with_retry_or_none A E func config = None.
Proof.
  intros Hb He.
  unfold Loader.with_retry_or_none. rewrite retry_loop_unfold.
  unfold max_calls. simpl. rewrite He.
  assert (Hw : effective_backoff config * 1 < 0).
  { unfold effective_backoff. destruct (Req_dec_T _ 0); lra. }
  destruct (Rlt_dec (effective_backoff config * 1) 0); [| contradiction].
  simpl. repeat split.
Qed.

Lemma retry_loop_negative_backoff_witness :
  snd (Loader._retry_loop R unit
         (fun i => if Nat.eqb i 0 then inr tt else inl 101.5)
         (Loader.mkLoaderConfig 10 1 0.25 false 8 3 (-1)))
    = Loader.SleepValueError /\
  sleeps_of (fst (Loader._retry_loop R unit
                    (fun i => if Nat.eqb i 0 then inr tt else inl 101.5)
                    (Loader.mkLoaderConfig 10 1 0.25 false 8 3 (-1)))) = [] /\
  Loader.with_retry_or_none R unit
    (fun i => if Nat.eqb i 0 then inr tt else inl 101.5)
    (Loader.mkLoaderConfig 10 1 0.25 false 8 3 (-1)) = None.
Proof.
  apply (retry_loop_negative_backoff
           (fun i => if Nat.eqb i 0 then inr tt else inl 101.5)
           (Loader.mkLoaderConfig 10 1 0.25 false 8 3 (-1)) tt).
  - simpl. lra.
  - reflexivity.
Defined.

(** * [app.py]: the quotes handed to the processor *)

Module App.

(** [x or 0.0] on an optional float. *)
Definition or_zero_float (x : option R) : R :=
  match x with
  | Some v => if Req_dec_T v 0 then 0.0 else v
  | None => 0.0
  end.

(** The [dict] that [main] appends to [raw_chain] for a contract. *)
Definition contract_row (c : Models.OptionContract) : dict :=
  [("symbol", Models.symbol c);
   ("expiry", PyStr (Models.expiry c));
   ("strike", PyFloat (Models.strike c));
   ("type", PyStr (Models.option_type c));
   ("bid", PyFloat (or_zero_float (Models.bid c)));
   ("ask", PyFloat (or_zero_float (Models.ask c)))]%string.

(** The loop of [main] that fills [raw_chain]. *)
Fixpoint build_raw_chain (option_type_filter : string)
    (contracts : list Models.OptionContract) : list dict :=
  match contracts with
  | [] => []
  | c :: rest =>
    let tau := or_zero_float (Models.maturity_years c) in
    if Rle_dec tau 0 then build_raw_chain option_type_filter rest
    else if String.eqb option_type_filter "Calls"
            && negb (String.eqb (Models.option_type c) "C")
    then build_raw_chain option_type_filter rest
    else if String.eqb option_type_filter "Puts"
            && negb (String.eqb (Models.option_type c) "P")
    then build_raw_chain option_type_filter rest
    else contract_row c :: build_raw_chain option_type_filter rest
  end.

End App.

Lemma or_zero_float_default (x : option R) :
  App.or_zero_float x = match x with Some v => v | None => 0 end.
Proof.
  destruct x as [v |]; simpl; [| lra].
  destruct (Req_dec_T v 0); lra.
Qed.

Lemma contract_row_quote_like (c : Models.OptionContract) :
  quote_like (App.contract_row c).
Proof.
  exists (Models.symbol c), (PyStr (Models.expiry c)), (PyFloat (Models.strike c)),
    (PyStr (Models.option_type c)), (PyFloat (App.or_zero_float (Models.bid c))),
    (PyFloat (App.or_zero_float (Models.ask c))).
  repeat split; reflexivity.
Qed.

Lemma build_raw_chain_rows (flt : string) (contracts : list Models.OptionContract)
    (row : dict) :
  In row (App.build_raw_chain flt contracts) <->
  exists c,
    In c contracts /\ row = App.contract_row c /\
    (exists y, Models.maturity_years c = Some y /\ 0 < y) /\
    (flt = "Calls"%string -> Models.option_type c = "C"%string) /\
    (flt = "Puts"%string -> Models.option_type c = "P"%string).
Proof.
  induction contracts as [| c rest IH]; simpl.
  - split; [intros [] | intros (c & [] & _)].
  - assert (Hkeep :
      (exists y, Models.maturity_years c = Some y /\ 0 < y) <->
      ~ App.or_zero_float (Models.maturity_years c) <= 0).
    { rewrite or_zero_float_default.
      destruct (Models.maturity_years c) as [y |].
      - split; [intros (y' & [= <-] & Hy); lra | intros H; exists y; split; [reflexivity | lra]].
      - split; [intros (y' & [=] & _) | intros H; exfalso; apply H; lra]. }
    assert (Hrest : In row (App.build_raw_chain flt rest) ->
              exists c0, (c = c0 \/ In c0 rest) /\ row = App.contract_row c0 /\
                (exists y, Models.maturity_years c0 = Some y /\ 0 < y) /\
                (flt = "Calls"%string -> Models.option_type c0 = "C"%string) /\
                (flt = "Puts"%string -> Models.option_type c0 = "P"%string)).
    { intros H. apply IH in H as (c0 & Hin & H). exists c0. split; [right; exact Hin | exact H]. }
    destruct (Rle_dec _ 0) as [Hle | Hgt].
    { split; [exact Hrest |].
      intros (c0 & [<- | Hin] & Hrow & Hy & Hf).
      - apply Hkeep in Hy. contradiction.
      - apply IH. exists c0. repeat split; try assumption; apply Hf. }
    destruct (String.eqb flt "Calls") eqn:EC;
      destruct (String.eqb (Models.option_type c) "C") eqn:ETC;
      destruct (String.eqb flt "Puts") eqn:EP;
      destruct (String.eqb (Models.option_type c) "P") eqn:ETP; simpl;
      repeat match goal with
             | H : String.eqb _ _ = true |- _ => apply String.eqb_eq in H
             | H : String.eqb _ _ = false |- _ => apply String.eqb_neq in H
             end;
      try (subst flt; discriminate).
    all: split;
      [ intros H;
        try (destruct H as [<- | H];
             [ exists c; split; [left; reflexivity |];
               split; [reflexivity |]; split; [apply Hkeep, Hgt |];
               split; intros ->; congruence
             | apply Hrest, H ]);
        try (apply Hrest, H)
      | intros (c0 & [<- | Hin] & Hrow & Hy & HfC & HfP);
        [ try (left; symmetry; exact Hrow);
          try (exfalso; auto; fail)
        | try right; apply IH; exists c0; repeat split; assumption ] ].
Qed.

(** X29: every row that [main] puts on [raw_chain] comes from a contract with
    a positive time to maturity that passes the option type filter, and any
    batch of such rows is processed by [process_chain] without an exception,
    one point per row: the rows have the six fields, with a float for bid and
    ask (a missing one is 0.0). *)
Theorem app_batches_are_processed (flt : string)
    (contracts : list Models.OptionContract) (batch : list dict)
    (self : OptionChainProcessor) (spot tau : R) :
  (forall row, In row batch -> In row (App.build_raw_chain flt contracts)) ->
  Forall (fun row =>
      exists c,
        In c contracts /\ row = App.contract_row c /\
        (exists y, Models.maturity_years c = Some y /\ 0 < y) /\
        (flt = "Calls"%string -> Models.option_type c = "C"%string) /\
        (flt = "Puts"%string -> Models.option_type c = "P"%string)) batch /\
  exists points,
    snd (process_chain self batch spot tau) = Ok points /\
    Forall2 copies_quote batch points.
Proof.
  intros Hrows.
  assert (H : Forall (fun row =>
      exists c,
        In c contracts /\ row = App.contract_row c /\
        (exists y, Models.maturity_years c = Some y /\ 0 < y) /\
        (flt = "Calls"%string -> Models.option_type c = "C"%string) /\
        (flt = "Puts"%string -> Models.option_type c = "P"%string)) batch).
  { apply Forall_forall. intros row Hin.
    apply build_raw_chain_rows, Hrows, Hin. }
  split; [exact H |].
  apply process_chain_quote_like.
  eapply Forall_impl; [| exact H].
  intros row (c & _ & -> & _). apply contract_row_quote_like.
Qed.

(** A call on spot 100 and strike 110 with bid 1.0 and ask 1.2. *)
Definition sample_contract : Models.OptionContract :=
  Models.mkOptionContract (PyStr "XYZ250117C00110000") "XYZ" "2025-01-17" 110 "C"
    (Some 1) (Some 1.2) (Some 1.1) (Some 5%Z) (Some 20%Z)
    None None None None (Some 0.5).

Lemma app_batches_are_processed_witness :
  Forall (fun row =>
      exists c,
        In c [sample_contract] /\ row = App.contract_row c /\
        (exists y, Models.maturity_years c = Some y /\ 0 < y) /\
        ("All"%string = "Calls"%string -> Models.option_type c = "C"%string) /\
        ("All"%string = "Puts"%string -> Models.option_type c = "P"%string))
    (App.build_raw_chain "All" [sample_contract]) /\
  exists points,
    snd (process_chain default_processor
           (App.build_raw_chain "All" [sample_contract]) 100 0.5) = Ok points /\
    Forall2 copies_quote (App.build_raw_chain "All" [sample_contract]) points.
Proof.
  apply (app_batches_are_processed "All" [sample_contract]
           (App.build_raw_chain "All" [sample_contract]) default_processor 100 0.5).
  intros row H. exact H.
Defined.

(** ** The mid price of a row of the application *)

(** The mid price that [process_chain] gives to the row of a contract. *)
Definition app_mid (c : Models.OptionContract) : option R :=
  match Models.bid c, Models.ask c with
  | Some b, Some a =>
    if Req_dec_T b 0 then None
    else if Req_dec_T a 0 then None
    else Some ((b + a) / 2)
  | _, _ => None
  end.

Lemma contract_row_mid (c : Models.OptionContract) :
  snd (row_mid (PyFloat (App.or_zero_float (Models.bid c)))
         (PyFloat (App.or_zero_float (Models.ask c)))) = Ok (app_mid c).
Proof.
  unfold app_mid. rewrite !or_zero_float_default.
  destruct (Models.bid c) as [b |], (Models.ask c) as [a |].
  - destruct (Req_dec_T b 0) as [-> | Hb].
    + rewrite row_mid_falsy by (left; apply truthy_zero). reflexivity.
    + destruct (Req_dec_T a 0) as [-> | Ha].
      * rewrite row_mid_falsy by (right; apply truthy_zero). reflexivity.
      * rewrite row_mid_floats by assumption. reflexivity.
  - rewrite row_mid_falsy by (right; apply truthy_zero). reflexivity.
  - rewrite row_mid_falsy by (left; apply truthy_zero). reflexivity.
  - rewrite row_mid_falsy by (left; apply truthy_zero). reflexivity.
Qed.

(** X30: the point of a contract's row has a mid price exactly when bid and
    ask are both present and not zero, and it is then the mid price of
    [compute_mid]; with a missing or zero bid or ask the point has no mid
    price, no implied volatility and no Greeks, whatever the last trade and
    although [compute_mid] may give the contract a mid price. *)
Theorem app_point_mid (c : Models.OptionContract) (self : OptionChainProcessor)
    (spot tau : R) :
  exists p,
    snd (process_chain self [App.contract_row c] spot tau) = Ok [p] /\
    mid p = app_mid c /\
    (forall m, mid p = Some m -> snd (Models.compute_mid c) = Some m) /\
    (app_mid c = None ->
     implied_vol p = None /\ delta p = None /\ gamma p = None /\
     theta p = None /\ rho p = None).
Proof.
  destruct (process_row_total self spot tau (App.contract_row c)
              (contract_row_quote_like c)) as [p Hp].
  exists p.
  assert (Hchain : snd (process_chain self [App.contract_row c] spot tau) = Ok [p]).
  { unfold process_chain. apply process_chain_with_cons; [exact Hp | reflexivity]. }
  split; [exact Hchain |].
  destruct (process_row_inv _ _ _ _ _ _ Hp)
    as (b & a & m & iv & g & Hb & Ha & Hm & Hiv & Hg & _ & _ & Hpm & Hpiv & Hpg).
  assert (Eb : b = PyFloat (App.or_zero_float (Models.bid c))).
  { cbv [App.contract_row getitem] in Hb. simpl in Hb. congruence. }
  assert (Ea : a = PyFloat (App.or_zero_float (Models.ask c))).
  { cbv [App.contract_row getitem] in Ha. simpl in Ha. congruence. }
  subst b a. rewrite contract_row_mid in Hm. injection Hm as <-.
  split; [exact Hpm |]. split.
  - intros m Hmid. rewrite Hpm in Hmid. unfold app_mid in Hmid.
    unfold Models.compute_mid. simpl.
    destruct (Models.bid c) as [b |]; [| discriminate].
    destruct (Models.ask c) as [a |]; [| discriminate].
    destruct (Req_dec_T b 0); [discriminate |].
    destruct (Req_dec_T a 0); [discriminate |].
    injection Hmid as <-. f_equal. lra.
  - intros Hnone. rewrite Hnone in Hiv. simpl in Hiv. injection Hiv as <-.
    simpl in Hg. injection Hg as <-.
    injection Hpg as -> -> -> ->. repeat split; assumption.
Qed.
